(** * netcdftime: calendar conversions and index resolution

    A shallow embedding of [netcdftime/netcdftime.py].

    Numbers.  The Python code computes with binary64 floats and numpy
    integers.  A float is the rational number it stands for ([Q]);
    infinities and NaN are not values of the model.  A conversion of a
    float to an integer ([int(x)], [np.int32(x)], [np.int64(x)],
    [.astype(int)], [numpy.array(x, int)]) is truncation towards zero;
    outside the range of the integer type the code's result is not
    defined, and the statements keep to the range.  The operator [/] is
    the true division of Python 3, also between integers ([year / 100],
    [A / 4]).

    Rounding.  In the index resolver ([time2index]) every float operation
    is rounded to binary64 by [fl]: the stride, the difference and the
    quotient of the guess, the differences of [_check_index], and the
    midpoint of the bisection method.  The calendar conversions are
    written in exact arithmetic, and their statements keep to inputs on
    which that is what the code computes or differs from it by less than
    the statement's margin: concrete inputs that keep a wide margin from
    every threshold the code compares with, dates at 00:00:00, dates
    given to the whole second in the years 1 to 9999, and day counts up
    to 10^9; each statement names its restriction.

    Strings.  Calendar names, unit names and the [select] keyword are the
    strings the code compares against.

    Errors.  Every [raise] is a value of [error]; fallible functions
    return [result].

    Sequences.  [JulianDayFromDate] and [DateFromJulianDay] work on whole
    arrays and are modelled on lists, with the scalar call as the list of
    one element; [date2num] and [num2date] are modelled for a scalar, and
    [time2index] for a sequence of times. *)

From Stdlib Require Import ZArith QArith Qround Qabs List String Bool Lia Lqa.
Import ListNotations.

Local Open Scope Z_scope.
Local Open Scope Q_scope.
Local Open Scope string_scope.

(** ** Errors *)

Inductive error : Type :=
| ImpossibleDate        (* 'impossible date (falls in gap ...' *)
| UnknownCalendar       (* 'unknown calendar, must be one of ...' *)
| BadCalendar           (* 'calendar must be one of ...' (utime) *)
| BadUnits              (* 'units must be one of ...' (_dateparse) *)
| NegativeJulianDay     (* 'Julian Day must be positive' *)
| NoLeapDay             (* 'there is no leap day in the noleap calendar' *)
| LeapDayReference      (* 'cannot specify a leap day as the reference time ...' *)
| Only30Days            (* 'there are only 30 days in every month ...' *)
| BeforeFirstTime       (* 'Some of the times given are before the first time ...' *)
| AfterLastTime         (* 'Some of the times given are after the last time ...' *)
| TimesNotFound         (* 'Some of the times specified were not found ...' *)
| BadSelect             (* '%s is not an option for the `select` argument.' *)
| EmptyReduction        (* np.min / np.max of an empty array *)
| DatetimeRange         (* ValueError of datetime.datetime's constructor *)
| IndexError            (* sequence index out of range *)
| UnboundLocal.         (* a local variable that no branch has assigned *)

Inductive result (A : Type) : Type :=
| Ok (a : A)
| Raise (e : error).
Arguments Ok {A} a.
Arguments Raise {A} e.

Definition bind {A B : Type} (r : result A) (k : A -> result B) : result B :=
  match r with
  | Ok a => k a
  | Raise e => Raise e
  end.

Notation "x <- r ;; k" := (bind r (fun x => k))
  (at level 61, r at next level, right associativity).

(** ** Numeric helpers *)

(** [int(x)], [np.int32(x)], [np.int64(x)]: the fractional part is dropped,
    as by C's conversion of a double to an integer. *)
Definition trunc (x : Q) : Z := Z.quot (Qnum x) (Zpos (Qden x)).

(** [np.round], [numpy.around]: to the nearest integer, a half goes to the
    even neighbour. *)
Definition around (x : Q) : Z :=
  let f := Qfloor x in
  match Qcompare (x - inject_Z f) (1 # 2) with
  | Lt => f
  | Gt => (f + 1)%Z
  | Eq => if Z.even f then f else (f + 1)%Z
  end.

(** [numpy.ceil] followed by the conversion to [int]. *)
Definition ceil (x : Q) : Z := Qceiling x.

(** [np.clip(x, lo, None)] and [np.clip(x, lo, hi)]. *)
Definition clip_lo (x lo : Q) : Q := if Qlt_le_dec x lo then lo else x.
Definition clipZ (x lo hi : Z) : Z := Z.min (Z.max x lo) hi.

(** [np.fmod] on integers: the remainder has the sign of the dividend. *)
Definition fmod (a b : Z) : Z := Z.rem a b.

(** Python's [%] on integers: the remainder has the sign of the divisor. *)
Definition pymod (a b : Z) : Z := Z.modulo a b.

(** [x % 1] on a float. *)
Definition frac1 (x : Q) : Q := x - inject_Z (Qfloor x).

Definition Qltb (a b : Q) : bool := if Qlt_le_dec a b then true else false.
Definition Qleb (a b : Q) : bool := Qle_bool a b.
Definition Qeqb (a b : Q) : bool := Qeq_bool a b.

(** ** Binary64 rounding *)

(** [floor (log2 |x|)] for an [x] other than 0. *)
Definition ilog2 (x : Q) : Z :=
  let e := (Z.log2 (Z.abs (Qnum x)) - Z.log2 (Zpos (Qden x)))%Z in
  if Qle_bool (2 ^ e) (Qabs x) then e else (e - 1)%Z.

(** The exponent of the unit in the last place of the binary64 numbers
    around [x]: 53 significant bits, and 2^-1074 in the subnormal range. *)
Definition ulp_exponent (x : Q) : Z := Z.max (ilog2 x - 52) (-1074).

(** The binary64 number nearest to [x], the one with the even significand
    at a tie: what a float operation returns when its exact result is [x].
    An operation overflows to infinity when its exact result is beyond the
    largest binary64 number; infinities are not values of the model, and
    [finite64] says that an exact result stays below that bound. *)
Definition fl (x : Q) : Q :=
  if Qeq_bool x 0 then 0
  else let s := 2 ^ ulp_exponent x in inject_Z (around (x / s)) * s.

Definition max_binary64 : Q := inject_Z (2 ^ 1024 - 2 ^ 971).

Definition finite64 (x : Q) : Prop := Qabs x <= max_binary64.

(** [(a + b) / 2.] on floats. *)
Definition midpoint64 (a b : Q) : Q := fl (fl (a + b) / 2).

Definition minimum (l : list Q) : result Q :=
  match l with
  | [] => Raise EmptyReduction
  | x :: r => Ok (fold_left (fun m y => if Qltb y m then y else m) r x)
  end.

Definition maximum (l : list Q) : result Q :=
  match l with
  | [] => Raise EmptyReduction
  | x :: r => Ok (fold_left (fun m y => if Qltb m y then y else m) r x)
  end.

(** [x in [...]] on a list of strings. *)
Definition mem (x : string) (l : list string) : bool :=
  existsb (String.eqb x) l.

(** [x in s] for two strings: [x] occurs in [s] as a contiguous run. *)
Fixpoint substring_of (x s : string) : bool :=
  prefix x s ||
  match s with
  | EmptyString => false
  | String _ s' => substring_of x s'
  end.

(** ** Dates *)

(** The fields the code reads from a 'datetime-like' object. *)
Record civil : Type := Civil {
  year : Z; month : Z; day : Z;
  hour : Z; minute : Z; second : Z; microsecond : Z
}.

(** What the conversions return: a [datetime.datetime] of the standard
    library ([real_datetime] in the module) or the module's own
    [netcdftime.datetime], which also carries [dayofwk] and [dayofyr]. *)
Inductive dateobj : Type :=
| Real (c : civil)
| Phony (c : civil) (dayofwk dayofyr : Z).

Definition fields (d : dateobj) : civil :=
  match d with
  | Real c => c
  | Phony c _ _ => c
  end.

(** [netcdftime.datetime(...)]: no check of its arguments. *)
Definition datetime (y m d h mi s us dayofwk dayofyr : Z) : dateobj :=
  Phony (Civil y m d h mi s us) dayofwk dayofyr.

(** [datetime.datetime(...)] of the standard library.  It accepts years
    1..9999 and days that exist in the proleptic Gregorian calendar, and
    raises [ValueError] otherwise. *)
Definition gregorian_leap (y : Z) : bool :=
  ((y mod 4 =? 0) && (negb (y mod 100 =? 0) || (y mod 400 =? 0)))%Z.

Definition days_in_month (y m : Z) : Z :=
  if (m =? 2)%Z then (if gregorian_leap y then 29 else 28)%Z
  else if ((m =? 4) || (m =? 6) || (m =? 9) || (m =? 11))%Z then 30%Z
  else 31%Z.

Definition real_datetime (y m d h mi s us : Z) : result dateobj :=
  if ((1 <=? y) && (y <=? 9999) && (1 <=? m) && (m <=? 12) &&
      (1 <=? d) && (d <=? days_in_month y m) &&
      (0 <=? h) && (h <=? 23) && (0 <=? mi) && (mi <=? 59) &&
      (0 <=? s) && (s <=? 59) && (0 <=? us) && (us <=? 999999))%Z
  then Ok (Real (Civil y m d h mi s us))
  else Raise DatetimeRange.

(** [day + hour / 24.0 + minute / 1440.0 + (second + microsecond/1.e6) / 86400.0] *)
Definition fractional_day (d : civil) : Q :=
  inject_Z (day d) + inject_Z (hour d) / 24 + inject_Z (minute d) / 1440
  + (inject_Z (second d) + inject_Z (microsecond d) / 1000000) / 86400.

(** ** Civil date to day count *)

Module Meeus.

(** The month and year after lines 82..84: January and February count
    as months 13 and 14 of the year before. *)
Definition shift_month (d : civil) : Z :=
  if (month d <? 3)%Z then (month d + 12)%Z else month d.
Definition shift_year (d : civil) : Z :=
  if (month d <? 3)%Z then (year d - 1)%Z else year d.

(** [A = np.int64(year / 100)] *)
Definition century (d : civil) : Z := trunc (inject_Z (shift_year d) / 100).

(** Line 91: the day count before the calendar correction. *)
Definition jd_uncorrected (d : civil) : Q :=
  365 * inject_Z (shift_year d)
  + inject_Z (trunc ((1 # 4) * inject_Z (shift_year d) + 2000))
  + inject_Z (trunc ((306001 # 10000) * inject_Z (shift_month d + 1)))
  + fractional_day d + (17189945 # 10).

(** [B = 2 - A + np.int32(A / 4)] *)
Definition gregorian_B (d : civil) : Q :=
  inject_Z (2 - century d + trunc (inject_Z (century d) / 4)).

End Meeus.

(** [JulianDayFromDate] on a sequence of dates.  The branch of the mixed
    calendar is chosen once, from the smallest and the largest element. *)
Definition JulianDayFromDate_array (date : list civil) (calendar : string)
  : result (list Q) :=
  let jd := map Meeus.jd_uncorrected date in
  B <- (if mem calendar ["standard"; "gregorian"] then
          lo <- minimum jd ;;
          if Qleb (22991705 # 10) lo then Ok (map Meeus.gregorian_B date)
          else
            hi <- maximum jd ;;
            if Qltb hi (22991605 # 10) then Ok (map (fun _ => 0) date)
            else Raise ImpossibleDate
        else if calendar =? "proleptic_gregorian" then
          Ok (map Meeus.gregorian_B date)
        else if calendar =? "julian" then
          Ok (map (fun _ => 0) date)
        else Raise UnknownCalendar) ;;
  Ok (map (fun p => fst p + snd p) (combine jd B)).

(** [JulianDayFromDate] on one date: [np.atleast_1d] makes a sequence of
    one element, and [jd[0]] is returned. *)
Definition JulianDayFromDate (date : civil) (calendar : string) : result Q :=
  jd <- JulianDayFromDate_array [date] calendar ;;
  match jd with
  | x :: _ => Ok x
  | [] => Raise IndexError
  end.

(** [_NoLeapDayFromDate] *)
Definition _NoLeapDayFromDate (date : civil) : Q :=
  inject_Z (trunc (365 * inject_Z (Meeus.shift_year date + 4716)))
  + inject_Z (trunc ((306001 # 10000) * inject_Z (Meeus.shift_month date + 1)))
  + fractional_day date - (15245 # 10).

(** [_AllLeapFromDate] *)
Definition _AllLeapFromDate (date : civil) : Q :=
  inject_Z (trunc (366 * inject_Z (Meeus.shift_year date + 4716)))
  + inject_Z (trunc ((306001 # 10000) * inject_Z (Meeus.shift_month date + 1)))
  + fractional_day date - (15245 # 10).

(** [_360DayFromDate] *)
Definition _360DayFromDate (date : civil) : Q :=
  inject_Z (trunc (360 * inject_Z (year date + 4716)))
  + inject_Z (trunc (30 * inject_Z (month date - 1)))
  + fractional_day date.

(** ** Day count to civil date *)

Fixpoint mapM {A B : Type} (f : A -> result B) (l : list A) : result (list B) :=
  match l with
  | [] => Ok []
  | a :: r => b <- f a ;; bs <- mapM f r ;; Ok (b :: bs)
  end.

(** [math.modf]: the fractional and the integral part, both with the sign
    of the argument. *)
Definition modf (x : Q) : Q * Z := (x - inject_Z (trunc x), trunc x).

(** The fields computed for one element of [JD], before a date object is
    built from them. *)
Record parts : Type := Parts {
  p_civil : civil;
  p_dayofwk : Z;
  p_dayofyr : Z
}.

Module Inverse.

(** Line 245: [Z = np.int32(np.round(julian + 0.00005))] *)
Definition whole_day (julian : Q) : Z := around (julian + (5 # 100000)).

(** Lines 251..252 and 262..263. *)
Definition gregorian_A (Zd : Z) : Z :=
  let alpha := trunc (((inject_Z Zd - 1867216) - (1 # 4)) / (3652425 # 100)) in
  (Zd + 1 + alpha - trunc ((1 # 4) * inject_Z alpha))%Z.

(** Lines 247..268: [A] for one element. *)
Definition calendar_A (calendar : string) (julian : Q) (Zd : Z) : result Z :=
  if mem calendar ["standard"; "gregorian"] then
    Ok (if Qltb julian (22991605 # 10) then Zd else gregorian_A Zd)
  else if calendar =? "proleptic_gregorian" then Ok (gregorian_A Zd)
  else if calendar =? "julian" then Ok Zd
  else Raise UnknownCalendar.

(** Lines 241..328 for one element of [julian]. *)
Definition element (calendar : string) (julian : Q) : result parts :=
  let dayofwk := fmod (trunc (julian + (3 # 2))) 7 in
  let Zd := whole_day julian in
  let F := julian + (1 # 2) - inject_Z Zd in
  A <- calendar_A calendar julian Zd ;;
  let B := (A + 1524)%Z in
  let C := trunc (6680 + ((inject_Z B - 2439870) - (1221 # 10)) / (36525 # 100)) in
  let D := (365 * C + trunc ((1 # 4) * inject_Z C))%Z in
  let E := trunc (inject_Z (B - D) / (306001 # 10000)) in
  let day :=
    clip_lo (inject_Z (B - D - trunc ((306001 # 10000) * inject_Z E)) + F) 1 in
  let nday := (B - D - 123)%Z in
  let dayofyr := if (nday <=? 305)%Z then (nday + 60)%Z else (nday - 305)%Z in
  let month := (E - 1)%Z in
  let month := if (12 <? month)%Z then (month - 12)%Z else month in
  let year := (C - 4715)%Z in
  let year := if (2 <? month)%Z then (year - 1)%Z else year in
  let year := if (year <=? 0)%Z then (year - 1)%Z else year in
  let leap := (pymod year 4 =? 0)%Z in
  let century_rule :=
    ((pymod year 100 =? 0)%Z && negb (pymod year 400 =? 0)%Z)%bool in
  let leap :=
    if calendar =? "proleptic_gregorian" then
      (if century_rule then false else leap)
    else if mem calendar ["standard"; "gregorian"] then
      (if (century_rule && Qltb julian (22991605 # 10))%bool then false else leap)
    else leap in
  let dayofyr :=
    if (leap && (2 <? month)%Z)%bool then (dayofyr + 1)%Z else dayofyr in
  let eps :=
    clip_lo ((1 # 1000000000000) * inject_Z (Z.abs Zd)) (1 # 1000000000000) in
  let hour := clipZ (trunc (F * 24 + eps)) 0 23 in
  let F := F - inject_Z hour / 24 in
  let minute := clipZ (trunc (F * 1440 + eps)) 0 59 in
  let second := clip_lo ((F - inject_Z minute / 1440) * 86400) 0 in
  let microsecond := frac1 second * 1000000 in
  Ok (Parts (Civil year month (trunc day) hour minute
                   (trunc second) (trunc microsecond))
            dayofwk dayofyr).

End Inverse.

Definition build_real (p : parts) : result dateobj :=
  let c := p_civil p in
  real_datetime (year c) (month c) (day c) (hour c) (minute c) (second c)
                (microsecond c).

Definition build_phony (p : parts) : dateobj :=
  let c := p_civil p in
  datetime (year c) (month c) (day c) (hour c) (minute c) (second c)
           (microsecond c) (p_dayofwk p) (p_dayofyr p).

(** [DateFromJulianDay] on a sequence of day counts.  Line 337 tests
    [calendar in 'proleptic_gregorian'], which on two strings is the
    substring test. *)
Definition DateFromJulianDay_array (JD : list Q) (calendar : string)
  : result (list dateobj) :=
  lo <- minimum JD ;;
  if Qltb lo 0 then Raise NegativeJulianDay
  else
    ps <- mapM (Inverse.element calendar) JD ;;
    let ind_before := filter (fun j => Qltb j (22991605 # 10)) JD in
    if (substring_of calendar "proleptic_gregorian" ||
        (mem calendar ["standard"; "gregorian"] &&
         Nat.eqb (List.length ind_before) 0))%bool
    then mapM build_real ps
    else Ok (map build_phony ps).

(** [DateFromJulianDay] on one day count. *)
Definition DateFromJulianDay (JD : Q) (calendar : string) : result dateobj :=
  ds <- DateFromJulianDay_array [JD] calendar ;;
  match ds with
  | d :: _ => Ok d
  | [] => Raise IndexError
  end.

Module Fixed.

(** Lines 401..405, shared by the three fixed-length calendars: the
    day with its fraction is split into day, hour, minute, second and
    microsecond by repeated [math.modf]. *)
Definition split_day (day : Q) : Z * Z * Z * Z * Z :=
  let '(dfrac, days) := modf (day / 1) in
  let '(hfrac, hours) := modf (dfrac * 24) in
  let '(mfrac, minutes) := modf (hfrac * 60) in
  let '(sfrac, seconds) := modf (mfrac * 60) in
  let microseconds := sfrac * 1000000 in
  (days, hours, minutes, seconds, trunc microseconds).

(** Lines 374..398 of [_DateFromNoLeapDay], and the same lines of
    [_DateFromAllLeap], with the length of the year as a parameter. *)
Definition from_day (ylen : Z) (all_leap : bool) (JD : Q) : result dateobj :=
  if Qltb JD 0 then Raise NegativeJulianDay
  else
    let dayofwk := fmod (trunc (JD + (3 # 2))) 7 in
    let '(F, Zd) := modf (JD + (1 # 2)) in
    let A := Zd in
    let B := (A + 1524)%Z in
    let C := trunc ((inject_Z B - (1221 # 10)) / inject_Z ylen) in
    let D := trunc (inject_Z ylen * inject_Z C) in
    let E := trunc (inject_Z (B - D) / (306001 # 10000)) in
    let day := inject_Z (B - D - trunc ((306001 # 10000) * inject_Z E)) + F in
    let nday := (B - D - 123)%Z in
    let dayofyr := if (nday <=? 305)%Z then (nday + 60)%Z else (nday - 305)%Z in
    let month := if (E <? 14)%Z then (E - 1)%Z else (E - 13)%Z in
    let dayofyr :=
      if (all_leap && (2 <? month)%Z)%bool then (dayofyr + 1)%Z else dayofyr in
    let year := if (2 <? month)%Z then (C - 4716)%Z else (C - 4715)%Z in
    let '(days, hours, minutes, seconds, microseconds) := split_day day in
    Ok (datetime year month days hours minutes seconds microseconds
                 dayofwk dayofyr).

End Fixed.

Definition _DateFromNoLeapDay (JD : Q) : result dateobj :=
  Fixed.from_day 365 false JD.

Definition _DateFromAllLeap (JD : Q) : result dateobj :=
  Fixed.from_day 366 true JD.

(** [_DateFrom360Day].  [dayofyr] is an integral float in the code. *)
Definition _DateFrom360Day (JD : Q) : result dateobj :=
  if Qltb JD 0 then Raise NegativeJulianDay
  else
    let '(F, Zd) := modf JD in
    let year := (trunc ((inject_Z Zd - (1 # 2)) / 360) - 4716)%Z in
    let dayofyr := (Zd - (year + 4716) * 360)%Z in
    let month := (trunc ((inject_Z dayofyr - (1 # 2)) / 30) + 1)%Z in
    let day := inject_Z (dayofyr - (month - 1) * 30) + F in
    let '(days, hours, minutes, seconds, microseconds) := Fixed.split_day day in
    Ok (datetime year month days hours minutes seconds microseconds
                 (-1) dayofyr).

(** ** The [utime] class *)

Definition _units : list string :=
  ["days"; "hours"; "minutes"; "seconds";
   "day"; "hour"; "minute"; "second";
   "milliseconds"; "millisecond"; "microseconds"; "microsecond"].

Definition _calendars : list string :=
  ["standard"; "gregorian"; "proleptic_gregorian";
   "noleap"; "julian"; "all_leap"; "365_day"; "366_day"; "360_day"].

Module Utime.

(** The attributes [__init__] sets.  [tzoffset] is in minutes. *)
Record t : Type := Make {
  calendar : string;
  units : string;
  tzoffset : Q;
  origin : civil;
  _jd0 : Q
}.

(** [utime.__init__], from the triple that [_dateparse] returns for the
    unit string; the calendar name is taken as already in lower case. *)
Definition __init__ (parsed : string * Q * civil) (calendar : string)
  : result t :=
  let '(units, tzoffset, origin) := parsed in
  if negb (mem calendar _calendars) then Raise BadCalendar
  else if negb (mem units _units) then Raise BadUnits
  else if (mem calendar ["noleap"; "365_day"] &&
           (month origin =? 2)%Z && (day origin =? 29)%Z)%bool
  then Raise LeapDayReference
  else if ((calendar =? "360_day") && (30 <? day origin)%Z)%bool
  then Raise Only30Days
  else
    jd0 <- (if mem calendar ["noleap"; "365_day"] then
              Ok (_NoLeapDayFromDate origin)
            else if mem calendar ["all_leap"; "366_day"] then
              Ok (_AllLeapFromDate origin)
            else if calendar =? "360_day" then
              Ok (_360DayFromDate origin)
            else JulianDayFromDate origin calendar) ;;
    Ok (Make calendar units tzoffset origin jd0).

(** Lines 699..735 of [date2num] for a scalar [date]: the day count of
    the date in the calendar of [self]. *)
Definition day_count (self : t) (date : civil) : result Q :=
  if mem (calendar self) ["julian"; "standard"; "gregorian"; "proleptic_gregorian"]
  then JulianDayFromDate date (calendar self)
  else if mem (calendar self) ["noleap"; "365_day"] then
    if ((month date =? 2)%Z && (day date =? 29)%Z)%bool then Raise NoLeapDay
    else Ok (_NoLeapDayFromDate date)
  else if mem (calendar self) ["all_leap"; "366_day"] then
    Ok (_AllLeapFromDate date)
  else if calendar self =? "360_day" then
    if (30 <? day date)%Z then Raise Only30Days
    else Ok (_360DayFromDate date)
  else Raise UnknownCalendar.

(** Lines 739..750: the conversion to the units of [self]. *)
Definition scale (self : t) (jdelta : Q) : Q :=
  if mem (units self) ["microseconds"; "microsecond"] then
    jdelta * 86400 * 1000000 - tzoffset self * 60 * 1000000
  else if mem (units self) ["milliseconds"; "millisecond"] then
    jdelta * 86400 * 1000 - tzoffset self * 60 * 1000
  else if mem (units self) ["second"; "seconds"] then
    jdelta * 86400 - tzoffset self * 60
  else if mem (units self) ["minute"; "minutes"] then
    jdelta * 1440 - tzoffset self
  else if mem (units self) ["hour"; "hours"] then
    jdelta * 24 - tzoffset self / 60
  else if mem (units self) ["day"; "days"] then
    jdelta - tzoffset self / 1440
  else jdelta.

(** [utime.date2num] for a scalar [date]. *)
Definition date2num (self : t) (date : civil) : result Q :=
  jd <- day_count self date ;;
  Ok (scale self (jd - _jd0 self)).

(** Lines 791..802: from the units of [self] to days.  No branch assigns
    [jdelta] for other units, and line 803 fails on it. *)
Definition unscale (self : t) (time_value : Q) : result Q :=
  if mem (units self) ["microseconds"; "microsecond"] then
    Ok (time_value / 86400000000 + tzoffset self / 1440)
  else if mem (units self) ["milliseconds"; "millisecond"] then
    Ok (time_value / 86400000 + tzoffset self / 1440)
  else if mem (units self) ["second"; "seconds"] then
    Ok (time_value / 86400 + tzoffset self / 1440)
  else if mem (units self) ["minute"; "minutes"] then
    Ok (time_value / 1440 + tzoffset self / 1440)
  else if mem (units self) ["hour"; "hours"] then
    Ok (time_value / 24 + tzoffset self / 1440)
  else if mem (units self) ["day"; "days"] then
    Ok (time_value + tzoffset self / 1440)
  else Raise UnboundLocal.

(** [utime.num2date] for a scalar, unmasked [time_value].  No branch
    assigns [date] for another calendar, and the return fails on it. *)
Definition num2date (self : t) (time_value : Q) : result dateobj :=
  jdelta <- unscale self time_value ;;
  let jd := _jd0 self + jdelta in
  if mem (calendar self) ["julian"; "standard"; "gregorian"; "proleptic_gregorian"]
  then DateFromJulianDay jd (calendar self)
  else if mem (calendar self) ["noleap"; "365_day"] then _DateFromNoLeapDay jd
  else if mem (calendar self) ["all_leap"; "366_day"] then _DateFromAllLeap jd
  else if calendar self =? "360_day" then _DateFrom360Day jd
  else Raise UnboundLocal.

End Utime.

(** ** Index resolution *)

(** [a[i]] on a Python sequence: a negative index counts from the end. *)
Definition getitem (a : list Q) (i : Z) : result Q :=
  let N := Z.of_nat (List.length a) in
  let j := if (i <? 0)%Z then (i + N)%Z else i in
  if ((0 <=? j) && (j <? N))%Z%bool
  then match nth_error a (Z.to_nat j) with
       | Some v => Ok v
       | None => Raise IndexError
       end
  else Raise IndexError.

Module Bisect.

(** The loop of [bisect.bisect_right]:
    [while lo < hi: mid = (lo+hi)//2; if x < a[mid]: hi = mid else: lo = mid+1]. *)
Fixpoint right_loop (fuel : nat) (a : list Q) (x : Q) (lo hi : nat) : nat :=
  match fuel with
  | O => lo
  | S fuel' =>
      if (lo <? hi)%nat then
        let mid := ((lo + hi) / 2)%nat in
        if Qltb x (nth mid a 0) then right_loop fuel' a x lo mid
        else right_loop fuel' a x (mid + 1)%nat hi
      else lo
  end.

(** The loop of [bisect.bisect_left]:
    [while lo < hi: mid = (lo+hi)//2; if a[mid] < x: lo = mid+1 else: hi = mid]. *)
Fixpoint left_loop (fuel : nat) (a : list Q) (x : Q) (lo hi : nat) : nat :=
  match fuel with
  | O => lo
  | S fuel' =>
      if (lo <? hi)%nat then
        let mid := ((lo + hi) / 2)%nat in
        if Qltb (nth mid a 0) x then left_loop fuel' a x (mid + 1)%nat hi
        else left_loop fuel' a x lo mid
      else lo
  end.

(** The distance between [lo] and [hi] shrinks in every round, so
    [len(a)] rounds are enough. *)
Definition bisect_right (a : list Q) (x : Q) : Z :=
  Z.of_nat (right_loop (List.length a) a x 0 (List.length a)).

Definition bisect_left (a : list Q) (x : Q) : Z :=
  Z.of_nat (left_loop (List.length a) a x 0 (List.length a)).

End Bisect.

(** [index[mask] = v] and [index[mask] -= 1] with a boolean mask. *)
Definition assign_where (index : list Z) (mask : list bool) (v : Z) : list Z :=
  map (fun p : Z * bool => if snd p then v else fst p) (combine index mask).

Definition decrement_where (index : list Z) (mask : list bool) : list Z :=
  map (fun p : Z * bool => if snd p then (fst p - 1)%Z else fst p)
      (combine index mask).

Definition any (mask : list bool) : bool := existsb (fun b => b) mask.
Definition all (mask : list bool) : bool := forallb (fun b => b) mask.

Definition map2 {A B C : Type} (f : A -> B -> C) (l : list A) (r : list B)
  : list C :=
  map (fun p : A * B => f (fst p) (snd p)) (combine l r).

(** Lines 1024..1035 of [time2index]: the index guessed from the first
    time and the stride. *)
(** [(num - t0) / dt] on floats: the difference is rounded, then the
    quotient. *)
Definition quotient64 (t0 dt n : Q) : Q := fl (fl (n - t0) / dt).

Definition guess_index (num nctime : list Q) (select : string)
  : result (list Z) :=
  t0dt <- (match nctime with
           | t0 :: t1 :: _ => Ok (t0, fl (t1 - t0))
           | [t0] => Ok (t0, 1)
           | [] => Raise IndexError
           end) ;;
  let '(t0, dt) := t0dt in
  if mem select ["exact"; "before"] then
    Ok (map (fun n => trunc (quotient64 t0 dt n)) num)
  else if select =? "after" then
    Ok (map (fun n => ceil (quotient64 t0 dt n)) num)
  else
    Ok (map (fun n => around (quotient64 t0 dt n)) num).

(** [_check_index].  The calendar argument is not used by the code. *)
Definition _check_index (indices : list Z) (times nctime : list Q)
  (select : string) : bool :=
  let N := Z.of_nat (List.length nctime) in
  if any (map (fun i => (i <? 0)%Z) indices) then false
  else if any (map (fun i => (N <=? i)%Z) indices) then false
  else
    let at_ := fun i => nth (Z.to_nat i) nctime 0 in
    let t := map at_ indices in
    let ta := map (fun i => at_ (clipZ (i + 1) 0 (N - 1))) indices in
    let tb := map (fun i => at_ (clipZ (i - 1) 0 (N - 1))) indices in
    if select =? "exact" then all (map2 Qeqb t times)
    else if select =? "before" then
      all (map2 Qleb t times) && all (map2 (fun a q => Qltb q a) ta times)
    else if select =? "after" then
      all (map2 (fun v q => Qleb q v) t times) && all (map2 Qltb tb times)
    else if select =? "nearest" then
      let delta_after := map2 (fun a b => fl (a - b)) ta t in
      let delta_before := map2 (fun a b => fl (a - b)) t tb in
      let delta_check := map2 (fun q v => Qabs (fl (q - v))) times t in
      all (map2 Qleb delta_check delta_after) &&
      all (map2 Qleb delta_check delta_before)
    else false.

(** Lines 1042..1087 of [time2index]: the bisection method.  [mismatch]
    is kept as a mask over the queries rather than as their positions. *)
Definition bisection (num nctime : list Q) (select : string)
  : result (list Z) :=
  let N := Z.of_nat (List.length nctime) in
  let index := map (Bisect.bisect_right nctime) num in
  let before := map (fun i => (i =? 0)%Z) index in
  let index := map (Bisect.bisect_left nctime) num in
  let after := map (fun i => (i =? N)%Z) index in
  if (mem select ["before"; "exact"] && any before)%bool
  then Raise BeforeFirstTime
  else if (mem select ["after"; "exact"] && any after)%bool
  then Raise AfterLastTime
  else
    let index := assign_where index after (N - 1) in
    ncnum <- mapM (getitem nctime) index ;;
    let mismatch := map2 (fun v n => negb (Qeqb v n)) ncnum num in
    index <- (if select =? "exact" then
                if any mismatch then Raise TimesNotFound else Ok index
              else if select =? "before" then
                Ok (decrement_where (assign_where index after N) mismatch)
              else if select =? "after" then Ok index
              else if select =? "nearest" then
                mapM (fun p : Z * Q * bool =>
                        let '(i, n, m) := p in
                        if (m : bool) then
                          prev <- getitem nctime (i - 1) ;;
                          cur <- getitem nctime i ;;
                          let nearest_to_left := Qltb n (midpoint64 prev cur) in
                          Ok (if nearest_to_left then (i - 1)%Z else i)
                        else Ok i)
                     (combine (combine index num) mismatch)
              else Raise BadSelect) ;;
    Ok (assign_where index before 0).

(** What [_toscalar] returns: a Python int for a single index, the array
    otherwise. *)
Inductive indices : Type :=
| Scalar (i : Z)
| Array (l : list Z).

Definition _toscalar (a : list Z) : indices :=
  match a with
  | [i] => Scalar i
  | _ => Array a
  end.

(** [time2index] on a sequence of times. *)
Definition time2index (times nctime : list Q) (select : string)
  : result indices :=
  let num := times in
  index <- guess_index num nctime select ;;
  index <- (if negb (_check_index index times nctime select)
            then bisection num nctime select
            else Ok index) ;;
  Ok (_toscalar index).

(** [DateFromJulianDay(JulianDayFromDate(d, calendar), calendar)] *)
Definition round_trip (d : civil) (calendar : string) : result dateobj :=
  jd <- JulianDayFromDate d calendar ;;
  DateFromJulianDay jd calendar.

(** ** Orderings and ranges used in the statements *)

(** Civil ordering: year, then month, day, hour, minute, second and
    microsecond. *)
Fixpoint lex_lt (a b : list Z) : Prop :=
  match a, b with
  | x :: a', y :: b' => (x < y)%Z \/ (x = y /\ lex_lt a' b')
  | _, _ => False
  end.

Definition key (d : civil) : list Z :=
  [year d; month d; day d; hour d; minute d; second d; microsecond d].

Definition earlier (d1 d2 : civil) : Prop := lex_lt (key d1) (key d2).

(** The ranges of the fields of a date object; the day is at most 31 in
    every month. *)
Definition in_range (d : civil) : Prop :=
  (1 <= month d <= 12 /\ 1 <= day d <= 31 /\ 0 <= hour d <= 23 /\
   0 <= minute d <= 59 /\ 0 <= second d <= 59 /\
   0 <= microsecond d <= 999999)%Z.

(** The integer chosen for a quotient [x] in the guess of [time2index]:
    towards zero, upwards, or to the nearest integer with a tie going to
    the even one. *)
Definition toward_zero (x : Q) (n : Z) : Prop :=
  (0 <= x -> n = Qfloor x) /\ (x <= 0 -> n = Qceiling x).

Definition nearest_even (x : Q) (n : Z) : Prop :=
  Qabs (x - inject_Z n) <= 1 # 2 /\
  (Qabs (x - inject_Z n) == 1 # 2 -> Z.even n = true).

Definition guess_rule (select : string) (x : Q) (n : Z) : Prop :=
  if mem select ["exact"; "before"] then toward_zero x n
  else if select =? "after" then n = Qceiling x
  else nearest_even x n.

(** The stride of a series that starts with [t0]: the difference of the
    first two values as a float, and 1 when there is only one. *)
Definition stride (t0 : Q) (rest : list Q) : Q :=
  match rest with
  | [] => 1
  | t1 :: _ => fl (t1 - t0)
  end.

(** The exact difference the stride is rounded from. *)
Definition exact_stride (t0 : Q) (rest : list Q) : Q :=
  match rest with
  | [] => 1
  | t1 :: _ => t1 - t0
  end.

(** A float that [numpy.array(x, int)] can convert: beyond the 64-bit
    integers the result of the conversion is not defined. *)
Definition fits_int64 (x : Q) : Prop := Qabs x < inject_Z (2 ^ 63).

(** Days to the units of a unit string, singular or plural. *)
Definition unit_factor (u : string) : Q :=
  if mem u ["days"; "day"] then 1
  else if mem u ["hours"; "hour"] then 24
  else if mem u ["minutes"; "minute"] then 1440
  else if mem u ["seconds"; "second"] then 86400
  else if mem u ["milliseconds"; "millisecond"] then 86400000
  else if mem u ["microseconds"; "microsecond"] then 86400000000
  else 0.

(** The gap of the mixed calendar as the code has it: from 1582-10-05
    00:00:00 on, and before 1582-10-15 00:00:00. *)
Definition in_gap (d : civil) : Prop :=
  ~ earlier d (Civil 1582 10 5 0 0 0 0) /\ earlier d (Civil 1582 10 15 0 0 0 0).

(** The whole days of the uncorrected day count of line 91, its one half
    left out. *)
Definition day_number (d : civil) : Z :=
  (365 * Meeus.shift_year d + Z.quot (Meeus.shift_year d + 8000) 4
   + Z.quot (306001 * (Meeus.shift_month d + 1)) 10000 + day d + 1718994)%Z.

(** The time of day as a fraction of a day. *)
Definition time_of_day (d : civil) : Q := fractional_day d - inject_Z (day d).

(** A [utime] for 'hours since 2000-01-01 00:00:00 +01:00'. *)
Definition hours_since_2000 : Utime.t :=
  Eval vm_compute in
    match Utime.__init__ ("hours", 60, Civil 2000 1 1 0 0 0 0) "standard" with
    | Ok u => u
    | Raise _ => Utime.Make "" "" 0 (Civil 0 0 0 0 0 0 0) 0
    end.

(** Strictly between the two dates the gap is named after. *)
Definition strictly_inside_gap (d : civil) : Prop :=
  earlier (Civil 1582 10 5 0 0 0 0) d /\ earlier d (Civil 1582 10 15 0 0 0 0).

(** [a[i]] where it does not raise: for [-len(a) <= i < len(a)]. *)
Definition item (a : list Q) (i : Z) : Q :=
  nth (Z.to_nat (if (i <? 0)%Z then (i + Z.of_nat (List.length a))%Z else i)) a 0.

(** The index the bisection method starts from for one query: the left
    insertion point, or the last index when that is the length. *)
Definition candidate (nctime : list Q) (q : Q) : Z :=
  let N := Z.of_nat (List.length nctime) in
  let left := Bisect.bisect_left nctime q in
  if (left =? N)%Z then (N - 1)%Z else left.

(** The index the bisection method settles on for one query, the checks
    over the whole batch left aside. *)
Definition settle (nctime : list Q) (select : string) (q : Q) : Z :=
  let N := Z.of_nat (List.length nctime) in
  let i := candidate nctime q in
  let mismatch := negb (Qeqb (item nctime i) q) in
  let r :=
    if select =? "before" then
      let j := if (Bisect.bisect_left nctime q =? N)%Z then N else i in
      if mismatch then (j - 1)%Z else j
    else if select =? "nearest" then
      if mismatch then
        if Qltb q (midpoint64 (item nctime (i - 1)) (item nctime i))
        then (i - 1)%Z else i
      else i
    else i in
  if (Bisect.bisect_right nctime q =? 0)%Z then 0%Z else r.

(** A series in ascending order. *)
Definition ascending (a : list Q) : Prop :=
  forall j k, (j <= k < List.length a)%nat -> nth j a 0 <= nth k a 0.

(** The choice of 'nearest' for a query [q] that got the index [r],
    where the candidate [i] is no exact match.  With a left neighbour: the
    left neighbour if [q] is below the midpoint of the two values as the
    code computes it in binary64, the candidate if not, and so at the
    computed midpoint itself.  With the left insertion point at the start
    of an ascending series: index 0. *)
Definition nearest_rule (nctime : list Q) (q : Q) (r : Z) : Prop :=
  let i := candidate nctime q in
  forall v,
    getitem nctime i = Ok v ->
    ~ v == q ->
    (forall v_prev,
        (0 < i)%Z ->
        getitem nctime (i - 1) = Ok v_prev ->
        finite64 (v_prev + v) ->
        (q < midpoint64 v_prev v -> r = (i - 1)%Z) /\
        (~ q < midpoint64 v_prev v -> r = i) /\
        (q == midpoint64 v_prev v -> r = i)) /\
    (Bisect.bisect_left nctime q = 0%Z -> ascending nctime -> r = 0%Z).

(** ** Dates that exist in a calendar *)

(** The length of a month, given the length of February. *)
Definition month_length (feb m : Z) : Z :=
  if (m =? 2)%Z then feb
  else if ((m =? 4) || (m =? 6) || (m =? 9) || (m =? 11))%Z%bool then 30%Z
  else 31%Z.

Definition julian_leap (y : Z) : bool := (y mod 4 =? 0)%Z.

(** The length of February in a year of a calendar; the mixed calendar
    follows the Julian rule up to 1582 and the Gregorian rule after it. *)
Definition february (calendar : string) (y : Z) : Z :=
  if mem calendar ["noleap"; "365_day"] then 28%Z
  else if mem calendar ["all_leap"; "366_day"] then 29%Z
  else if calendar =? "julian" then (if julian_leap y then 29 else 28)%Z
  else if calendar =? "proleptic_gregorian" then
    (if gregorian_leap y then 29 else 28)%Z
  else if (y <=? 1582)%Z then (if julian_leap y then 29 else 28)%Z
  else (if gregorian_leap y then 29 else 28)%Z.

(** A date of a calendar: its fields are in range, its day exists in its
    month, and in the mixed calendar it is outside the gap. *)
Definition valid_date (calendar : string) (d : civil) : Prop :=
  in_range d /\
  (day d <= (if String.eqb calendar "360_day" then 30
             else month_length (february calendar (year d)) (month d)))%Z /\
  (mem calendar ["standard"; "gregorian"] = true -> ~ in_gap d).

(** The parts of the whole days of a day count: the start of the year that
    begins in March, with and without the correction of the Gregorian
    calendar, and the offset of a month in that year. *)
Definition year_start_julian (c : Z) : Z := (365 * c + Z.quot (c + 8000) 4)%Z.

Definition century_correction (c : Z) : Z :=
  (2 - Z.quot c 100 + Z.quot (Z.quot c 100) 4)%Z.

Definition year_start_gregorian (c : Z) : Z :=
  (year_start_julian c + century_correction c)%Z.

Definition month_offset (m : Z) : Z := Z.quot (306001 * (m + 1)) 10000.

(** The time of day in microseconds. *)
Definition micros (d : civil) : Z :=
  (hour d * 3600000000 + minute d * 60000000 + second d * 1000000
   + microsecond d)%Z.

(** The whole days of the day count of a date in a calendar, and the
    constant the calendar adds to them and to the time of day. *)
Definition whole_days (calendar : string) (d : civil) : Z :=
  if mem calendar ["noleap"; "365_day"] then
    (365 * (Meeus.shift_year d + 4716) + month_offset (Meeus.shift_month d)
     + day d)%Z
  else if mem calendar ["all_leap"; "366_day"] then
    (366 * (Meeus.shift_year d + 4716) + month_offset (Meeus.shift_month d)
     + day d)%Z
  else if calendar =? "360_day" then
    (360 * (year d + 4716) + 30 * (month d - 1) + day d)%Z
  else if calendar =? "julian" then day_number d
  else if calendar =? "proleptic_gregorian" then
    (day_number d + century_correction (Meeus.shift_year d))%Z
  else if (day_number d <? 2299160)%Z then day_number d
  else (day_number d + century_correction (Meeus.shift_year d))%Z.

Definition calendar_offset (calendar : string) : Q :=
  if mem calendar ["noleap"; "365_day"; "all_leap"; "366_day"] then - (15245 # 10)
  else if calendar =? "360_day" then 0
  else 1 # 2.

(** The order of the dates, the time of day left aside. *)
Definition date_lt (d1 d2 : civil) : Prop :=
  lex_lt [year d1; month d1; day d1] [year d2; month d2; day d2].

Definition same_date (d1 d2 : civil) : Prop :=
  year d1 = year d2 /\ month d1 = month d2 /\ day d1 = day d2.

(** The shape [_NoLeapDayFromDate] and [_AllLeapFromDate] share, with the
    length of the year as a parameter. *)
Definition fixed_day_count (ylen : Z) (d : civil) : Q :=
  inject_Z (trunc (inject_Z ylen * inject_Z (Meeus.shift_year d + 4716)))
  + inject_Z (trunc ((306001 # 10000) * inject_Z (Meeus.shift_month d + 1)))
  + fractional_day d - (15245 # 10).

(** The indices in what [time2index] returns. *)
Definition to_list (r : indices) : list Z :=
  match r with
  | Scalar i => [i]
  | Array l => l
  end.

(** A series whose midpoints the code computes without rounding error
    and without overflow, as it does for a series of whole numbers. *)
Definition exact_midpoints (a : list Q) : Prop :=
  forall x y, In x a -> In y a ->
              finite64 (x + y) /\ midpoint64 x y == (x + y) / 2.

(** A date at 00:00:00. *)
Definition midnight (d : civil) : Prop :=
  hour d = 0%Z /\ minute d = 0%Z /\ second d = 0%Z /\ microsecond d = 0%Z.

(** Fields that fit the [np.int32] arrays [JulianDayFromDate] stores them
    in. *)
Definition int32 (n : Z) : Prop := (- 2 ^ 31 <= n < 2 ^ 31)%Z.

Definition int32_fields (d : civil) : Prop :=
  int32 (year d) /\ int32 (month d) /\ int32 (day d) /\ int32 (hour d) /\
  int32 (minute d) /\ int32 (second d) /\ int32 (microsecond d).

(** The day counts the inverse conversions are stated for: up to 10^9,
    where the [np.int32] conversions of [DateFromJulianDay] are in range
    and a binary64 day count resolves about a hundredth of a second. *)
Definition max_day_count : Q := 1000000000.

(** A series in strictly ascending order. *)
Definition strictly_ascending (a : list Q) : Prop :=
  forall j k, (j < k < List.length a)%nat -> nth j a 0 < nth k a 0.

(** A date object whose fields are in range; one of the module's own class
    has its day of the week in 0..6 and its day of the year in 1..366. *)
Definition well_formed (o : dateobj) : Prop :=
  in_range (fields o) /\
  match o with
  | Real _ => True
  | Phony _ dayofwk dayofyr => (0 <= dayofwk <= 6)%Z /\ (1 <= dayofyr <= 366)%Z
  end.

(** * Properties *)

(** ** Truncation and rounding *)

(** [lra] over [Q] knows no division: a division by a constant becomes a
    multiplication by its inverse. *)
Ltac div_consts :=
  unfold Qdiv in *;
  repeat match goal with
    | |- context [ / (Zpos ?p # ?q) ] =>
        change (/ (Zpos p # q)) with (Zpos q # p)
    | H : context [ / (Zpos ?p # ?q) ] |- _ =>
        change (/ (Zpos p # q)) with (Zpos q # p) in H
    end.

Lemma trunc_floor (x : Q) : 0 <= x -> trunc x = Qfloor x.
Proof.
  destruct x as [n d]. unfold Qle, trunc, Qfloor. simpl. intros H.
  apply Z.quot_div_nonneg; lia.
Qed.

Lemma trunc_ceiling (x : Q) : x <= 0 -> trunc x = Qceiling x.
Proof.
  destruct x as [n d]. unfold Qle, trunc, Qceiling, Qfloor. simpl. intros H.
  rewrite <- (Z.opp_involutive n) at 1.
  rewrite Z.quot_opp_l by lia.
  rewrite Z.quot_div_nonneg by lia. reflexivity.
Qed.

Lemma trunc_comp (x y : Q) : x == y -> trunc x = trunc y.
Proof.
  intros E. destruct (Qlt_le_dec x 0) as [L | L].
  - rewrite (trunc_ceiling x), (trunc_ceiling y) by (rewrite <- ?E; lra).
    unfold Qceiling. now rewrite E.
  - rewrite (trunc_floor x), (trunc_floor y) by (rewrite <- ?E; lra).
    now rewrite E.
Qed.

Lemma trunc_inject_Z (n : Z) : trunc (inject_Z n) = n.
Proof. unfold trunc. simpl. apply Z.quot_1_r. Qed.

(** [trunc] of a fraction with a positive denominator is the truncating
    integer division. *)
Lemma trunc_frac (x : Q) (n : Z) (d : positive) :
  x == n # d -> trunc x = Z.quot n (Zpos d).
Proof. intros E. rewrite (trunc_comp _ _ E). reflexivity. Qed.

(** [around] returns a nearest integer, and the even one at a tie. *)
Lemma around_nearest (x : Q) :
  Qabs (x - inject_Z (around x)) <= 1 # 2 /\
  (Qabs (x - inject_Z (around x)) == 1 # 2 -> Z.even (around x) = true).
Proof.
  unfold around.
  pose proof (Qfloor_le x) as Hlo. pose proof (Qlt_floor x) as Hhi.
  rewrite inject_Z_plus in Hhi. change (inject_Z 1) with 1 in Hhi.
  set (f := Qfloor x) in *.
  destruct (Qcompare (x - inject_Z f) (1 # 2)) eqn:C.
  - apply Qeq_alt in C.
    destruct (Z.even f) eqn:Ev.
    + split; [|intros _; exact Ev].
      rewrite Qabs_pos by lra. lra.
    + split.
      * rewrite inject_Z_plus. change (inject_Z 1) with 1.
        rewrite Qabs_neg by lra. lra.
      * intros _. rewrite Z.even_add, Ev. reflexivity.
  - apply Qlt_alt in C. split.
    + rewrite Qabs_pos by lra. lra.
    + rewrite Qabs_pos by lra. lra.
  - apply Qgt_alt in C. rewrite inject_Z_plus. change (inject_Z 1) with 1.
    split.
    + rewrite Qabs_neg by lra. lra.
    + rewrite Qabs_neg by lra. lra.
Qed.

(** ** The Julian Day epoch *)

(** C2.  [JulianDayFromDate] of 2000-01-01 12:00:00 in the
    proleptic Gregorian calendar is 2451545.0. *)
Theorem anchor_2000_01_01_noon :
  exists jd,
    JulianDayFromDate (Civil 2000 1 1 12 0 0 0) "proleptic_gregorian" = Ok jd /\
    jd == 2451545.
Proof. eexists. split; [reflexivity | vm_compute; reflexivity]. Qed.

(** ** Round trip *)

(** C1.  The round trip loses almost a day for a time in the last
    4.32 seconds of a day: 2000-01-01 23:59:58 in the proleptic Gregorian
    calendar comes back as 2000-01-01 00:00:00.  Line 245 rounds the day
    count up to the next day, which leaves the fraction [F] negative; the
    day [2 + F] is then truncated to 1, and hour, minute and second are
    clipped to 0. *)
Theorem round_trip_end_of_day :
  round_trip (Civil 2000 1 1 23 59 58 0) "proleptic_gregorian"
  = Ok (Real (Civil 2000 1 1 0 0 0 0)).
Proof. vm_compute. reflexivity. Qed.

(** ** Kind of the returned date object *)

(** C4.  With the calendar name 'gregorian' the day count 2000000.0
    (763-09-14 12:00, before the cutover at 2299160.5) gives a real
    [datetime.datetime], where the name 'standard' gives the module's own
    datetime: 'gregorian' occurs in 'proleptic_gregorian', so the test of
    line 337 holds for it. *)
Theorem gregorian_before_cutover_is_real :
  2000000 < 22991605 # 10 /\
  DateFromJulianDay 2000000 "gregorian"
  = Ok (Real (Civil 763 9 14 12 0 0 0)) /\
  DateFromJulianDay 2000000 "standard"
  = Ok (Phony (Civil 763 9 14 12 0 0 0) 3 257).
Proof. repeat split; vm_compute; reflexivity. Qed.

(** ** Monotonicity *)

(** C6.  In the proleptic Gregorian calendar the two consecutive
    days -99-02-28 and -99-03-01 have the same day count 1684959.5.
    [A = np.int64(year / 100)] truncates towards zero, so the century
    changes between the years -100 and -99 and not between -101 and -100;
    the correction [B] then drops by one on 1 March of -99, a year whose
    February has 28 days. *)
Theorem proleptic_day_count_repeats :
  earlier (Civil (-99) 2 28 0 0 0 0) (Civil (-99) 3 1 0 0 0 0) /\
  exists jd1 jd2,
    JulianDayFromDate (Civil (-99) 2 28 0 0 0 0) "proleptic_gregorian" = Ok jd1 /\
    JulianDayFromDate (Civil (-99) 3 1 0 0 0 0) "proleptic_gregorian" = Ok jd2 /\
    jd1 == 16849595 # 10 /\ jd2 == 16849595 # 10.
Proof.
  split.
  - unfold earlier; simpl. right. split; [reflexivity|]. left. reflexivity.
  - do 2 eexists. repeat split; vm_compute; reflexivity.
Qed.

(** ** The guessed index *)

Lemma Forall2_map_r {A B : Type} (R : A -> B -> Prop) (f : A -> B) (l : list A) :
  (forall a, R a (f a)) -> Forall2 R l (map f l).
Proof. intros H. induction l; simpl; constructor; auto. Qed.

(** The guess for Exact and Before is not the floor of the quotient: a
    query below the first time of the series [0, 6] is guessed at index 0,
    where the floor of -1/6 is -1. *)
Lemma guess_index_is_not_floor :
  guess_index [-1] [0; 6] "before" <> Ok [Qfloor ((-1 - 0) / (6 - 0))].
Proof. vm_compute. discriminate. Qed.

(** C5.  For a series that starts with [t0] and has stride [dt], the
    guessed index of a query [q] is the quotient [(q - t0) / dt] as the
    code computes it in binary64 (the difference rounded, then the quotient
    rounded), truncated towards zero for 'exact' and 'before' (its floor
    when the quotient is not negative, its ceiling when it is not
    positive), its ceiling for 'after', and the nearest integer, the even
    one at a tie, otherwise.  The stride is not 0, since the code divides
    by it; no operation overflows, and the quotient is within the 64-bit
    integers, since the code converts it to one. *)
Theorem guess_index_rule (num : list Q) (t0 : Q) (rest : list Q) (select : string) :
  finite64 (exact_stride t0 rest) ->
  ~ stride t0 rest == 0 ->
  (forall q, In q num ->
             finite64 (q - t0) /\
             fits_int64 (quotient64 t0 (stride t0 rest) q)) ->
  exists index,
    guess_index num (t0 :: rest) select = Ok index /\
    Forall2 (fun q i => guess_rule select (quotient64 t0 (stride t0 rest) q) i)
            num index.
Proof.
  intros _ _ _. unfold guess_index, guess_rule.
  assert (E : (match t0 :: rest with
               | t0 :: t1 :: _ => Ok (t0, fl (t1 - t0))
               | [t0] => Ok (t0, 1)
               | [] => Raise IndexError
               end) = Ok (t0, stride t0 rest)) by (destruct rest; reflexivity).
  rewrite E. cbn [bind].
  destruct (mem select ["exact"; "before"]).
  - eexists. split; [reflexivity|]. apply Forall2_map_r. intros q. split.
    + apply trunc_floor.
    + apply trunc_ceiling.
  - destruct (select =? "after").
    + eexists. split; [reflexivity|]. apply Forall2_map_r. reflexivity.
    + eexists. split; [reflexivity|]. apply Forall2_map_r. intros q.
      apply around_nearest.
Qed.

Lemma guess_index_rule_witness :
  exists index,
    guess_index [13; -1] [0; 6; 12; 18; 24] "before" = Ok index /\
    Forall2 (fun q i =>
               guess_rule "before" (quotient64 0 (stride 0 [6; 12; 18; 24]) q) i)
            [13; -1] index.
Proof.
  apply (guess_index_rule [13; -1] 0 [6; 12; 18; 24] "before").
  - vm_compute. discriminate.
  - vm_compute. discriminate.
  - intros q [<- | [<- | []]]; split;
      solve [vm_compute; discriminate | vm_compute; reflexivity].
Defined.

(** The quotient is the binary64 one: for the stride 0.1 as a float and
    the query 100 the exact quotient is below 1000, the computed one is
    1000, and the guess is 1000. *)
Example guess_index_rounds_the_quotient :
  (100 - 0) / fl (1 # 10) < 1000 /\
  guess_index [100] [0; fl (1 # 10)] "exact" = Ok [1000%Z].
Proof. split; vm_compute; reflexivity. Qed.

(** ** Unit scaling *)

Lemma mem_cases (x : string) (l : list string) :
  mem x l = true -> In x l.
Proof.
  unfold mem. rewrite existsb_exists. intros [y [Hy E]].
  apply String.eqb_eq in E. now subst.
Qed.

(** One goal for every member of a list given in full. *)
Ltac each_member H :=
  cbn [In] in H;
  repeat (destruct H as [<- | H]); [.. | destruct H].

(** The origin of a [utime] passes the checks of [date2num], and its day
    count is the stored [_jd0]. *)
Lemma init_origin (parsed : string * Q * civil) (calendar : string) (self : Utime.t) :
  Utime.__init__ parsed calendar = Ok self ->
  mem (Utime.units self) _units = true /\
  Utime.day_count self (Utime.origin self) = Ok (Utime._jd0 self).
Proof.
  destruct parsed as [[u tz] o]. unfold Utime.__init__.
  destruct (mem calendar _calendars) eqn:Hc; cbn [negb]; [|discriminate].
  destruct (mem u _units) eqn:Hu; cbn [negb]; [|discriminate].
  destruct (mem calendar ["noleap"; "365_day"]) eqn:Hn; cbn [andb].
  - destruct ((month o =? 2)%Z && (day o =? 29)%Z)%bool eqn:Hl; [discriminate|].
    destruct ((calendar =? "360_day") && (30 <? day o)%Z)%bool; [discriminate|].
    cbn [bind]. intros H; injection H as <-. cbn. split; [exact Hu|].
    unfold Utime.day_count; cbn.
    apply mem_cases in Hn.
    each_member Hn; cbn; rewrite Hl; reflexivity.
  - destruct ((calendar =? "360_day") && (30 <? day o)%Z)%bool eqn:H3; [discriminate|].
    destruct (mem calendar ["all_leap"; "366_day"]) eqn:Ha.
    + cbn [bind]. intros H; injection H as <-. cbn. split; [exact Hu|].
      unfold Utime.day_count; cbn.
      apply mem_cases in Ha.
      each_member Ha; reflexivity.
    + destruct (calendar =? "360_day") eqn:H6.
      * cbn [bind]. intros H; injection H as <-. cbn. split; [exact Hu|].
        unfold Utime.day_count; cbn.
        apply String.eqb_eq in H6. subst calendar. cbn in *.
        rewrite H3. reflexivity.
      * destruct (JulianDayFromDate o calendar) as [jd0|e] eqn:HJ;
          cbn [bind]; [|discriminate].
        intros H; injection H as <-. cbn. split; [exact Hu|].
        unfold Utime.day_count; cbn.
        apply mem_cases in Hc. cbn in Hc.
        each_member Hc; cbn in *; try discriminate; exact HJ.
Qed.

(** C7.  For a [utime] built by [__init__] and a date its calendar
    accepts, [date2num] is the day count of the date minus the day count
    of the origin, times the factor of the units, minus the offset from
    UTC in minutes converted to the same units. *)
Theorem date2num_scaling
  (parsed : string * Q * civil) (calendar : string) (self : Utime.t)
  (date : civil) (jd : Q) :
  Utime.__init__ parsed calendar = Ok self ->
  Utime.day_count self date = Ok jd ->
  exists jd0 x,
    Utime.day_count self (Utime.origin self) = Ok jd0 /\
    Utime.date2num self date = Ok x /\
    x == (jd - jd0) * unit_factor (Utime.units self)
         - Utime.tzoffset self * (unit_factor (Utime.units self) / 1440).
Proof.
  intros Hi Hd. destruct (init_origin _ _ _ Hi) as [Hu Ho].
  exists (Utime._jd0 self). eexists. split; [exact Ho|].
  unfold Utime.date2num. rewrite Hd. cbn [bind]. split; [reflexivity|].
  unfold Utime.scale, unit_factor.
  apply mem_cases in Hu. cbn in Hu.
  each_member Hu;
    cbn [mem existsb String.eqb Ascii.eqb Bool.eqb orb]; field.
Qed.

Lemma date2num_scaling_witness :
  exists jd0 x,
    Utime.day_count hours_since_2000 (Utime.origin hours_since_2000) = Ok jd0 /\
    Utime.date2num hours_since_2000 (Civil 2000 1 2 6 0 0 0) = Ok x /\
    x == (Meeus.jd_uncorrected (Civil 2000 1 2 6 0 0 0)
          + Meeus.gregorian_B (Civil 2000 1 2 6 0 0 0) - jd0)
         * unit_factor (Utime.units hours_since_2000)
         - Utime.tzoffset hours_since_2000
           * (unit_factor (Utime.units hours_since_2000) / 1440).
Proof.
  apply (date2num_scaling ("hours", 60, Civil 2000 1 1 0 0 0 0) "standard"
           hours_since_2000 (Civil 2000 1 2 6 0 0 0)).
  - vm_compute. reflexivity.
  - reflexivity.
Defined.

(** ** The gap of the mixed calendar *)

Lemma trunc_scale (a : Z) (b : positive) (n : Z) :
  trunc ((a # b) * inject_Z n) = Z.quot (a * n) (Zpos b).
Proof. apply trunc_frac. unfold Qeq; simpl. rewrite Pos.mul_1_r. ring. Qed.

Lemma trunc_quarter (y : Z) :
  trunc ((1 # 4) * inject_Z y + 2000) = Z.quot (y + 8000) 4.
Proof.
  apply trunc_frac. unfold Qeq, Qplus, Qmult, inject_Z. cbn [Qnum Qden]. lia.
Qed.

Lemma jd_uncorrected_split (d : civil) :
  Meeus.jd_uncorrected d == inject_Z (day_number d) + time_of_day d + (1 # 2).
Proof.
  unfold Meeus.jd_uncorrected, day_number, time_of_day.
  rewrite trunc_quarter, trunc_scale.
  rewrite !inject_Z_plus, inject_Z_mult.
  change (inject_Z 365) with 365. change (inject_Z 1718994) with 1718994.
  div_consts. lra.
Qed.

Lemma inject_Z_bounds (n lo hi : Z) :
  (lo <= n <= hi)%Z -> inject_Z lo <= inject_Z n <= inject_Z hi.
Proof. intros [H1 H2]. split; rewrite <- Zle_Qle; assumption. Qed.

Lemma time_of_day_range (d : civil) :
  in_range d -> 0 <= time_of_day d < 1.
Proof.
  intros (_ & _ & Hh & Hm & Hs & Hu).
  apply inject_Z_bounds in Hh, Hm, Hs, Hu.
  unfold time_of_day, fractional_day.
  change (inject_Z 0) with 0 in *. change (inject_Z 23) with 23 in *.
  change (inject_Z 59) with 59 in *. change (inject_Z 999999) with 999999 in *.
  div_consts. split; lra.
Qed.

Lemma mixed_single (d : civil) (calendar : string) :
  mem calendar ["standard"; "gregorian"] = true ->
  JulianDayFromDate d calendar =
  if Qleb (22991705 # 10) (Meeus.jd_uncorrected d)
  then Ok (Meeus.jd_uncorrected d + Meeus.gregorian_B d)
  else if Qltb (Meeus.jd_uncorrected d) (22991605 # 10)
       then Ok (Meeus.jd_uncorrected d + 0)
       else Raise ImpossibleDate.
Proof.
  intros H. unfold JulianDayFromDate, JulianDayFromDate_array. rewrite H.
  cbn [map minimum maximum fold_left bind].
  destruct (Qleb _ _); [reflexivity|].
  cbn [bind]. destruct (Qltb _ _); reflexivity.
Qed.

Lemma Qltb_lt (a b : Q) : Qltb a b = true <-> a < b.
Proof.
  unfold Qltb. destruct (Qlt_le_dec a b); split; intros; try easy; lra.
Qed.

Lemma Qleb_le (a b : Q) : Qleb a b = true <-> a <= b.
Proof. apply Qle_bool_iff. Qed.

Lemma at_or_after_cutover (d : civil) :
  in_range d ->
  Qleb (22991705 # 10) (Meeus.jd_uncorrected d) = true <->
  (2299170 <= day_number d)%Z.
Proof.
  intros R. apply time_of_day_range in R.
  rewrite Qleb_le, jd_uncorrected_split. split; intros H.
  - assert (L : inject_Z 2299169 < inject_Z (day_number d))
      by (change (inject_Z 2299169) with 2299169; lra).
    rewrite <- Zlt_Qlt in L. lia.
  - rewrite Zle_Qle in H. change (inject_Z 2299170) with 2299170 in H. lra.
Qed.

Lemma before_gap (d : civil) :
  in_range d ->
  Qltb (Meeus.jd_uncorrected d) (22991605 # 10) = true <->
  (day_number d < 2299160)%Z.
Proof.
  intros R. apply time_of_day_range in R.
  rewrite Qltb_lt, jd_uncorrected_split. split; intros H.
  - assert (L : inject_Z (day_number d) < inject_Z 2299160)
      by (change (inject_Z 2299160) with 2299160; lra).
    rewrite <- Zlt_Qlt in L. exact L.
  - assert (L : (day_number d <= 2299159)%Z) by lia.
    rewrite Zle_Qle in L. change (inject_Z 2299159) with 2299159 in L. lra.
Qed.

(** The whole days of the count against the two ends of the gap. *)
Lemma day_number_before_gap (d : civil) :
  in_range d ->
  (day_number d < 2299160)%Z <-> earlier d (Civil 1582 10 5 0 0 0 0).
Proof.
  unfold in_range, day_number, earlier, key, lex_lt,
    Meeus.shift_year, Meeus.shift_month. cbn [year month day hour minute second microsecond].
  intros R. destruct (Z.ltb_spec (month d) 3);
    Z.quot_rem_to_equations; lia.
Qed.

Lemma day_number_in_or_before_gap (d : civil) :
  in_range d ->
  (day_number d < 2299170)%Z <-> earlier d (Civil 1582 10 15 0 0 0 0).
Proof.
  unfold in_range, day_number, earlier, key, lex_lt,
    Meeus.shift_year, Meeus.shift_month. cbn [year month day hour minute second microsecond].
  intros R. destruct (Z.ltb_spec (month d) 3);
    Z.quot_rem_to_equations; lia.
Qed.


(** ** Lists of queries *)

Lemma any_map {A : Type} (g : A -> bool) (l : list A) :
  any (map g l) = existsb g l.
Proof. induction l; simpl; [reflexivity|]. now rewrite <- IHl. Qed.

Lemma assign_where_map {A : Type} (f : A -> Z) (g : A -> bool) (v : Z) (l : list A) :
  assign_where (map f l) (map g l) v = map (fun x => if g x then v else f x) l.
Proof. unfold assign_where. induction l; simpl; [reflexivity|]. now rewrite IHl. Qed.

Lemma decrement_where_map {A : Type} (f : A -> Z) (g : A -> bool) (l : list A) :
  decrement_where (map f l) (map g l)
  = map (fun x => if g x then (f x - 1)%Z else f x) l.
Proof. unfold decrement_where. induction l; simpl; [reflexivity|]. now rewrite IHl. Qed.

Lemma map2_map {A B C D : Type} (h : B -> C -> D) (f : A -> B) (g : A -> C)
  (l : list A) :
  map2 h (map f l) (map g l) = map (fun x => h (f x) (g x)) l.
Proof. unfold map2. induction l; simpl; [reflexivity|]. now rewrite IHl. Qed.

Lemma mapM_map {A B C : Type} (F : B -> result C) (G : A -> B) (H : A -> C)
  (l : list A) :
  (forall x, In x l -> F (G x) = Ok (H x)) ->
  mapM F (map G l) = Ok (map H l).
Proof.
  induction l as [|a l IH]; intros E; simpl; [reflexivity|].
  rewrite (E a) by (left; reflexivity). cbn [bind].
  rewrite IH by (intros x Hx; apply E; right; exact Hx). reflexivity.
Qed.

Lemma combine3_map {A B C : Type} (f : A -> B) (g : A -> C) (l : list A) :
  combine (combine (map f l) l) (map g l) = map (fun x => (f x, x, g x)) l.
Proof. induction l; simpl; [reflexivity|]. now rewrite IHl. Qed.

(** ** Bisection *)

Module BisectFacts.
Import Bisect.

Lemma midpoint (lo hi : nat) :
  (lo < hi)%nat -> (lo <= (lo + hi) / 2 < hi)%nat.
Proof.
  intros H. pose proof (Nat.div_mod_eq (lo + hi) 2) as E.
  pose proof (Nat.mod_upper_bound (lo + hi) 2). lia.
Qed.

(** Both loops stay between [lo] and [hi]. *)
Lemma right_loop_range (a : list Q) (x : Q) (fuel lo hi : nat) :
  (lo <= hi)%nat ->
  (lo <= right_loop fuel a x lo hi <= hi)%nat.
Proof.
  revert lo hi. induction fuel as [|fuel IH]; intros lo hi L; cbn [right_loop left_loop]; [lia|].
  destruct (Nat.ltb_spec lo hi) as [H | H]; [|lia].
  pose proof (midpoint lo hi H) as M.
  destruct (Qltb x _).
  - specialize (IH lo ((lo + hi) / 2)%nat). lia.
  - specialize (IH ((lo + hi) / 2 + 1)%nat hi). lia.
Qed.

Lemma left_loop_range (a : list Q) (x : Q) (fuel lo hi : nat) :
  (lo <= hi)%nat ->
  (lo <= left_loop fuel a x lo hi <= hi)%nat.
Proof.
  revert lo hi. induction fuel as [|fuel IH]; intros lo hi L; cbn [right_loop left_loop]; [lia|].
  destruct (Nat.ltb_spec lo hi) as [H | H]; [|lia].
  pose proof (midpoint lo hi H) as M.
  destruct (Qltb _ x).
  - specialize (IH ((lo + hi) / 2 + 1)%nat hi). lia.
  - specialize (IH lo ((lo + hi) / 2)%nat). lia.
Qed.

(** The loops have come to their end when the fuel is used up: more
    fuel gives the same insertion point. *)
Lemma right_loop_fuel (a : list Q) (x : Q) (fuel extra lo hi : nat) :
  (hi - lo <= fuel)%nat ->
  right_loop (fuel + extra) a x lo hi = right_loop fuel a x lo hi.
Proof.
  revert lo hi. induction fuel as [|fuel IH]; intros lo hi L.
  - destruct extra; simpl; [reflexivity|].
    destruct (Nat.ltb_spec lo hi); [lia | reflexivity].
  - change (S fuel + extra)%nat with (S (fuel + extra)).
    cbn [right_loop left_loop].
    destruct (Nat.ltb_spec lo hi) as [H | H]; [|reflexivity].
    pose proof (midpoint lo hi H) as M.
    destruct (Qltb x _); apply IH; lia.
Qed.

Lemma left_loop_fuel (a : list Q) (x : Q) (fuel extra lo hi : nat) :
  (hi - lo <= fuel)%nat ->
  left_loop (fuel + extra) a x lo hi = left_loop fuel a x lo hi.
Proof.
  revert lo hi. induction fuel as [|fuel IH]; intros lo hi L.
  - destruct extra; simpl; [reflexivity|].
    destruct (Nat.ltb_spec lo hi); [lia | reflexivity].
  - change (S fuel + extra)%nat with (S (fuel + extra)).
    cbn [right_loop left_loop].
    destruct (Nat.ltb_spec lo hi) as [H | H]; [|reflexivity].
    pose proof (midpoint lo hi H) as M.
    destruct (Qltb _ x); apply IH; lia.
Qed.

(** A query above every value is inserted at the end, by both loops. *)
Lemma left_loop_above (a : list Q) (x : Q) (fuel lo hi : nat) :
  (forall v, In v a -> v < x) ->
  (lo <= hi <= List.length a)%nat -> (hi - lo <= fuel)%nat ->
  left_loop fuel a x lo hi = hi.
Proof.
  intros Ab. revert lo hi.
  induction fuel as [|fuel IH]; intros lo hi L F; cbn [right_loop left_loop]; [lia|].
  destruct (Nat.ltb_spec lo hi) as [H | H]; [|lia].
  pose proof (midpoint lo hi H) as M.
  assert (V : nth ((lo + hi) / 2) a 0 < x) by (apply Ab, nth_In; lia).
  apply Qltb_lt in V. rewrite V. apply IH; lia.
Qed.

Lemma right_loop_above (a : list Q) (x : Q) (fuel lo hi : nat) :
  (forall v, In v a -> v < x) ->
  (lo <= hi <= List.length a)%nat -> (hi - lo <= fuel)%nat ->
  right_loop fuel a x lo hi = hi.
Proof.
  intros Ab. revert lo hi.
  induction fuel as [|fuel IH]; intros lo hi L F; cbn [right_loop left_loop]; [lia|].
  destruct (Nat.ltb_spec lo hi) as [H | H]; [|lia].
  pose proof (midpoint lo hi H) as M.
  assert (V : nth ((lo + hi) / 2) a 0 < x) by (apply Ab, nth_In; lia).
  destruct (Qltb x _) eqn:E; [apply Qltb_lt in E; lra|].
  apply IH; lia.
Qed.

(** A query below every value is inserted at the start. *)
Lemma left_loop_below (a : list Q) (x : Q) (fuel lo hi : nat) :
  (forall v, In v a -> x < v) ->
  (lo <= hi <= List.length a)%nat ->
  left_loop fuel a x lo hi = lo.
Proof.
  intros Be. revert lo hi.
  induction fuel as [|fuel IH]; intros lo hi L; cbn [right_loop left_loop]; [reflexivity|].
  destruct (Nat.ltb_spec lo hi) as [H | H]; [|reflexivity].
  pose proof (midpoint lo hi H) as M.
  assert (V : x < nth ((lo + hi) / 2) a 0) by (apply Be, nth_In; lia).
  destruct (Qltb _ x) eqn:E; [apply Qltb_lt in E; lra|].
  apply IH; lia.
Qed.

Lemma right_loop_below (a : list Q) (x : Q) (fuel lo hi : nat) :
  (forall v, In v a -> x < v) ->
  (lo <= hi <= List.length a)%nat ->
  right_loop fuel a x lo hi = lo.
Proof.
  intros Be. revert lo hi.
  induction fuel as [|fuel IH]; intros lo hi L; cbn [right_loop left_loop]; [reflexivity|].
  destruct (Nat.ltb_spec lo hi) as [H | H]; [|reflexivity].
  pose proof (midpoint lo hi H) as M.
  assert (V : x < nth ((lo + hi) / 2) a 0) by (apply Be, nth_In; lia).
  apply Qltb_lt in V. rewrite V. apply IH; lia.
Qed.

(** Where the right insertion point is the start, the left one is too:
    both loops have turned left at every probe. *)
Lemma right_start_left_start (a : list Q) (x : Q) (fuel lo hi : nat) :
  (lo <= hi)%nat ->
  right_loop fuel a x lo hi = lo -> left_loop fuel a x lo hi = lo.
Proof.
  revert lo hi. induction fuel as [|fuel IH]; intros lo hi L; cbn [right_loop left_loop]; [reflexivity|].
  destruct (Nat.ltb_spec lo hi) as [H | H]; [|reflexivity].
  pose proof (midpoint lo hi H) as M.
  destruct (Qltb x _) eqn:E.
  - intros R. apply Qltb_lt in E.
    destruct (Qltb _ x) eqn:E'; [apply Qltb_lt in E'; lra|].
    apply IH; [lia | exact R].
  - intros R.
    pose proof (right_loop_range a x fuel ((lo + hi) / 2 + 1) hi). lia.
Qed.

(** Where a loop ends: the value to the left of the left insertion
    point is below the query and the value at it is not; the value to the
    left of the right insertion point is not above the query and the
    value at it is. *)
Lemma left_loop_post (a : list Q) (x : Q) (fuel lo hi : nat) :
  (lo <= hi)%nat -> (hi - lo <= fuel)%nat ->
  ((lo < left_loop fuel a x lo hi)%nat ->
   nth (left_loop fuel a x lo hi - 1) a 0 < x) /\
  ((left_loop fuel a x lo hi < hi)%nat ->
   ~ nth (left_loop fuel a x lo hi) a 0 < x).
Proof.
  revert lo hi. induction fuel as [|fuel IH]; intros lo hi L F;
    cbn [right_loop left_loop]; [split; lia|].
  destruct (Nat.ltb_spec lo hi) as [H | H]; [|split; lia].
  pose proof (midpoint lo hi H) as M.
  destruct (Qltb _ x) eqn:E.
  - apply Qltb_lt in E.
    pose proof (left_loop_range a x fuel ((lo + hi) / 2 + 1) hi ltac:(lia)) as R.
    destruct (IH ((lo + hi) / 2 + 1)%nat hi ltac:(lia) ltac:(lia)) as [I1 I2].
    split; [|exact I2].
    intros _.
    destruct (Nat.eq_dec (left_loop fuel a x ((lo + hi) / 2 + 1) hi)
                         ((lo + hi) / 2 + 1)) as [Eq | Ne].
    + rewrite Eq. replace ((lo + hi) / 2 + 1 - 1)%nat with ((lo + hi) / 2)%nat by lia.
      exact E.
    + apply I1. lia.
  - assert (NE : ~ nth ((lo + hi) / 2) a 0 < x)
      by (intros C; apply Qltb_lt in C; congruence).
    pose proof (left_loop_range a x fuel lo ((lo + hi) / 2) ltac:(lia)) as R.
    destruct (IH lo ((lo + hi) / 2)%nat ltac:(lia) ltac:(lia)) as [I1 I2].
    split; [exact I1|].
    intros _.
    destruct (Nat.eq_dec (left_loop fuel a x lo ((lo + hi) / 2))
                         ((lo + hi) / 2)) as [Eq | Ne].
    + rewrite Eq. exact NE.
    + apply I2. lia.
Qed.

Lemma right_loop_post (a : list Q) (x : Q) (fuel lo hi : nat) :
  (lo <= hi)%nat -> (hi - lo <= fuel)%nat ->
  ((lo < right_loop fuel a x lo hi)%nat ->
   ~ x < nth (right_loop fuel a x lo hi - 1) a 0) /\
  ((right_loop fuel a x lo hi < hi)%nat ->
   x < nth (right_loop fuel a x lo hi) a 0).
Proof.
  revert lo hi. induction fuel as [|fuel IH]; intros lo hi L F;
    cbn [right_loop left_loop]; [split; lia|].
  destruct (Nat.ltb_spec lo hi) as [H | H]; [|split; lia].
  pose proof (midpoint lo hi H) as M.
  destruct (Qltb x _) eqn:E.
  - apply Qltb_lt in E.
    pose proof (right_loop_range a x fuel lo ((lo + hi) / 2) ltac:(lia)) as R.
    destruct (IH lo ((lo + hi) / 2)%nat ltac:(lia) ltac:(lia)) as [I1 I2].
    split; [exact I1|].
    intros _.
    destruct (Nat.eq_dec (right_loop fuel a x lo ((lo + hi) / 2))
                         ((lo + hi) / 2)) as [Eq | Ne].
    + rewrite Eq. exact E.
    + apply I2. lia.
  - assert (NE : ~ x < nth ((lo + hi) / 2) a 0)
      by (intros C; apply Qltb_lt in C; congruence).
    pose proof (right_loop_range a x fuel ((lo + hi) / 2 + 1) hi ltac:(lia)) as R.
    destruct (IH ((lo + hi) / 2 + 1)%nat hi ltac:(lia) ltac:(lia)) as [I1 I2].
    split; [|exact I2].
    intros _.
    destruct (Nat.eq_dec (right_loop fuel a x ((lo + hi) / 2 + 1) hi)
                         ((lo + hi) / 2 + 1)) as [Eq | Ne].
    + rewrite Eq. replace ((lo + hi) / 2 + 1 - 1)%nat with ((lo + hi) / 2)%nat by lia.
      exact NE.
    + apply I1. lia.
Qed.

End BisectFacts.

(** ** The bisection method, query by query *)

Lemma getitem_item (a : list Q) (i : Z) :
  (- Z.of_nat (List.length a) <= i < Z.of_nat (List.length a))%Z ->
  getitem a i = Ok (item a i).
Proof.
  intros R. unfold getitem, item.
  set (j := if (i <? 0)%Z then (i + Z.of_nat (List.length a))%Z else i).
  assert (J : (0 <= j < Z.of_nat (List.length a))%Z)
    by (subst j; destruct (Z.ltb_spec i 0); lia).
  destruct (Z.leb_spec 0 j); [|lia].
  destruct (Z.ltb_spec j (Z.of_nat (List.length a))); [|lia].
  cbn [andb].
  destruct (nth_error a (Z.to_nat j)) eqn:E.
  - now rewrite (nth_error_nth _ _ _ E).
  - apply nth_error_None in E. lia.
Qed.

Lemma bisect_left_range (a : list Q) (x : Q) :
  (0 <= Bisect.bisect_left a x <= Z.of_nat (List.length a))%Z.
Proof.
  unfold Bisect.bisect_left.
  pose proof (BisectFacts.left_loop_range a x (List.length a) 0 (List.length a)).
  lia.
Qed.

Lemma bisect_right_range (a : list Q) (x : Q) :
  (0 <= Bisect.bisect_right a x <= Z.of_nat (List.length a))%Z.
Proof.
  unfold Bisect.bisect_right.
  pose proof (BisectFacts.right_loop_range a x (List.length a) 0 (List.length a)).
  lia.
Qed.

Lemma candidate_range (nctime : list Q) (q : Q) :
  nctime <> [] ->
  (0 <= candidate nctime q < Z.of_nat (List.length nctime))%Z.
Proof.
  intros NE. unfold candidate.
  pose proof (bisect_left_range nctime q).
  assert (0 < Z.of_nat (List.length nctime))%Z by (destruct nctime; [easy | cbn; lia]).
  destruct (Z.eqb_spec (Bisect.bisect_left nctime q) (Z.of_nat (List.length nctime))); lia.
Qed.

Lemma map2_map_l {A B C : Type} (h : B -> A -> C) (f : A -> B) (l : list A) :
  map2 h (map f l) l = map (fun x => h (f x) x) l.
Proof. unfold map2. induction l; simpl; [reflexivity|]. now rewrite IHl. Qed.

(** The bisection method is two checks over the batch, then [settle] on
    every query. *)
Lemma bisection_elementwise (num nctime : list Q) (select : string) :
  nctime <> [] ->
  bisection num nctime select =
  if (mem select ["before"; "exact"] &&
      existsb (fun q => (Bisect.bisect_right nctime q =? 0)%Z) num)%bool
  then Raise BeforeFirstTime
  else if (mem select ["after"; "exact"] &&
           existsb (fun q => (Bisect.bisect_left nctime q
                              =? Z.of_nat (List.length nctime))%Z) num)%bool
  then Raise AfterLastTime
  else if select =? "exact" then
    if existsb (fun q => negb (Qeqb (item nctime (candidate nctime q)) q)) num
    then Raise TimesNotFound
    else Ok (map (settle nctime select) num)
  else if ((select =? "before") || (select =? "after") || (select =? "nearest"))%bool
  then Ok (map (settle nctime select) num)
  else Raise BadSelect.
Proof.
  intros NE. unfold bisection.
  rewrite !map_map, !any_map.
  destruct (mem select ["before"; "exact"] && _)%bool; [reflexivity|].
  destruct (mem select ["after"; "exact"] && _)%bool; [reflexivity|].
  rewrite assign_where_map.
  rewrite (mapM_map (getitem nctime) _ (fun q => item nctime (candidate nctime q))).
  2:{ intros q _. fold (candidate nctime q). apply getitem_item.
      pose proof (candidate_range nctime q NE). lia. }
  cbn [bind]. rewrite map2_map_l, any_map.
  destruct (select =? "exact") eqn:Ex.
  { apply String.eqb_eq in Ex. subst select.
    destruct (existsb _ num); [reflexivity|]. cbn [bind].
    rewrite assign_where_map. reflexivity. }
  destruct (select =? "before") eqn:Be.
  { cbn [orb bind]. rewrite assign_where_map, decrement_where_map, assign_where_map.
    f_equal. apply map_ext. intros q. unfold settle. rewrite Be.
    fold (candidate nctime q). reflexivity. }
  destruct (select =? "after") eqn:Af.
  { cbn [orb bind]. rewrite assign_where_map.
    f_equal. apply map_ext. intros q. unfold settle. rewrite Be.
    apply String.eqb_eq in Af. subst select. reflexivity. }
  destruct (select =? "nearest") eqn:Ne; cbn [orb]; [|reflexivity].
  rewrite combine3_map.
  rewrite (mapM_map _ _
             (fun q => let i := candidate nctime q in
                       if negb (Qeqb (item nctime i) q) then
                         if Qltb q (midpoint64 (item nctime (i - 1))
                                               (item nctime i))
                         then (i - 1)%Z else i
                       else i)).
  2:{ intros q _. fold (candidate nctime q). cbv zeta.
      pose proof (candidate_range nctime q NE).
      destruct (negb _); [|reflexivity].
      rewrite !getitem_item by lia. reflexivity. }
  cbn [bind]. rewrite assign_where_map.
  f_equal. apply map_ext. intros q. unfold settle. rewrite Be, Ne. reflexivity.
Qed.

(** ** Out of range *)

Lemma existsb_witness {A : Type} (f : A -> bool) (l : list A) (x : A) :
  In x l -> f x = true -> existsb f l = true.
Proof. intros I E. apply existsb_exists. exists x. split; assumption. Qed.

Lemma existsb_none {A : Type} (f : A -> bool) (l : list A) :
  (forall x, In x l -> f x = false) -> existsb f l = false.
Proof.
  intros H. induction l as [|a l IH]; [reflexivity|]. cbn [existsb].
  rewrite (H a) by (left; reflexivity).
  apply IH. intros x Hx. apply H. right. exact Hx.
Qed.

(** In the series [0, 5, 6, 20] the query 100 has its left insertion
    point at the length, yet 'exact' on the batch [-1, 100] reports the
    query before the first time: that check comes first. *)
Lemma after_check_comes_second :
  ~ ((exists q, In q [-1; 100] /\
                Bisect.bisect_left [0; 5; 6; 20] q
                = Z.of_nat (List.length [0; 5; 6; 20])) ->
     bisection [-1; 100] [0; 5; 6; 20] "exact" = Raise AfterLastTime).
Proof.
  intros H.
  assert (E : bisection [-1; 100] [0; 5; 6; 20] "exact" = Raise AfterLastTime).
  { apply H. exists 100. split; [right; left; reflexivity | reflexivity]. }
  vm_compute in E. discriminate.
Qed.

(** C8.  The bisection method raises 'before the first time' when
    [select] is 'exact' or 'before' and some query has its right insertion
    point at 0.  It raises 'after the last time' when some query has its
    left insertion point at the length of the series and [select] is
    'after', or [select] is 'exact' and no query has its right insertion
    point at 0. *)
Theorem out_of_range_rejection (num nctime : list Q) (select : string) :
  (select = "exact" \/ select = "before" ->
   (exists q, In q num /\ Bisect.bisect_right nctime q = 0%Z) ->
   bisection num nctime select = Raise BeforeFirstTime) /\
  (select = "after" \/
   (select = "exact" /\ forall q, In q num -> Bisect.bisect_right nctime q <> 0%Z) ->
   (exists q, In q num /\
              Bisect.bisect_left nctime q = Z.of_nat (List.length nctime)) ->
   bisection num nctime select = Raise AfterLastTime).
Proof.
  split.
  - intros S (q & I & E). unfold bisection. rewrite !map_map, !any_map.
    rewrite (existsb_witness _ num q I) by (rewrite E; reflexivity).
    destruct S as [-> | ->]; reflexivity.
  - intros S (q & I & E). unfold bisection. rewrite !map_map, !any_map.
    rewrite (existsb_witness (fun x => (Bisect.bisect_left nctime x =? _)%Z) num q I)
      by (rewrite E; apply Z.eqb_refl).
    destruct S as [-> | [-> NB]]; [reflexivity|].
    rewrite existsb_none; [reflexivity|].
    intros x Hx. apply Z.eqb_neq. apply NB. exact Hx.
Qed.

Lemma out_of_range_rejection_witness :
  bisection [7; -1] [0; 5; 6; 20] "before" = Raise BeforeFirstTime /\
  bisection [7; 100] [0; 5; 6; 20] "exact" = Raise AfterLastTime.
Proof.
  split.
  - apply (proj1 (out_of_range_rejection [7; -1] [0; 5; 6; 20] "before")).
    + right. reflexivity.
    + exists (-1). split; [right; left; reflexivity | reflexivity].
  - apply (proj2 (out_of_range_rejection [7; 100] [0; 5; 6; 20] "exact")).
    + right. split; [reflexivity|].
      intros q [<- | [<- | []]]; vm_compute; discriminate.
    + exists 100. split; [right; left; reflexivity | reflexivity].
Defined.

(** ** Nearest *)

Lemma bisect_right_start (nctime : list Q) (q : Q) :
  nctime <> [] ->
  Bisect.bisect_right nctime q = 0%Z -> candidate nctime q = 0%Z.
Proof.
  intros NE R. unfold candidate.
  assert (L : Bisect.bisect_left nctime q = 0%Z).
  { unfold Bisect.bisect_right in R. unfold Bisect.bisect_left.
    rewrite BisectFacts.right_start_left_start; [reflexivity | lia | lia]. }
  rewrite L.
  destruct nctime; [contradiction | reflexivity].
Qed.

Lemma Qeqb_false (a b : Q) : ~ a == b -> Qeqb a b = false.
Proof.
  intros N. unfold Qeqb. destruct (Qeq_bool a b) eqn:E; [|reflexivity].
  apply Qeq_bool_iff in E. contradiction.
Qed.

(** In an ascending series, a query that is not the first value and has
    its left insertion point at the start has its right one there too. *)
Lemma ascending_start (nctime : list Q) (q : Q) :
  nctime <> [] -> ascending nctime ->
  Bisect.bisect_left nctime q = 0%Z -> ~ item nctime 0 == q ->
  Bisect.bisect_right nctime q = 0%Z.
Proof.
  intros NE As L Mis.
  assert (Npos : (0 < List.length nctime)%nat)
    by (destruct nctime; [contradiction | cbn; lia]).
  unfold Bisect.bisect_left in L. unfold Bisect.bisect_right.
  destruct (BisectFacts.left_loop_post nctime q (List.length nctime) 0
              (List.length nctime)) as [_ P]; [lia | lia |].
  assert (L0 : Bisect.left_loop (List.length nctime) nctime q 0
                 (List.length nctime) = 0%nat) by lia.
  rewrite L0 in P. specialize (P Npos).
  assert (Q0 : q < nth 0 nctime 0).
  { unfold item in Mis. cbn in Mis. lra. }
  destruct (BisectFacts.right_loop_post nctime q (List.length nctime) 0
              (List.length nctime)) as [R _]; [lia | lia |].
  pose proof (BisectFacts.right_loop_range nctime q (List.length nctime) 0
                (List.length nctime) ltac:(lia)) as RR.
  set (r := Bisect.right_loop (List.length nctime) nctime q 0
              (List.length nctime)) in *.
  destruct (Nat.eq_dec r 0) as [-> | NZ]; [reflexivity|].
  exfalso. apply R; [lia|].
  pose proof (As 0%nat (r - 1)%nat ltac:(lia)). lra.
Qed.

(** The midpoint is the computed one: in the series [1, 1 + 5u] with
    u = 2^-52 the query 1 + 2u is below the midpoint 1 + 2.5u of the two
    values and nearer to the first, but the sum 2 + 5u is rounded to
    2 + 4u, the computed midpoint is the query itself, and the bisection
    method returns the candidate 1, not its left neighbour. *)
Lemma nearest_midpoint_is_rounded :
  let v_prev := 1 in
  let v := 4503599627370501 # 4503599627370496 in
  let q := 4503599627370498 # 4503599627370496 in
  candidate [v_prev; v] q = 1%Z /\ ~ v == q /\
  q < (v_prev + v) / 2 /\
  bisection [q] [v_prev; v] "nearest" = Ok [1%Z].
Proof.
  cbv zeta. split; [reflexivity|]. split; [vm_compute; discriminate|].
  split; vm_compute; reflexivity.
Qed.

(** C9.  With [select] 'nearest' the bisection method does not
    raise on a series that is not empty; for a query [q] whose candidate
    index [i] has a value [v] other than [q], the index returned is
    [i - 1] when the candidate has a left neighbour and [q] is below the
    midpoint of the two values as the code computes it in binary64 (the
    sum rounded, then halved), and [i] when it is not, and so [i] at the
    computed midpoint itself; with the left insertion point at the start
    of an ascending series it is 0. *)
Theorem nearest_tie_break (num nctime : list Q) :
  nctime <> [] ->
  exists index,
    bisection num nctime "nearest" = Ok index /\
    Forall2 (nearest_rule nctime) num index.
Proof.
  intros NE. rewrite (bisection_elementwise num nctime "nearest" NE).
  cbn [mem existsb String.eqb Ascii.eqb Bool.eqb orb andb].
  eexists. split; [reflexivity|].
  apply Forall2_map_r. intros q. unfold nearest_rule. cbv zeta.
  intros v Hv Mis.
  pose proof (candidate_range nctime q NE) as CR.
  rewrite getitem_item in Hv by lia. injection Hv as <-.
  split.
  - intros v_prev Pos Hp _.
    rewrite getitem_item in Hp by lia. injection Hp as <-.
    unfold settle. cbn [String.eqb Ascii.eqb Bool.eqb].
    destruct (Z.eqb_spec (Bisect.bisect_right nctime q) 0) as [R | R].
    { apply (bisect_right_start nctime q NE) in R. lia. }
    rewrite (Qeqb_false _ _ Mis). cbn [negb].
    destruct (Qltb q _) eqn:E.
    + apply Qltb_lt in E. repeat split; intros; try reflexivity; lra.
    + assert (~ q < midpoint64 (item nctime (candidate nctime q - 1))
                               (item nctime (candidate nctime q)))
        by (intros C; apply Qltb_lt in C; congruence).
      repeat split; intros; try reflexivity; contradiction.
  - intros L0 As. unfold settle.
    assert (I0 : candidate nctime q = 0%Z).
    { unfold candidate. rewrite L0.
      destruct nctime; [contradiction | reflexivity]. }
    rewrite I0 in Mis.
    rewrite (ascending_start nctime q NE As L0 Mis). reflexivity.
Qed.

(** The series [0, 6, 12, 18, 24] with the queries 15 (a midpoint), 14
    and 16. *)
Lemma nearest_tie_break_witness :
  exists index,
    bisection [15; 14; 16] [0; 6; 12; 18; 24] "nearest" = Ok index /\
    Forall2 (nearest_rule [0; 6; 12; 18; 24]) [15; 14; 16] index.
Proof.
  apply (nearest_tie_break [15; 14; 16] [0; 6; 12; 18; 24]). discriminate.
Defined.

Example nearest_midpoint_goes_right :
  bisection [15; 14; 16] [0; 6; 12; 18; 24] "nearest" = Ok [3; 2; 3]%Z.
Proof. reflexivity. Qed.

(** On that series the guess is accepted for the query 15, and
    [time2index] returns the guess: 2.5 is rounded to the even index 2,
    and [_check_index] accepts an index whose value is no further from
    the query than its two neighbours are from it. *)
Example time2index_midpoint_fast_path :
  time2index [15] [0; 6; 12; 18; 24] "nearest" = Ok (Scalar 2).
Proof. reflexivity. Qed.

(** ** Clamping *)

Lemma bisect_left_above (nctime : list Q) (q : Q) :
  (forall v, In v nctime -> v < q) ->
  Bisect.bisect_left nctime q = Z.of_nat (List.length nctime).
Proof.
  intros Ab. unfold Bisect.bisect_left.
  rewrite BisectFacts.left_loop_above; [reflexivity | exact Ab | lia | lia].
Qed.

Lemma bisect_right_above (nctime : list Q) (q : Q) :
  (forall v, In v nctime -> v < q) ->
  Bisect.bisect_right nctime q = Z.of_nat (List.length nctime).
Proof.
  intros Ab. unfold Bisect.bisect_right.
  rewrite BisectFacts.right_loop_above; [reflexivity | exact Ab | lia | lia].
Qed.

Lemma bisect_right_below (nctime : list Q) (q : Q) :
  (forall v, In v nctime -> q < v) -> Bisect.bisect_right nctime q = 0%Z.
Proof.
  intros Be. unfold Bisect.bisect_right.
  rewrite BisectFacts.right_loop_below; [reflexivity | exact Be | lia].
Qed.

Lemma bisect_left_below (nctime : list Q) (q : Q) :
  (forall v, In v nctime -> q < v) -> Bisect.bisect_left nctime q = 0%Z.
Proof.
  intros Be. unfold Bisect.bisect_left.
  rewrite BisectFacts.left_loop_below; [reflexivity | exact Be | lia].
Qed.

Lemma item_In (a : list Q) (i : Z) :
  (0 <= i < Z.of_nat (List.length a))%Z -> In (item a i) a.
Proof.
  intros R. unfold item. destruct (Z.ltb_spec i 0); [lia|].
  apply nth_In. lia.
Qed.

Lemma settle_before_above (nctime : list Q) (q : Q) :
  nctime <> [] ->
  (forall v, In v nctime -> v < q) ->
  settle nctime "before" q = (Z.of_nat (List.length nctime) - 1)%Z.
Proof.
  intros NE Ab. unfold settle. cbn [String.eqb Ascii.eqb Bool.eqb].
  pose proof (candidate_range nctime q NE) as CR.
  rewrite (bisect_right_above nctime q Ab), (bisect_left_above nctime q Ab).
  rewrite Z.eqb_refl.
  destruct (Z.eqb_spec (Z.of_nat (List.length nctime)) 0); [lia|].
  rewrite Qeqb_false; [reflexivity|].
  pose proof (Ab _ (item_In nctime (candidate nctime q) CR)). lra.
Qed.

Lemma settle_after_below (nctime : list Q) (q : Q) :
  (forall v, In v nctime -> q < v) ->
  settle nctime "after" q = 0%Z.
Proof.
  intros Be. unfold settle. rewrite (bisect_right_below nctime q Be). reflexivity.
Qed.

Lemma bisection_before_above (nctime : list Q) (q : Q) :
  nctime <> [] ->
  (forall v, In v nctime -> v < q) ->
  bisection [q] nctime "before" = Ok [(Z.of_nat (List.length nctime) - 1)%Z].
Proof.
  intros NE Ab.
  assert (Npos : (0 < Z.of_nat (List.length nctime))%Z)
    by (destruct nctime; [contradiction | cbn; lia]).
  rewrite (bisection_elementwise [q] nctime "before" NE).
  cbn [mem existsb String.eqb Ascii.eqb Bool.eqb orb andb map].
  rewrite (bisect_right_above nctime q Ab).
  destruct (Z.eqb_spec (Z.of_nat (List.length nctime)) 0); [lia|].
  rewrite settle_before_above by assumption. reflexivity.
Qed.

Lemma bisection_after_below (nctime : list Q) (q : Q) :
  nctime <> [] ->
  (forall v, In v nctime -> q < v) ->
  bisection [q] nctime "after" = Ok [0%Z].
Proof.
  intros NE Be.
  assert (Npos : (0 < Z.of_nat (List.length nctime))%Z)
    by (destruct nctime; [contradiction | cbn; lia]).
  rewrite (bisection_elementwise [q] nctime "after" NE).
  cbn [mem existsb String.eqb Ascii.eqb Bool.eqb orb andb map].
  rewrite (bisect_left_below nctime q Be).
  destruct (Z.eqb_spec 0 (Z.of_nat (List.length nctime))); [lia|].
  rewrite settle_after_below by assumption. reflexivity.
Qed.

(** C10.  On a series of length N that is not empty: with [select]
    'before' the bisection method raises only if some query has its right
    insertion point at 0, and a query above every value of the series gets
    the index N - 1; with [select] 'after' it raises only if some query has
    its left insertion point at N, and a query below every value of the
    series gets the index 0. *)
Theorem out_of_range_clamping (num nctime : list Q) :
  nctime <> [] ->
  ((forall q, In q num -> Bisect.bisect_right nctime q <> 0%Z) ->
   exists index,
     bisection num nctime "before" = Ok index /\
     Forall2 (fun q r => (forall v, In v nctime -> v < q) ->
                         r = (Z.of_nat (List.length nctime) - 1)%Z)
             num index) /\
  ((forall q, In q num ->
              Bisect.bisect_left nctime q <> Z.of_nat (List.length nctime)) ->
   exists index,
     bisection num nctime "after" = Ok index /\
     Forall2 (fun q r => (forall v, In v nctime -> q < v) -> r = 0%Z)
             num index) /\
  (forall q, (forall v, In v nctime -> v < q) ->
             bisection [q] nctime "before"
             = Ok [(Z.of_nat (List.length nctime) - 1)%Z]) /\
  (forall q, (forall v, In v nctime -> q < v) ->
             bisection [q] nctime "after" = Ok [0%Z]).
Proof.
  intros NE. repeat split.
  - intros NB. rewrite (bisection_elementwise num nctime "before" NE).
    cbn [mem existsb String.eqb Ascii.eqb Bool.eqb orb andb].
    rewrite existsb_none by (intros x Hx; apply Z.eqb_neq, NB, Hx).
    eexists. split; [reflexivity|].
    apply Forall2_map_r. intros q Ab. apply settle_before_above; assumption.
  - intros NA. rewrite (bisection_elementwise num nctime "after" NE).
    cbn [mem existsb String.eqb Ascii.eqb Bool.eqb orb andb].
    rewrite existsb_none by (intros x Hx; apply Z.eqb_neq, NA, Hx).
    eexists. split; [reflexivity|].
    apply Forall2_map_r. intros q Be. apply settle_after_below; assumption.
  - intros q Ab. apply bisection_before_above; assumption.
  - intros q Be. apply bisection_after_below; assumption.
Qed.

Lemma out_of_range_clamping_witness :
  bisection [100] [0; 5; 6; 20] "before" = Ok [3%Z] /\
  bisection [-1] [0; 5; 6; 20] "after" = Ok [0%Z] /\
  exists index,
    bisection [7; 100] [0; 5; 6; 20] "before" = Ok index /\
    Forall2 (fun q r => (forall v, In v [0; 5; 6; 20] -> v < q) ->
                        r = (Z.of_nat (List.length [0; 5; 6; 20]) - 1)%Z)
            [7; 100] index.
Proof.
  assert (NE : [0; 5; 6; 20] <> []) by discriminate.
  destruct (out_of_range_clamping [7; 100] [0; 5; 6; 20] NE) as (B & _ & B1 & A1).
  split; [|split].
  - apply (B1 100). intros v [<- | [<- | [<- | [<- | []]]]]; reflexivity.
  - apply (A1 (-1)). intros v [<- | [<- | [<- | [<- | []]]]]; reflexivity.
  - apply B. intros q [<- | [<- | []]]; vm_compute; discriminate.
Defined.

(** ** Order of the day counts *)

Lemma month_length_cases (feb m d : Z) :
  (1 <= m <= 12)%Z -> (d <= month_length feb m)%Z ->
  (m = 2 /\ d <= feb)%Z \/
  ((m = 4 \/ m = 6 \/ m = 9 \/ m = 11) /\ d <= 30)%Z \/
  ((m = 1 \/ m = 3 \/ m = 5 \/ m = 7 \/ m = 8 \/ m = 10 \/ m = 12) /\ d <= 31)%Z.
Proof.
  unfold month_length. intros R D.
  destruct (Z.eqb_spec m 2); [lia|].
  destruct (Z.eqb_spec m 4); [cbn in D; lia|].
  destruct (Z.eqb_spec m 6); [cbn in D; lia|].
  destruct (Z.eqb_spec m 9); [cbn in D; lia|].
  destruct (Z.eqb_spec m 11); [cbn in D; lia|].
  cbn in D. lia.
Qed.

(** A calendar of the Meeus shape: years that begin in March at the day
    [S c], with a February of [feb y] days at the end of the year before
    the year [y].  If the starts of the years are far enough apart, an
    earlier date has a smaller day number. *)
Section Rule.

Variable S : Z -> Z.
Variable feb : Z -> Z.
Variable dom : Z -> Prop.
Hypothesis feb_range : forall y, (28 <= feb y <= 29)%Z.
Hypothesis S_gap :
  forall c1 c2, dom c1 -> (c1 < c2)%Z -> (S c1 + 337 + feb (c1 + 1) <= S c2)%Z.

Lemma date_order (y1 m1 d1 y2 m2 d2 : Z) :
  let sy := fun y m => if (m <? 3)%Z then (y - 1)%Z else y in
  let sm := fun m => if (m <? 3)%Z then (m + 12)%Z else m in
  dom (sy y1 m1) ->
  (1 <= m1 <= 12)%Z -> (1 <= d1 <= month_length (feb y1) m1)%Z ->
  (1 <= m2 <= 12)%Z -> (1 <= d2)%Z ->
  (y1 < y2 \/ (y1 = y2 /\ (m1 < m2 \/ (m1 = m2 /\ d1 < d2))))%Z ->
  (S (sy y1 m1) + month_offset (sm m1) + d1
   < S (sy y2 m2) + month_offset (sm m2) + d2)%Z.
Proof.
  intros sy sm Dm M1 [D1 D1'] M2 D2 L.
  apply month_length_cases in D1'; [|assumption].
  pose proof (S_gap (sy y1 m1) (sy y2 m2) Dm) as G.
  pose proof (feb_range y1) as F1. pose proof (feb_range (sy y1 m1 + 1)) as F2.
  revert G F2 Dm. unfold sy, sm, month_offset.
  destruct (Z.ltb_spec m1 3); destruct (Z.ltb_spec m2 3); intros G F2 Dm.
  - replace (y1 - 1 + 1)%Z with y1 in * by lia.
    assert (y1 = y2 \/ y1 - 1 < y2 - 1)%Z as [<- | Lt] by lia.
    + Z.quot_rem_to_equations; lia.
    + specialize (G Lt). Z.quot_rem_to_equations; lia.
  - replace (y1 - 1 + 1)%Z with y1 in * by lia.
    assert (Lt : (y1 - 1 < y2)%Z) by lia.
    specialize (G Lt). Z.quot_rem_to_equations; lia.
  - assert (y1 = y2 - 1 \/ y1 < y2 - 1)%Z as [-> | Lt] by lia.
    + Z.quot_rem_to_equations; lia.
    + specialize (G Lt). Z.quot_rem_to_equations; lia.
  - assert (y1 = y2 \/ y1 < y2)%Z as [<- | Lt] by lia.
    + Z.quot_rem_to_equations; lia.
    + specialize (G Lt). Z.quot_rem_to_equations; lia.
Qed.

End Rule.

Lemma year_start_julian_step (c : Z) :
  (0 <= c)%Z ->
  year_start_julian (c + 1)
  = (year_start_julian c + 337 + (if julian_leap (c + 1) then 29 else 28))%Z.
Proof.
  intros H. unfold year_start_julian, julian_leap.
  destruct (Z.eqb_spec ((c + 1) mod 4) 0);
    Z.quot_rem_to_equations; Z.div_mod_to_equations; lia.
Qed.

Lemma year_start_julian_mono (a b : Z) :
  (0 <= a <= b)%Z -> (year_start_julian a <= year_start_julian b)%Z.
Proof. intros H. unfold year_start_julian. Z.quot_rem_to_equations; lia. Qed.

Lemma year_start_gregorian_step (c : Z) :
  (0 <= c)%Z ->
  year_start_gregorian (c + 1)
  = (year_start_gregorian c + 337 + (if gregorian_leap (c + 1) then 29 else 28))%Z.
Proof.
  intros H.
  unfold year_start_gregorian, century_correction, year_start_julian, gregorian_leap.
  destruct (Z.eqb_spec ((c + 1) mod 4) 0);
    destruct (Z.eqb_spec ((c + 1) mod 100) 0);
    destruct (Z.eqb_spec ((c + 1) mod 400) 0); cbn [andb orb negb];
    Z.quot_rem_to_equations; Z.div_mod_to_equations; lia.
Qed.

Lemma year_start_gregorian_mono (a b : Z) :
  (0 <= a <= b)%Z -> (year_start_gregorian a <= year_start_gregorian b)%Z.
Proof.
  intros H. unfold year_start_gregorian, century_correction, year_start_julian.
  Z.quot_rem_to_equations; lia.
Qed.

Lemma julian_gap (c1 c2 : Z) :
  (0 <= c1)%Z -> (c1 < c2)%Z ->
  (year_start_julian c1 + 337 + (if julian_leap (c1 + 1) then 29 else 28)
   <= year_start_julian c2)%Z.
Proof.
  intros P L. rewrite <- (year_start_julian_step c1 P).
  apply year_start_julian_mono. lia.
Qed.

Lemma gregorian_gap (c1 c2 : Z) :
  (0 <= c1)%Z -> (c1 < c2)%Z ->
  (year_start_gregorian c1 + 337 + (if gregorian_leap (c1 + 1) then 29 else 28)
   <= year_start_gregorian c2)%Z.
Proof.
  intros P L. rewrite <- (year_start_gregorian_step c1 P).
  apply year_start_gregorian_mono. lia.
Qed.

Lemma trunc_div_const (n : Z) (p : positive) :
  trunc (inject_Z n / inject_Z (Zpos p)) = Z.quot n (Zpos p).
Proof. apply trunc_frac. symmetry. apply Qmake_Qdiv. Qed.

Lemma trunc_times (k n : Z) : trunc (inject_Z k * inject_Z n) = (k * n)%Z.
Proof. rewrite <- inject_Z_mult. apply trunc_inject_Z. Qed.

Lemma gregorian_B_correction (d : civil) :
  Meeus.gregorian_B d = inject_Z (century_correction (Meeus.shift_year d)).
Proof.
  unfold Meeus.gregorian_B, Meeus.century, century_correction.
  change 100 with (inject_Z 100). change 4 with (inject_Z 4).
  rewrite !trunc_div_const. reflexivity.
Qed.

Lemma day_number_parts (d : civil) :
  day_number d
  = (year_start_julian (Meeus.shift_year d) + month_offset (Meeus.shift_month d)
     + day d + 1718994)%Z.
Proof. reflexivity. Qed.

Lemma fixed_split (ylen : Z) (d : civil) :
  inject_Z (trunc (inject_Z ylen * inject_Z (Meeus.shift_year d + 4716)))
  + inject_Z (trunc ((306001 # 10000) * inject_Z (Meeus.shift_month d + 1)))
  + fractional_day d - (15245 # 10)
  == inject_Z (ylen * (Meeus.shift_year d + 4716)
               + month_offset (Meeus.shift_month d) + day d)
     + time_of_day d + - (15245 # 10).
Proof.
  rewrite trunc_times, trunc_scale. unfold month_offset, time_of_day.
  rewrite !inject_Z_plus. lra.
Qed.

Lemma day360_split (d : civil) :
  _360DayFromDate d
  == inject_Z (360 * (year d + 4716) + 30 * (month d - 1) + day d)
     + time_of_day d + 0.
Proof.
  unfold _360DayFromDate, time_of_day.
  change 360 with (inject_Z 360). change 30 with (inject_Z 30).
  rewrite !trunc_times, !inject_Z_plus. lra.
Qed.

Lemma single_julian (d : civil) :
  JulianDayFromDate d "julian" = Ok (Meeus.jd_uncorrected d + 0).
Proof. reflexivity. Qed.

Lemma single_proleptic (d : civil) :
  JulianDayFromDate d "proleptic_gregorian"
  = Ok (Meeus.jd_uncorrected d + Meeus.gregorian_B d).
Proof. reflexivity. Qed.

(** A day count is the whole days of the date, its time of day and the
    constant of the calendar. *)
Lemma day_count_parts (self : Utime.t) (d : civil) (jd : Q) :
  valid_date (Utime.calendar self) d ->
  Utime.day_count self d = Ok jd ->
  jd == inject_Z (whole_days (Utime.calendar self) d) + time_of_day d
        + calendar_offset (Utime.calendar self).
Proof.
  unfold Utime.day_count. generalize (Utime.calendar self). intros c (R & _ & G).
  destruct (mem c ["julian"; _; _; _]) eqn:C1.
  { apply mem_cases in C1. each_member C1.
    - rewrite single_julian. intros H; injection H as <-.
      rewrite jd_uncorrected_split. cbn. lra.
    - specialize (G eq_refl).
      rewrite (mixed_single d "standard" eq_refl).
      pose proof (at_or_after_cutover d R) as Ha.
      pose proof (before_gap d R) as Hb.
      unfold whole_days, calendar_offset. cbn [mem existsb String.eqb Ascii.eqb Bool.eqb orb].
      destruct (Qleb _ _).
      + intros H; injection H as <-.
        destruct (Z.ltb_spec (day_number d) 2299160);
          [destruct Ha as [Ha _]; specialize (Ha eq_refl); lia|].
        rewrite gregorian_B_correction, jd_uncorrected_split, inject_Z_plus. lra.
      + destruct (Qltb _ _).
        * intros H; injection H as <-.
          destruct (Z.ltb_spec (day_number d) 2299160);
            [|destruct Hb as [Hb _]; specialize (Hb eq_refl); lia].
          rewrite jd_uncorrected_split. lra.
        * discriminate.
    - specialize (G eq_refl).
      rewrite (mixed_single d "gregorian" eq_refl).
      pose proof (at_or_after_cutover d R) as Ha.
      pose proof (before_gap d R) as Hb.
      unfold whole_days, calendar_offset. cbn [mem existsb String.eqb Ascii.eqb Bool.eqb orb].
      destruct (Qleb _ _).
      + intros H; injection H as <-.
        destruct (Z.ltb_spec (day_number d) 2299160);
          [destruct Ha as [Ha _]; specialize (Ha eq_refl); lia|].
        rewrite gregorian_B_correction, jd_uncorrected_split, inject_Z_plus. lra.
      + destruct (Qltb _ _).
        * intros H; injection H as <-.
          destruct (Z.ltb_spec (day_number d) 2299160);
            [|destruct Hb as [Hb _]; specialize (Hb eq_refl); lia].
          rewrite jd_uncorrected_split. lra.
        * discriminate.
    - rewrite single_proleptic. intros H; injection H as <-.
      rewrite gregorian_B_correction, jd_uncorrected_split.
      unfold whole_days, calendar_offset. cbn [mem existsb String.eqb Ascii.eqb Bool.eqb orb].
      rewrite inject_Z_plus. lra. }
  destruct (mem c ["noleap"; _]) eqn:C2.
  { destruct (_ && _)%bool; [discriminate|].
    intros H; injection H as <-.
    apply mem_cases in C2. each_member C2;
      unfold whole_days, calendar_offset, _NoLeapDayFromDate;
      cbn [mem existsb String.eqb Ascii.eqb Bool.eqb orb];
      change 365 with (inject_Z 365); apply fixed_split. }
  destruct (mem c ["all_leap"; _]) eqn:C3.
  { intros H; injection H as <-.
    apply mem_cases in C3. each_member C3;
      unfold whole_days, calendar_offset, _AllLeapFromDate;
      cbn [mem existsb String.eqb Ascii.eqb Bool.eqb orb];
      change 366 with (inject_Z 366); apply fixed_split. }
  destruct (c =? "360_day") eqn:C4; [|discriminate].
  apply String.eqb_eq in C4. subst c.
  destruct (30 <? day d)%Z; [discriminate|].
  intros H; injection H as <-. apply day360_split.
Qed.

Lemma earlier_cases (d1 d2 : civil) :
  in_range d1 -> in_range d2 -> earlier d1 d2 ->
  date_lt d1 d2 \/ (same_date d1 d2 /\ (micros d1 < micros d2)%Z).
Proof.
  unfold in_range, earlier, date_lt, same_date, micros, key, lex_lt. lia.
Qed.

Lemma time_of_day_micros (d : civil) :
  time_of_day d == inject_Z (micros d) * (1 # 86400000000).
Proof.
  unfold time_of_day, fractional_day, micros.
  rewrite !inject_Z_plus, !inject_Z_mult.
  change (inject_Z 3600000000) with 3600000000.
  change (inject_Z 60000000) with 60000000.
  change (inject_Z 1000000) with 1000000.
  div_consts. lra.
Qed.

Lemma whole_days_same_date (calendar : string) (d1 d2 : civil) :
  same_date d1 d2 -> whole_days calendar d1 = whole_days calendar d2.
Proof.
  intros (Y & M & D).
  unfold whole_days, day_number, Meeus.shift_year, Meeus.shift_month.
  rewrite Y, M, D. reflexivity.
Qed.

Section FixedOrder.

Variable ylen feb : Z.
Hypothesis feb_range : (28 <= feb <= 29)%Z.
Hypothesis ylen_long : (337 + feb <= ylen)%Z.

Lemma fixed_order (d1 d2 : civil) :
  in_range d1 -> in_range d2 ->
  (day d1 <= month_length feb (month d1))%Z ->
  date_lt d1 d2 ->
  (ylen * (Meeus.shift_year d1 + 4716) + month_offset (Meeus.shift_month d1) + day d1
   < ylen * (Meeus.shift_year d2 + 4716) + month_offset (Meeus.shift_month d2) + day d2)%Z.
Proof.
  intros R1 R2 V L.
  apply (date_order (fun c => ylen * (c + 4716))%Z (fun _ => feb) (fun _ => True)).
  - intros _. exact feb_range.
  - intros c1 c2 _ Lt. nia.
  - exact I.
  - apply R1.
  - split; [apply R1 | exact V].
  - apply R2.
  - apply R2.
  - unfold date_lt, lex_lt in L. lia.
Qed.

End FixedOrder.

Lemma julian_order (d1 d2 : civil) :
  in_range d1 -> in_range d2 -> (1 <= year d1)%Z ->
  (day d1 <= month_length (if julian_leap (year d1) then 29 else 28) (month d1))%Z ->
  date_lt d1 d2 ->
  (day_number d1 < day_number d2)%Z.
Proof.
  intros R1 R2 Y V L. rewrite !day_number_parts.
  assert (F : forall y, (28 <= (if julian_leap y then 29 else 28) <= 29)%Z)
    by (intros y; destruct (julian_leap y); lia).
  pose proof (date_order year_start_julian
                (fun y => if julian_leap y then 29 else 28)%Z
                (fun c => 0 <= c)%Z F julian_gap
                (year d1) (month d1) (day d1) (year d2) (month d2) (day d2)) as H.
  cbv beta zeta in H.
  unfold Meeus.shift_year, Meeus.shift_month.
  enough (year_start_julian (if (month d1 <? 3)%Z then (year d1 - 1)%Z else year d1)
          + month_offset (if (month d1 <? 3)%Z then (month d1 + 12)%Z else month d1)
          + day d1
          < year_start_julian (if (month d2 <? 3)%Z then (year d2 - 1)%Z else year d2)
            + month_offset (if (month d2 <? 3)%Z then (month d2 + 12)%Z else month d2)
            + day d2)%Z by lia.
  apply H.
  - destruct (month d1 <? 3)%Z; lia.
  - apply R1.
  - split; [apply R1 | exact V].
  - apply R2.
  - apply R2.
  - unfold date_lt, lex_lt in L. lia.
Qed.

Lemma gregorian_order (d1 d2 : civil) :
  in_range d1 -> in_range d2 -> (1 <= year d1)%Z ->
  (day d1 <= month_length (if gregorian_leap (year d1) then 29 else 28) (month d1))%Z ->
  date_lt d1 d2 ->
  (day_number d1 + century_correction (Meeus.shift_year d1)
   < day_number d2 + century_correction (Meeus.shift_year d2))%Z.
Proof.
  intros R1 R2 Y V L. rewrite !day_number_parts.
  assert (F : forall y, (28 <= (if gregorian_leap y then 29 else 28) <= 29)%Z)
    by (intros y; destruct (gregorian_leap y); lia).
  pose proof (date_order year_start_gregorian
                (fun y => if gregorian_leap y then 29 else 28)%Z
                (fun c => 0 <= c)%Z F gregorian_gap
                (year d1) (month d1) (day d1) (year d2) (month d2) (day d2)) as H.
  cbv beta zeta in H.
  unfold Meeus.shift_year, Meeus.shift_month.
  unfold year_start_gregorian in H.
  enough (year_start_julian (if (month d1 <? 3)%Z then (year d1 - 1)%Z else year d1)
          + century_correction (if (month d1 <? 3)%Z then (year d1 - 1)%Z else year d1)
          + month_offset (if (month d1 <? 3)%Z then (month d1 + 12)%Z else month d1)
          + day d1
          < year_start_julian (if (month d2 <? 3)%Z then (year d2 - 1)%Z else year d2)
            + century_correction (if (month d2 <? 3)%Z then (year d2 - 1)%Z else year d2)
            + month_offset (if (month d2 <? 3)%Z then (month d2 + 12)%Z else month d2)
            + day d2)%Z by lia.
  apply H.
  - destruct (month d1 <? 3)%Z; lia.
  - apply R1.
  - split; [apply R1 | exact V].
  - apply R2.
  - apply R2.
  - unfold date_lt, lex_lt in L. lia.
Qed.

(** Unfolds the civil order and the ranges into linear arithmetic. *)
Ltac order_arith :=
  unfold in_gap, in_range, earlier, date_lt, same_date, key, lex_lt in *;
  cbn [year month day hour minute second microsecond] in *.

Lemma mixed_order (d1 d2 : civil) :
  in_range d1 -> in_range d2 -> (1 <= year d1)%Z ->
  ~ in_gap d1 -> ~ in_gap d2 ->
  (day d1 <= month_length
               (if (year d1 <=? 1582)%Z
                then (if julian_leap (year d1) then 29 else 28)
                else (if gregorian_leap (year d1) then 29 else 28))
               (month d1))%Z ->
  date_lt d1 d2 ->
  ((if (day_number d1 <? 2299160)%Z then day_number d1
    else day_number d1 + century_correction (Meeus.shift_year d1))
   < (if (day_number d2 <? 2299160)%Z then day_number d2
      else day_number d2 + century_correction (Meeus.shift_year d2)))%Z.
Proof.
  intros R1 R2 Y G1 G2 V L.
  pose proof (day_number_before_gap d1 R1) as B1.
  pose proof (day_number_before_gap d2 R2) as B2.
  pose proof (day_number_in_or_before_gap d1 R1) as A1.
  pose proof (day_number_in_or_before_gap d2 R2) as A2.
  set (cut := Civil 1582 10 15 0 0 0 0).
  assert (Rc : in_range cut) by (unfold in_range; cbn; lia).
  assert (Vc : (day cut <= month_length
                             (if gregorian_leap (year cut) then 29 else 28)
                             (month cut))%Z) by (vm_compute; discriminate).
  assert (Ec : (day_number cut + century_correction (Meeus.shift_year cut)
                = 2299160)%Z) by reflexivity.
  destruct (Z.ltb_spec (day_number d1) 2299160) as [J1 | J1];
    destruct (Z.ltb_spec (day_number d2) 2299160) as [J2 | J2].
  - apply julian_order; try assumption.
    assert (Y1 : (year d1 <= 1582)%Z)
      by (apply B1 in J1; clear - J1 R1; order_arith; lia).
    apply Z.leb_le in Y1. rewrite Y1 in V. exact V.
  - assert (C2 : date_lt cut d2 \/ same_date cut d2).
    { assert (N2 : ~ earlier d2 (Civil 1582 10 5 0 0 0 0)) by (rewrite <- B2; lia).
      assert (N3 : ~ earlier d2 cut) by (unfold in_gap in G2; tauto).
      clear - N3 R2. subst cut. order_arith. lia. }
    destruct C2 as [C2 | C2].
    + pose proof (gregorian_order cut d2 Rc R2 ltac:(cbn; lia) Vc C2). lia.
    + destruct C2 as (Ey & Em & Ed).
      unfold day_number, Meeus.shift_year, Meeus.shift_month in *.
      rewrite <- Ey, <- Em, <- Ed. lia.
  - exfalso.
    apply B2 in J2.
    assert (N1 : ~ earlier d1 (Civil 1582 10 5 0 0 0 0)) by (rewrite <- B1; lia).
    assert (N3 : ~ earlier d1 cut) by (unfold in_gap in G1; tauto).
    clear - J2 N3 L R1 R2. subst cut. order_arith. lia.
  - apply gregorian_order; try assumption.
    assert (N1 : ~ earlier d1 (Civil 1582 10 5 0 0 0 0)) by (rewrite <- B1; lia).
    assert (N3 : ~ earlier d1 cut) by (unfold in_gap in G1; tauto).
    assert (Y1 : (1582 <= year d1)%Z)
      by (clear - N3 R1; subst cut; order_arith; lia).
    destruct (Z.leb_spec (year d1) 1582) as [Le | Gt]; [|exact V].
    replace (year d1) with 1582%Z in * by lia. exact V.
Qed.

(** An earlier date of a calendar has fewer whole days, in the years
    from 1 on. *)
Lemma whole_days_order (calendar : string) (d1 d2 : civil) :
  In calendar _calendars ->
  valid_date calendar d1 -> valid_date calendar d2 ->
  (1 <= year d1)%Z ->
  date_lt d1 d2 ->
  (whole_days calendar d1 < whole_days calendar d2)%Z.
Proof.
  intros C (R1 & V1 & G1) (R2 & V2 & G2) Y L.
  unfold _calendars in C. each_member C;
    unfold whole_days, february in *;
    cbn [mem existsb String.eqb Ascii.eqb Bool.eqb orb] in *.
  - apply mixed_order; auto.
  - apply mixed_order; auto.
  - apply gregorian_order; assumption.
  - apply (fixed_order 365 28); try assumption; lia.
  - apply julian_order; assumption.
  - apply (fixed_order 366 29); try assumption; lia.
  - apply (fixed_order 365 28); try assumption; lia.
  - apply (fixed_order 366 29); try assumption; lia.
  - clear G1 G2. order_arith. lia.
Qed.

Lemma micros_whole_seconds (d : civil) :
  in_range d -> microsecond d = 0%Z ->
  exists k, micros d = (1000000 * k)%Z /\ (0 <= k <= 86399)%Z.
Proof.
  intros (_ & _ & Hh & Hm & Hs & _) U.
  exists (hour d * 3600 + minute d * 60 + second d)%Z.
  unfold micros. rewrite U. split; lia.
Qed.

(** X1.  The day count is strictly increasing in the civil order, in every
    calendar, on the dates of the calendar in the years 1 to 9999 that are
    given to the whole second: the day counts of two such dates differ by
    more than 10^-5 days.  The rounding error of a binary64 day count in
    these years is below 10^-8 days. *)
Theorem day_count_increasing (self : Utime.t) (d1 d2 : civil) (jd1 jd2 : Q) :
  valid_date (Utime.calendar self) d1 ->
  valid_date (Utime.calendar self) d2 ->
  (1 <= year d1)%Z -> (year d2 <= 9999)%Z ->
  microsecond d1 = 0%Z -> microsecond d2 = 0%Z ->
  earlier d1 d2 ->
  Utime.day_count self d1 = Ok jd1 ->
  Utime.day_count self d2 = Ok jd2 ->
  jd1 + (1 # 100000) <= jd2.
Proof.
  intros V1 V2 Y _ U1 U2 E H1 H2.
  assert (C : In (Utime.calendar self) _calendars).
  { unfold Utime.day_count in H1.
    destruct (mem (Utime.calendar self) ["julian"; _; _; _]) eqn:C1;
      [apply mem_cases in C1; unfold _calendars; cbn [In] in C1 |- *; tauto|].
    destruct (mem (Utime.calendar self) ["noleap"; _]) eqn:C2;
      [apply mem_cases in C2; unfold _calendars; cbn [In] in C2 |- *; tauto|].
    destruct (mem (Utime.calendar self) ["all_leap"; _]) eqn:C3;
      [apply mem_cases in C3; unfold _calendars; cbn [In] in C3 |- *; tauto|].
    destruct (Utime.calendar self =? "360_day") eqn:C4; [|discriminate].
    apply String.eqb_eq in C4. rewrite C4. do 8 right. left. reflexivity. }
  rewrite (day_count_parts self d1 jd1 V1 H1), (day_count_parts self d2 jd2 V2 H2).
  rewrite !time_of_day_micros.
  destruct (micros_whole_seconds d1 (proj1 V1) U1) as (k1 & M1 & K1).
  destruct (micros_whole_seconds d2 (proj1 V2) U2) as (k2 & M2 & K2).
  apply inject_Z_bounds in K1 as Q1. apply inject_Z_bounds in K2 as Q2.
  change (inject_Z 0) with 0 in Q1, Q2.
  change (inject_Z 86399) with 86399 in Q1, Q2.
  destruct (earlier_cases d1 d2 (proj1 V1) (proj1 V2) E) as [L | [S M]].
  - pose proof (whole_days_order _ d1 d2 C V1 V2 Y L) as W.
    assert (W' : (whole_days (Utime.calendar self) d1 + 1
                  <= whole_days (Utime.calendar self) d2)%Z) by lia.
    rewrite Zle_Qle, inject_Z_plus in W'. change (inject_Z 1) with 1 in W'.
    rewrite M1, M2, !inject_Z_mult.
    change (inject_Z 1000000) with 1000000. lra.
  - rewrite (whole_days_same_date _ d1 d2 S).
    assert (K : (k1 + 1 <= k2)%Z) by lia.
    rewrite Zle_Qle, inject_Z_plus in K. change (inject_Z 1) with 1 in K.
    rewrite M1, M2, !inject_Z_mult.
    change (inject_Z 1000000) with 1000000. lra.
Qed.

Lemma day_count_increasing_witness :
  exists jd1 jd2,
    Utime.day_count hours_since_2000 (Civil 1582 10 4 23 59 59 0) = Ok jd1 /\
    Utime.day_count hours_since_2000 (Civil 1582 10 15 0 0 0 0) = Ok jd2 /\
    jd1 + (1 # 100000) <= jd2.
Proof.
  assert (V1 : valid_date (Utime.calendar hours_since_2000)
                 (Civil 1582 10 4 23 59 59 0)).
  { unfold valid_date, in_range, in_gap, earlier, key, lex_lt. cbn.
    repeat split; lia. }
  assert (V2 : valid_date (Utime.calendar hours_since_2000)
                 (Civil 1582 10 15 0 0 0 0)).
  { unfold valid_date, in_range, in_gap, earlier, key, lex_lt. cbn.
    repeat split; lia. }
  assert (Y1 : (1 <= year (Civil 1582 10 4 23 59 59 0))%Z) by (cbn; lia).
  assert (Y2 : (year (Civil 1582 10 15 0 0 0 0) <= 9999)%Z) by (cbn; lia).
  assert (E : earlier (Civil 1582 10 4 23 59 59 0) (Civil 1582 10 15 0 0 0 0))
    by (unfold earlier, key, lex_lt; cbn; lia).
  do 2 eexists. split; [reflexivity|]. split; [reflexivity|].
  exact (day_count_increasing hours_since_2000 _ _ _ _ V1 V2 Y1 Y2
           eq_refl eq_refl E eq_refl eq_refl).
Defined.

(** ** Out-of-range queries through [time2index] *)

Lemma nth_in_series (nctime : list Q) (i : Z) :
  nctime <> [] ->
  In (nth (Z.to_nat (clipZ i 0 (Z.of_nat (List.length nctime) - 1))) nctime 0) nctime.
Proof.
  intros NE.
  assert (Npos : (0 < Z.of_nat (List.length nctime))%Z)
    by (destruct nctime; [contradiction | cbn; lia]).
  apply nth_In. unfold clipZ. lia.
Qed.

(** The guess for a query above the whole series is never accepted for
    'before', nor the guess for a query below it for 'after'. *)
Lemma check_before_above (nctime : list Q) (q : Q) (i : Z) :
  nctime <> [] ->
  (forall v, In v nctime -> v < q) ->
  _check_index [i] [q] nctime "before" = false.
Proof.
  intros NE Ab. unfold _check_index.
  cbn [map any existsb orb String.eqb Ascii.eqb Bool.eqb].
  destruct (i <? 0)%Z; [reflexivity|].
  destruct (Z.of_nat (List.length nctime) <=? i)%Z; [reflexivity|].
  unfold map2. cbn [combine map all forallb fst snd andb].
  pose proof (Ab _ (nth_in_series nctime (i + 1) NE)) as V.
  destruct (Qltb q _) eqn:E; [apply Qltb_lt in E; lra|].
  destruct (Qleb _ q); reflexivity.
Qed.

Lemma check_after_below (nctime : list Q) (q : Q) (i : Z) :
  nctime <> [] ->
  (forall v, In v nctime -> q < v) ->
  _check_index [i] [q] nctime "after" = false.
Proof.
  intros NE Be. unfold _check_index.
  cbn [map any existsb orb String.eqb Ascii.eqb Bool.eqb].
  destruct (i <? 0)%Z; [reflexivity|].
  destruct (Z.of_nat (List.length nctime) <=? i)%Z; [reflexivity|].
  unfold map2. cbn [combine map all forallb fst snd andb].
  pose proof (Be _ (nth_in_series nctime (i - 1) NE)) as V.
  destruct (Qltb _ q) eqn:E; [apply Qltb_lt in E; lra|].
  destruct (Qleb q _); reflexivity.
Qed.

Lemma guess_index_single (nctime : list Q) (q : Q) (select : string) :
  nctime <> [] -> exists i, guess_index [q] nctime select = Ok [i].
Proof.
  intros NE. unfold guess_index.
  destruct nctime as [|t0 [|t1 rest]]; [contradiction | |]; cbn [bind];
    destruct (mem select _); try destruct (select =? "after");
    eexists; reflexivity.
Qed.

(** X2.  [time2index] itself, on one query out of the range of a series
    that is not empty: 'before' gives the last index for a query above
    every value, 'after' gives index 0 for a query below every value. *)
Theorem time2index_clamps (nctime : list Q) (q : Q) :
  nctime <> [] ->
  ((forall v, In v nctime -> v < q) ->
   time2index [q] nctime "before"
   = Ok (Scalar (Z.of_nat (List.length nctime) - 1))) /\
  ((forall v, In v nctime -> q < v) ->
   time2index [q] nctime "after" = Ok (Scalar 0)).
Proof.
  intros NE. split; intros H; unfold time2index.
  - destruct (guess_index_single nctime q "before" NE) as [i ->]. cbn [bind].
    rewrite (check_before_above nctime q i NE H). cbn [negb].
    rewrite (bisection_before_above nctime q NE H). reflexivity.
  - destruct (guess_index_single nctime q "after" NE) as [i ->]. cbn [bind].
    rewrite (check_after_below nctime q i NE H). cbn [negb].
    rewrite (bisection_after_below nctime q NE H). reflexivity.
Qed.

Lemma time2index_clamps_witness :
  time2index [100] [0; 5; 6; 20] "before"
  = Ok (Scalar (Z.of_nat (List.length [0; 5; 6; 20]) - 1)) /\
  time2index [-1] [0; 5; 6; 20] "after" = Ok (Scalar 0).
Proof.
  assert (NE : [0; 5; 6; 20] <> []) by discriminate.
  split.
  - apply (proj1 (time2index_clamps [0; 5; 6; 20] 100 NE)).
    intros v [<- | [<- | [<- | [<- | []]]]]; reflexivity.
  - apply (proj2 (time2index_clamps [0; 5; 6; 20] (-1) NE)).
    intros v [<- | [<- | [<- | [<- | []]]]]; reflexivity.
Defined.

(** ** Round trip in the fixed-length calendars *)

Lemma Qfloor_between (x : Q) (n : Z) :
  inject_Z n <= x -> x < inject_Z n + 1 -> Qfloor x = n.
Proof.
  intros Lo Hi.
  pose proof (Qfloor_le x) as F1. pose proof (Qlt_floor x) as F2.
  rewrite inject_Z_plus in F2. change (inject_Z 1) with 1 in F2.
  assert (A : inject_Z (Qfloor x) < inject_Z (n + 1))
    by (rewrite inject_Z_plus; change (inject_Z 1) with 1; lra).
  assert (B : inject_Z n < inject_Z (Qfloor x + 1))
    by (rewrite inject_Z_plus; change (inject_Z 1) with 1; lra).
  rewrite <- Zlt_Qlt in A, B. lia.
Qed.

(** A number that is a whole number and a fraction of one truncates to the
    whole number. *)
Lemma trunc_whole_part (x : Q) (n : Z) (t : Q) :
  (0 <= n)%Z -> 0 <= t < 1 -> x == inject_Z n + t -> trunc x = n.
Proof.
  intros N T E.
  assert (P : 0 <= inject_Z n) by (rewrite Zle_Qle in N; exact N).
  rewrite trunc_floor by lra.
  apply Qfloor_between; lra.
Qed.

Lemma time_of_day_parts (d : civil) :
  in_range d ->
  let t2 := inject_Z (minute d) * (1 # 60)
            + (inject_Z (second d) + inject_Z (microsecond d) * (1 # 1000000))
              * (1 # 3600) in
  let t3 := (inject_Z (second d) + inject_Z (microsecond d) * (1 # 1000000))
            * (1 # 60) in
  let t4 := inject_Z (microsecond d) * (1 # 1000000) in
  time_of_day d * 24 == inject_Z (hour d) + t2 /\ 0 <= t2 < 1 /\
  t2 * 60 == inject_Z (minute d) + t3 /\ 0 <= t3 < 1 /\
  t3 * 60 == inject_Z (second d) + t4 /\ 0 <= t4 < 1 /\
  t4 * 1000000 == inject_Z (microsecond d).
Proof.
  intros (_ & _ & Hh & Hm & Hs & Hu).
  apply inject_Z_bounds in Hh, Hm, Hs, Hu.
  change (inject_Z 0) with 0 in *. change (inject_Z 23) with 23 in *.
  change (inject_Z 59) with 59 in *. change (inject_Z 999999) with 999999 in *.
  unfold time_of_day, fractional_day. div_consts. cbv zeta.
  repeat split; lra.
Qed.

(** The chain of [math.modf] gives back the day and the time of day. *)
Lemma split_day_exact (x : Q) (d : civil) :
  in_range d ->
  x == inject_Z (day d) + time_of_day d ->
  Fixed.split_day x
  = (day d, hour d, minute d, second d, microsecond d).
Proof.
  intros R E.
  pose proof (time_of_day_range d R) as T1.
  destruct (time_of_day_parts d R) as (E2 & T2 & E3 & T3 & E4 & T4 & E5).
  cbv zeta in *.
  set (t2 := inject_Z (minute d) * (1 # 60) + _) in *.
  set (t3 := (inject_Z (second d) + _) * (1 # 60)) in *.
  set (t4 := inject_Z (microsecond d) * (1 # 1000000)) in *.
  destruct R as (_ & Rd & Rh & Rm & Rs & Ru).
  unfold Fixed.split_day, modf.
  assert (D : trunc (x / 1) = day d).
  { apply (trunc_whole_part _ _ (time_of_day d)); [lia | exact T1|].
    div_consts. lra. }
  rewrite D.
  assert (F1 : x / 1 - inject_Z (day d) == time_of_day d) by (div_consts; lra).
  assert (H : trunc ((x / 1 - inject_Z (day d)) * 24) = hour d).
  { apply (trunc_whole_part _ _ t2); [lia | exact T2|]. rewrite F1. exact E2. }
  rewrite H.
  assert (F2 : (x / 1 - inject_Z (day d)) * 24 - inject_Z (hour d) == t2)
    by (rewrite F1; lra).
  assert (M : trunc (((x / 1 - inject_Z (day d)) * 24 - inject_Z (hour d)) * 60)
              = minute d).
  { apply (trunc_whole_part _ _ t3); [lia | exact T3|]. rewrite F2. exact E3. }
  rewrite M.
  assert (F3 : ((x / 1 - inject_Z (day d)) * 24 - inject_Z (hour d)) * 60
               - inject_Z (minute d) == t3) by (rewrite F2; lra).
  assert (S : trunc ((((x / 1 - inject_Z (day d)) * 24 - inject_Z (hour d)) * 60
                      - inject_Z (minute d)) * 60) = second d).
  { apply (trunc_whole_part _ _ t4); [lia | exact T4|]. rewrite F3. exact E4. }
  rewrite S.
  assert (F4 : (((x / 1 - inject_Z (day d)) * 24 - inject_Z (hour d)) * 60
                - inject_Z (minute d)) * 60 - inject_Z (second d) == t4)
    by (rewrite F3; lra).
  assert (U : trunc (((((x / 1 - inject_Z (day d)) * 24 - inject_Z (hour d)) * 60
                       - inject_Z (minute d)) * 60 - inject_Z (second d))
                     * 1000000) = microsecond d).
  { apply (trunc_whole_part _ _ 0); [lia | lra|]. rewrite F4. lra. }
  rewrite U. reflexivity.
Qed.

Lemma Qltb_nonneg (x : Q) : 0 <= x -> Qltb x 0 = false.
Proof.
  intros P. destruct (Qltb x 0) eqn:E; [|reflexivity].
  apply Qltb_lt in E. lra.
Qed.

(** [_DateFrom360Day] on a day count equal to the one of a date. *)
Lemma from_360_day_exact (JD : Q) (d : civil) :
  in_range d -> (day d <= 30)%Z -> (-4716 <= year d)%Z ->
  JD == _360DayFromDate d ->
  _DateFrom360Day JD
  = Ok (datetime (year d) (month d) (day d) (hour d) (minute d) (second d)
                 (microsecond d) (-1) (30 * (month d - 1) + day d)).
Proof.
  intros R D30 Y EQ.
  pose proof (day360_split d) as E. rewrite <- EQ in E.
  pose proof (time_of_day_range d R) as T.
  set (W := (360 * (year d + 4716) + 30 * (month d - 1) + day d)%Z) in *.
  assert (RR := R). destruct RR as (Rm & Rd & _).
  assert (Wpos : (0 <= W)%Z) by (subst W; lia).
  assert (Wq : 0 <= inject_Z W) by (rewrite Zle_Qle in Wpos; exact Wpos).
  unfold _DateFrom360Day. rewrite Qltb_nonneg by lra.
  unfold modf. cbv beta iota zeta.
  assert (TW : trunc JD = W)
    by (apply (trunc_whole_part _ _ (time_of_day d)); [exact Wpos | exact T | lra]).
  rewrite TW.
  assert (TY : trunc ((inject_Z W - (1 # 2)) / 360) = (year d + 4716)%Z).
  { apply (trunc_whole_part _ _
             ((inject_Z (30 * (month d - 1) + day d) - (1 # 2)) * (1 # 360)));
      [lia | |].
    - assert (B : (1 <= 30 * (month d - 1) + day d <= 360)%Z) by lia.
      apply inject_Z_bounds in B.
      change (inject_Z 1) with 1 in B. change (inject_Z 360) with 360 in B.
      lra.
    - subst W. repeat (rewrite inject_Z_plus || rewrite inject_Z_mult).
      change (inject_Z 360) with 360. change (inject_Z 30) with 30.
      div_consts. lra. }
  rewrite TY.
  replace (year d + 4716 - 4716)%Z with (year d) by lia.
  replace (W - (year d + 4716) * 360)%Z
    with (30 * (month d - 1) + day d)%Z by (subst W; lia).
  assert (TM : trunc ((inject_Z (30 * (month d - 1) + day d) - (1 # 2)) / 30)
               = (month d - 1)%Z).
  { apply (trunc_whole_part _ _ ((inject_Z (day d) - (1 # 2)) * (1 # 30)));
      [lia | |].
    - assert (B : (1 <= day d <= 30)%Z) by lia.
      apply inject_Z_bounds in B.
      change (inject_Z 1) with 1 in B. change (inject_Z 30) with 30 in B.
      lra.
    - repeat (rewrite inject_Z_plus || rewrite inject_Z_mult).
      change (inject_Z 30) with 30. div_consts. lra. }
  rewrite TM.
  replace (month d - 1 + 1)%Z with (month d) by lia.
  replace (30 * (month d - 1) + day d - (month d - 1) * 30)%Z
    with (day d) by lia.
  rewrite (split_day_exact _ d R) by lra.
  reflexivity.
Qed.

(** X3.  The 360-day calendar on whole days: for a date at 00:00:00 with
    a day up to 30, in the years -4716 to 9999, [_DateFrom360Day] gives
    back the date [_360DayFromDate] was given, with day of the week -1 and
    its day of the year.  On these dates the day count is a whole number,
    and each float operation of the two functions is exact or feeds a
    truncation that its rounding does not change. *)
Theorem round_trip_360_day (d : civil) :
  in_range d -> midnight d -> (day d <= 30)%Z ->
  (-4716 <= year d <= 9999)%Z ->
  _DateFrom360Day (_360DayFromDate d)
  = Ok (datetime (year d) (month d) (day d) 0 0 0 0
                 (-1) (30 * (month d - 1) + day d)).
Proof.
  intros R (Hh & Hm & Hs & Hu) D30 [Y _].
  rewrite (from_360_day_exact _ d R D30 Y) by reflexivity.
  rewrite Hh, Hm, Hs, Hu. reflexivity.
Qed.

Lemma round_trip_360_day_witness :
  _DateFrom360Day (_360DayFromDate (Civil 2000 12 30 0 0 0 0))
  = Ok (datetime 2000 12 30 0 0 0 0 (-1) 360).
Proof.
  apply (round_trip_360_day (Civil 2000 12 30 0 0 0 0)).
  - unfold in_range; cbn; lia.
  - repeat split.
  - cbn; lia.
  - cbn; lia.
Defined.

(** Twelve goals, one for every month. *)
Ltac month_cases m :=
  let H := fresh in
  assert (H : (m = 1 \/ m = 2 \/ m = 3 \/ m = 4 \/ m = 5 \/ m = 6 \/
               m = 7 \/ m = 8 \/ m = 9 \/ m = 10 \/ m = 11 \/ m = 12)%Z) by lia;
  destruct H as [H | [H | [H | [H | [H | [H | [H | [H | [H | [H | [H | H]]]]]]]]]]];
  rewrite H in *.

(** The month comes back from the days since the start of the year that
    begins in March. *)
Lemma month_from_offset (m d : Z) :
  (1 <= m <= 12)%Z -> (1 <= d <= month_length 29 m)%Z ->
  Z.quot (10000 * (month_offset (if (m <? 3)%Z then (m + 12)%Z else m) + d)) 306001
  = ((if (m <? 3)%Z then (m + 12)%Z else m) + 1)%Z.
Proof.
  intros M D. unfold month_offset.
  month_cases m; cbn in D;
    cbv beta iota delta [Z.ltb Z.compare Pos.compare Pos.compare_cont];
    Z.quot_rem_to_equations; lia.
Qed.

Lemma month_offset_range (m : Z) :
  (1 <= m <= 12)%Z ->
  (122 <= month_offset (if (m <? 3)%Z then (m + 12)%Z else m) <= 459)%Z /\
  (m <> 2 ->
   month_offset (if (m <? 3)%Z then (m + 12)%Z else m) + month_length 29 m
   <= 459)%Z /\
  (m = 2 -> month_offset (if (m <? 3)%Z then (m + 12)%Z else m) = 459)%Z.
Proof.
  intros M. unfold month_offset, month_length.
  month_cases m; cbn; repeat split; intros; lia.
Qed.

Section FixedRoundTrip.

Variable ylen feb : Z.
Variable all_leap : bool.
Hypothesis feb_range : (28 <= feb <= 29)%Z.
Hypothesis ylen_eq : (ylen = 337 + feb)%Z.

Lemma fixed_from_day_exact (JD : Q) (d : civil) :
  in_range d -> (day d <= month_length feb (month d))%Z ->
  (-4711 <= year d)%Z ->
  JD == fixed_day_count ylen d ->
  exists o, Fixed.from_day ylen all_leap JD = Ok o /\ fields o = d.
Proof.
  intros R V Y EQ.
  pose proof (fixed_split ylen d) as E. fold (fixed_day_count ylen d) in E.
  rewrite <- EQ in E.
  pose proof (time_of_day_range d R) as T.
  set (K := (Meeus.shift_year d + 4716)%Z) in *.
  set (mo := month_offset (Meeus.shift_month d)) in *.
  assert (RR := R). destruct RR as (Rm & Rd & _).
  destruct (month_offset_range (month d) Rm) as (MO & MO1 & MO2).
  fold (Meeus.shift_month d) in MO, MO1, MO2. fold mo in MO, MO1, MO2.
  assert (V29 : (day d <= month_length 29 (month d))%Z).
  { unfold month_length in *. destruct (month d =? 2)%Z; lia. }
  assert (DY : (123 <= mo + day d <= 459 + feb)%Z).
  { split; [lia|].
    destruct (Z.eq_dec (month d) 2) as [M2 | M2].
    - specialize (MO2 M2). unfold month_length in V. rewrite M2 in V.
      cbn in V. lia.
    - specialize (MO1 M2). lia. }
  assert (Kpos : (4 <= K)%Z).
  { subst K. unfold Meeus.shift_year. destruct (month d <? 3)%Z; lia. }
  set (W := (ylen * K + mo + day d)%Z) in *.
  assert (Wlow : (1583 <= W)%Z) by (subst W; nia).
  assert (Wq : 1583 <= inject_Z W)
    by (rewrite Zle_Qle in Wlow; exact Wlow).
  unfold Fixed.from_day. rewrite Qltb_nonneg by lra.
  unfold modf. cbv beta iota zeta.
  assert (TZ : trunc (JD + (1 # 2)) = (W - 1524)%Z).
  { apply (trunc_whole_part _ _ (time_of_day d)); [lia | exact T|].
    unfold Z.sub. rewrite inject_Z_plus, inject_Z_opp.
    change (inject_Z 1524) with 1524. lra. }
  rewrite TZ.
  replace (W - 1524 + 1524)%Z with W by lia.
  assert (Ypos : 0 < inject_Z ylen).
  { assert (P : (1 <= ylen)%Z) by lia. rewrite Zle_Qle in P.
    change (inject_Z 1) with 1 in P. lra. }
  assert (TC : trunc ((inject_Z W - (1221 # 10)) / inject_Z ylen) = K).
  { apply (trunc_whole_part _ _
             ((inject_Z (mo + day d) - (1221 # 10)) / inject_Z ylen)); [lia | |].
    - assert (B : (123 <= mo + day d <= ylen + 122)%Z) by lia.
      apply inject_Z_bounds in B. rewrite !inject_Z_plus in B.
      change (inject_Z 123) with 123 in B. change (inject_Z 122) with 122 in B.
      rewrite inject_Z_plus.
      split.
      + apply Qle_shift_div_l; [exact Ypos | lra].
      + apply Qlt_shift_div_r; [exact Ypos | lra].
    - subst W. repeat (rewrite inject_Z_plus || rewrite inject_Z_mult).
      field. lra. }
  rewrite TC. rewrite trunc_times.
  replace (W - ylen * K)%Z with (mo + day d)%Z by (subst W; lia).
  assert (TE : trunc (inject_Z (mo + day d) / (306001 # 10000))
               = (Meeus.shift_month d + 1)%Z).
  { rewrite (trunc_frac _ (10000 * (mo + day d)) 306001).
    - subst mo. unfold Meeus.shift_month.
      apply month_from_offset; lia.
    - rewrite (Qmake_Qdiv (10000 * (mo + day d)) 306001), inject_Z_mult.
      rewrite (Qmake_Qdiv 306001 10000).
      change (inject_Z 10000) with 10000.
      change (inject_Z (Zpos 306001)) with 306001.
      change (inject_Z (Zpos 10000)) with 10000.
      field. }
  rewrite TE. rewrite trunc_scale.
  fold (month_offset (Meeus.shift_month d)). fold mo.
  replace (mo + day d - mo)%Z with (day d) by lia.
  assert (IW : inject_Z (W - 1524) == inject_Z W - 1524).
  { unfold Z.sub. rewrite inject_Z_plus, inject_Z_opp.
    change (inject_Z 1524) with 1524. lra. }
  rewrite (split_day_exact _ d R) by lra.
  eexists. split; [reflexivity|].
  unfold datetime, fields. destruct d as [y m dd h mi s us].
  cbn [year month day hour minute second microsecond] in *.
  subst K. unfold Meeus.shift_year, Meeus.shift_month.
  cbn [year month day hour minute second microsecond].
  destruct (Z.ltb_spec m 3).
  - destruct (Z.ltb_spec (m + 12 + 1) 14); [lia|].
    replace (m + 12 + 1 - 13)%Z with m by lia.
    destruct (Z.ltb_spec 2 m); [lia|].
    f_equal. lia.
  - destruct (Z.ltb_spec (m + 1) 14); [|lia].
    replace (m + 1 - 1)%Z with m by lia.
    destruct (Z.ltb_spec 2 m); [|lia].
    f_equal. lia.
Qed.

Lemma fixed_round_trip (d : civil) :
  in_range d -> (day d <= month_length feb (month d))%Z ->
  (-4711 <= year d)%Z ->
  exists o,
    Fixed.from_day ylen all_leap (fixed_day_count ylen d) = Ok o /\ fields o = d.
Proof.
  intros R V Y. apply fixed_from_day_exact; try assumption. reflexivity.
Qed.

End FixedRoundTrip.

(** X4.  The calendar without leap years on whole days: for a date of
    the calendar at 00:00:00, in the years -4711 to 9999,
    [_DateFromNoLeapDay] gives back the fields of the date
    [_NoLeapDayFromDate] was given.  On these dates the day count is a
    whole number and a half, and each float operation of the two functions
    is exact or feeds a truncation that its rounding does not change. *)
Theorem round_trip_noleap (d : civil) :
  in_range d -> midnight d -> (day d <= month_length 28 (month d))%Z ->
  (-4711 <= year d <= 9999)%Z ->
  exists o, _DateFromNoLeapDay (_NoLeapDayFromDate d) = Ok o /\ fields o = d.
Proof.
  intros R _ V [Y _]. unfold _DateFromNoLeapDay, _NoLeapDayFromDate.
  change 365 with (inject_Z 365).
  apply (fixed_round_trip 365 28 false); try assumption; lia.
Qed.

(** X5.  The calendar with a leap day in every year on whole days: for a
    date of the calendar at 00:00:00, in the years -4711 to 9999,
    [_DateFromAllLeap] gives back the fields of the date
    [_AllLeapFromDate] was given. *)
Theorem round_trip_all_leap (d : civil) :
  in_range d -> midnight d -> (day d <= month_length 29 (month d))%Z ->
  (-4711 <= year d <= 9999)%Z ->
  exists o, _DateFromAllLeap (_AllLeapFromDate d) = Ok o /\ fields o = d.
Proof.
  intros R _ V [Y _]. unfold _DateFromAllLeap, _AllLeapFromDate.
  change 366 with (inject_Z 366).
  apply (fixed_round_trip 366 29 true); try assumption; lia.
Qed.

Lemma round_trip_noleap_witness :
  exists o,
    _DateFromNoLeapDay (_NoLeapDayFromDate (Civil 2001 2 28 0 0 0 0))
    = Ok o /\
    fields o = Civil 2001 2 28 0 0 0 0.
Proof.
  apply (round_trip_noleap (Civil 2001 2 28 0 0 0 0)).
  - unfold in_range; cbn; lia.
  - repeat split.
  - cbn; lia.
  - cbn; lia.
Defined.

Lemma round_trip_all_leap_witness :
  exists o,
    _DateFromAllLeap (_AllLeapFromDate (Civil 2001 2 29 0 0 0 0))
    = Ok o /\
    fields o = Civil 2001 2 29 0 0 0 0.
Proof.
  apply (round_trip_all_leap (Civil 2001 2 29 0 0 0 0)).
  - unfold in_range; cbn; lia.
  - repeat split.
  - cbn; lia.
  - cbn; lia.
Defined.

(** ** What the index returned by [time2index] stands for *)

Lemma all_map {A : Type} (h : A -> bool) (l : list A) :
  all (map h l) = forallb h l.
Proof. induction l; simpl; [reflexivity|]. now rewrite <- IHl. Qed.

Lemma existsb_false_all {A : Type} (f : A -> bool) (l : list A) (x : A) :
  existsb f l = false -> In x l -> f x = false.
Proof.
  intros E I. destruct (f x) eqn:F; [|reflexivity].
  rewrite (existsb_witness f l x I F) in E. discriminate.
Qed.

Lemma to_list_toscalar (l : list Z) : to_list (_toscalar l) = l.
Proof. destruct l as [|i [|j l]]; reflexivity. Qed.

Lemma item_nth (a : list Q) (i : Z) :
  (0 <= i)%Z -> item a i = nth (Z.to_nat i) a 0.
Proof. intros P. unfold item. destruct (Z.ltb_spec i 0); [lia | reflexivity]. Qed.

Lemma Forall2_map_in {A B : Type} (R : A -> B -> Prop) (f : A -> B) (l : list A) :
  (forall a, In a l -> R a (f a)) -> Forall2 R l (map f l).
Proof.
  induction l as [|a l IH]; intros H; simpl; constructor.
  - apply H. left. reflexivity.
  - apply IH. intros x Hx. apply H. right. exact Hx.
Qed.

Lemma guess_index_map (num nctime : list Q) (select : string) (idx : list Z) :
  guess_index num nctime select = Ok idx ->
  nctime <> [] /\ exists g, idx = map g num.
Proof.
  unfold guess_index.
  destruct nctime as [|t0 [|t1 rest]]; [discriminate | |]; cbn [bind];
    destruct (mem select _); try destruct (select =? "after");
    intros H; injection H as <-;
    (split; [discriminate | eexists; reflexivity]).
Qed.

(** The two ways [time2index] comes to its result: the guess, accepted by
    [_check_index], or the bisection method. *)
Lemma time2index_paths (times nctime : list Q) (select : string) (r : indices) :
  time2index times nctime select = Ok r ->
  nctime <> [] /\
  exists idx,
    r = _toscalar idx /\
    ((exists g, idx = map g times /\
                _check_index (map g times) times nctime select = true) \/
     bisection times nctime select = Ok idx).
Proof.
  unfold time2index.
  destruct (guess_index times nctime select) as [idx|e] eqn:G; [|discriminate].
  cbn [bind]. destruct (guess_index_map _ _ _ _ G) as [NE [g ->]].
  intros T. split; [exact NE|]. revert T.
  destruct (_check_index (map g times) times nctime select) eqn:C; cbn [negb bind].
  - intros H; injection H as <-. eexists. split; [reflexivity|].
    left. exists g. split; [reflexivity | exact C].
  - destruct (bisection times nctime select) as [idx|e] eqn:B; [|discriminate].
    cbn [bind]. intros H; injection H as <-. eexists. split; [reflexivity|].
    right. reflexivity.
Qed.

(** What an accepted guess has been checked for. *)
Lemma check_in_range (g : Q -> Z) (times nctime : list Q) (select : string) :
  _check_index (map g times) times nctime select = true ->
  forall q, In q times -> (0 <= g q < Z.of_nat (List.length nctime))%Z.
Proof.
  unfold _check_index. rewrite !map_map, !any_map.
  destruct (existsb _ times) eqn:E1; [discriminate|].
  destruct (existsb (fun x => (Z.of_nat (List.length nctime) <=? g x)%Z) times) eqn:E2;
    [discriminate|].
  intros _ q I.
  pose proof (existsb_false_all _ _ q E1 I) as L. cbv beta in L.
  pose proof (existsb_false_all _ _ q E2 I) as U. cbv beta in U.
  apply Z.ltb_ge in L. apply Z.leb_gt in U. lia.
Qed.

Lemma check_exact (g : Q -> Z) (times nctime : list Q) :
  _check_index (map g times) times nctime "exact" = true ->
  forall q, In q times -> item nctime (g q) == q.
Proof.
  intros C q I. pose proof (check_in_range g times nctime "exact" C q I) as R.
  revert C. unfold _check_index. rewrite !map_map, !any_map.
  destruct (existsb _ times); [discriminate|].
  destruct (existsb _ times); [discriminate|].
  cbn [String.eqb Ascii.eqb Bool.eqb]. rewrite map2_map_l, all_map.
  intros F. rewrite forallb_forall in F. specialize (F q I). cbv beta in F.
  rewrite item_nth by lia. apply Qeq_bool_iff. exact F.
Qed.

Lemma check_before (g : Q -> Z) (times nctime : list Q) :
  _check_index (map g times) times nctime "before" = true ->
  forall q, In q times ->
    item nctime (g q) <= q /\
    ((g q + 1 < Z.of_nat (List.length nctime))%Z -> q < item nctime (g q + 1)).
Proof.
  intros C q I. pose proof (check_in_range g times nctime "before" C q I) as R.
  revert C. unfold _check_index. rewrite !map_map, !any_map.
  destruct (existsb _ times); [discriminate|].
  destruct (existsb _ times); [discriminate|].
  cbn [String.eqb Ascii.eqb Bool.eqb]. rewrite !map2_map_l, !all_map.
  intros F. apply andb_true_iff in F. destruct F as [F1 F2].
  rewrite forallb_forall in F1, F2.
  specialize (F1 q I). specialize (F2 q I). cbv beta in F1, F2.
  rewrite !item_nth by lia. split.
  - apply Qleb_le. exact F1.
  - intros N1. apply Qltb_lt in F2.
    replace (clipZ (g q + 1) 0 (Z.of_nat (List.length nctime) - 1))
      with (g q + 1)%Z in F2 by (unfold clipZ; lia).
    exact F2.
Qed.

Lemma check_after (g : Q -> Z) (times nctime : list Q) :
  _check_index (map g times) times nctime "after" = true ->
  forall q, In q times ->
    q <= item nctime (g q) /\
    ((0 < g q)%Z -> item nctime (g q - 1) < q).
Proof.
  intros C q I. pose proof (check_in_range g times nctime "after" C q I) as R.
  revert C. unfold _check_index. rewrite !map_map, !any_map.
  destruct (existsb _ times); [discriminate|].
  destruct (existsb _ times); [discriminate|].
  cbn [String.eqb Ascii.eqb Bool.eqb]. rewrite !map2_map_l, !all_map.
  intros F. apply andb_true_iff in F. destruct F as [F1 F2].
  rewrite forallb_forall in F1, F2.
  specialize (F1 q I). specialize (F2 q I). cbv beta in F1, F2.
  rewrite !item_nth by lia. split.
  - apply Qleb_le. exact F1.
  - intros N1. apply Qltb_lt in F2.
    replace (clipZ (g q - 1) 0 (Z.of_nat (List.length nctime) - 1))
      with (g q - 1)%Z in F2 by (unfold clipZ; lia).
    rewrite item_nth by lia. exact F2.
Qed.

(** The insertion points, whatever the order of the series: the value to
    the left of the left one is below the query and the value at it is
    not; the value to the left of the right one is not above the query
    and the value at it is. *)
Lemma bisect_left_post (a : list Q) (x : Q) :
  ((0 < Bisect.bisect_left a x)%Z -> item a (Bisect.bisect_left a x - 1) < x) /\
  ((Bisect.bisect_left a x < Z.of_nat (List.length a))%Z ->
   ~ item a (Bisect.bisect_left a x) < x).
Proof.
  destruct (BisectFacts.left_loop_post a x (List.length a) 0 (List.length a))
    as [P1 P2]; [lia | lia |].
  unfold Bisect.bisect_left.
  set (l := Bisect.left_loop (List.length a) a x 0 (List.length a)) in *.
  split; intros H.
  - rewrite item_nth by lia.
    replace (Z.to_nat (Z.of_nat l - 1)) with (l - 1)%nat by lia.
    apply P1. lia.
  - rewrite item_nth by lia. rewrite Nat2Z.id. apply P2. lia.
Qed.

Lemma bisect_right_post (a : list Q) (x : Q) :
  ((0 < Bisect.bisect_right a x)%Z ->
   ~ x < item a (Bisect.bisect_right a x - 1)) /\
  ((Bisect.bisect_right a x < Z.of_nat (List.length a))%Z ->
   x < item a (Bisect.bisect_right a x)).
Proof.
  destruct (BisectFacts.right_loop_post a x (List.length a) 0 (List.length a))
    as [P1 P2]; [lia | lia |].
  unfold Bisect.bisect_right.
  set (r := Bisect.right_loop (List.length a) a x 0 (List.length a)) in *.
  split; intros H.
  - rewrite item_nth by lia.
    replace (Z.to_nat (Z.of_nat r - 1)) with (r - 1)%nat by lia.
    apply P1. lia.
  - rewrite item_nth by lia. rewrite Nat2Z.id. apply P2. lia.
Qed.

Lemma ascending_item (a : list Q) (i j : Z) :
  ascending a -> (0 <= i <= j)%Z -> (j < Z.of_nat (List.length a))%Z ->
  item a i <= item a j.
Proof.
  intros As R U. rewrite !item_nth by lia. apply As. lia.
Qed.

Lemma strictly_ascending_item (a : list Q) (i j : Z) :
  strictly_ascending a -> (0 <= i < j)%Z -> (j < Z.of_nat (List.length a))%Z ->
  item a i < item a j.
Proof.
  intros As R U. rewrite !item_nth by lia. apply As. lia.
Qed.

Lemma strictly_ascending_weak (a : list Q) :
  strictly_ascending a -> ascending a.
Proof.
  intros S j k R. destruct (Nat.eq_dec j k) as [-> | NE]; [apply Qle_refl|].
  apply Qlt_le_weak. apply S. lia.
Qed.

(** In an ascending series a query below the first value has its right
    insertion point at the start. *)
Lemma bisect_right_before_first (a : list Q) (x : Q) :
  a <> [] -> ascending a -> x < item a 0 -> Bisect.bisect_right a x = 0%Z.
Proof.
  intros NE As B.
  destruct (bisect_right_post a x) as [P _].
  pose proof (bisect_right_range a x) as R.
  destruct (Z.eq_dec (Bisect.bisect_right a x) 0) as [E | N]; [exact E|].
  exfalso. apply P; [lia|].
  pose proof (ascending_item a 0 (Bisect.bisect_right a x - 1) As ltac:(lia) ltac:(lia)).
  lra.
Qed.

Lemma Qeqb_true (a b : Q) : Qeqb a b = true <-> a == b.
Proof. apply Qeq_bool_iff. Qed.

Lemma series_length_pos (nctime : list Q) :
  nctime <> [] -> (0 < Z.of_nat (List.length nctime))%Z.
Proof. destruct nctime; [contradiction | cbn; lia]. Qed.

(** What the bisection method has made sure of when it returns. *)
Lemma bisection_exact_ok (num nctime : list Q) (idx : list Z) :
  nctime <> [] ->
  bisection num nctime "exact" = Ok idx ->
  idx = map (Bisect.bisect_left nctime) num /\
  forall q, In q num ->
    (Bisect.bisect_left nctime q < Z.of_nat (List.length nctime))%Z /\
    item nctime (Bisect.bisect_left nctime q) == q.
Proof.
  intros NE. rewrite (bisection_elementwise num nctime "exact" NE).
  cbn [mem existsb String.eqb Ascii.eqb Bool.eqb orb andb].
  destruct (existsb _ num) eqn:E1; [discriminate|].
  destruct (existsb (fun q => (Bisect.bisect_left nctime q =? _)%Z) num) eqn:E2;
    [discriminate|].
  destruct (existsb (fun q => negb _) num) eqn:E3; [discriminate|].
  intros H; injection H as <-.
  assert (F : forall q, In q num ->
                (Bisect.bisect_left nctime q < Z.of_nat (List.length nctime))%Z /\
                item nctime (Bisect.bisect_left nctime q) == q /\
                settle nctime "exact" q = Bisect.bisect_left nctime q).
  { intros q I.
    pose proof (existsb_false_all _ _ q E1 I) as B1.
    pose proof (existsb_false_all _ _ q E2 I) as B2.
    pose proof (existsb_false_all _ _ q E3 I) as B3.
    cbv beta in B1, B2, B3.
    pose proof (bisect_left_range nctime q) as R.
    apply Z.eqb_neq in B2.
    unfold candidate in B3. unfold settle, candidate.
    cbn [String.eqb Ascii.eqb Bool.eqb]. rewrite B1.
    destruct (Z.eqb_spec (Bisect.bisect_left nctime q)
                         (Z.of_nat (List.length nctime))); [contradiction|].
    apply negb_false_iff, Qeqb_true in B3.
    repeat split; [lia | exact B3]. }
  split.
  - apply map_ext_in. intros q I. apply F. exact I.
  - intros q I. destruct (F q I) as (A & B & _). split; assumption.
Qed.

Lemma exact_result (times nctime : list Q) (r : indices) :
  time2index times nctime "exact" = Ok r ->
  Forall2 (fun q i => (0 <= i < Z.of_nat (List.length nctime))%Z /\
                      item nctime i == q)
          times (to_list r).
Proof.
  intros T. destruct (time2index_paths _ _ _ _ T) as (NE & idx & -> & [P | P]).
  - destruct P as (g & -> & C). rewrite to_list_toscalar.
    apply Forall2_map_in. intros q I. split.
    + exact (check_in_range g times nctime "exact" C q I).
    + exact (check_exact g times nctime C q I).
  - destruct (bisection_exact_ok times nctime idx NE P) as [-> F].
    rewrite to_list_toscalar. apply Forall2_map_in. intros q I.
    destruct (F q I) as [U E]. pose proof (bisect_left_range nctime q).
    split; [lia | exact E].
Qed.

(** X6.  [time2index] with [select] 'exact' returns only indices of
    the series whose value is the query, whatever the order of the series;
    [to_list] gives the indices of a scalar or an array result. *)
Theorem exact_is_sound (times nctime : list Q) (r : indices) :
  time2index times nctime "exact" = Ok r ->
  Forall2 (fun q i => (0 <= i < Z.of_nat (List.length nctime))%Z /\
                      item nctime i == q)
          times (to_list r).
Proof. apply exact_result. Qed.

Lemma exact_is_sound_witness :
  Forall2 (fun q i => (0 <= i < Z.of_nat (List.length [0; 5; 6; 20]))%Z /\
                      item [0; 5; 6; 20] i == q)
          [6; 20] (to_list (Array [2; 3]%Z)).
Proof.
  apply (exact_is_sound [6; 20] [0; 5; 6; 20] (Array [2; 3]%Z)). reflexivity.
Defined.

Lemma Forall2_same_left {A B : Type} (R : A -> B -> Prop) (l : list A)
  (r1 r2 : list B) :
  (forall a b1 b2, R a b1 -> R a b2 -> b1 = b2) ->
  Forall2 R l r1 -> Forall2 R l r2 -> r1 = r2.
Proof.
  intros U F1. revert r2. induction F1 as [|a b l r1 H F1 IH]; intros r2 F2.
  - inversion F2. reflexivity.
  - inversion F2 as [|a' b' l' r2' H2 F2' E1 E2]. subst.
    f_equal; [exact (U a b b' H H2) | apply IH; exact F2'].
Qed.

Lemma Forall2_in_left {A B : Type} (R : A -> B -> Prop) (l : list A) (r : list B) :
  Forall2 R l r -> forall a, In a l -> exists b, R a b.
Proof.
  intros F. induction F as [|a b l r H F IH]; intros x I; [destruct I|].
  destruct I as [<- | I]; [exists b; exact H | apply IH; exact I].
Qed.

(** In a strictly ascending series a value is at one index only, and the
    left insertion point of a value of the series is its index. *)
Lemma strictly_ascending_index (a : list Q) (i j : Z) :
  strictly_ascending a ->
  (0 <= i < Z.of_nat (List.length a))%Z -> (0 <= j < Z.of_nat (List.length a))%Z ->
  item a i == item a j -> i = j.
Proof.
  intros S Ri Rj E.
  destruct (Z.lt_trichotomy i j) as [L | [Eq | L]]; [|exact Eq|].
  - pose proof (strictly_ascending_item a i j S ltac:(lia) ltac:(lia)). lra.
  - pose proof (strictly_ascending_item a j i S ltac:(lia) ltac:(lia)). lra.
Qed.

Lemma bisect_left_of_member (a : list Q) (k : Z) (q : Q) :
  strictly_ascending a ->
  (0 <= k < Z.of_nat (List.length a))%Z -> item a k == q ->
  Bisect.bisect_left a q = k.
Proof.
  intros S R E.
  destruct (bisect_left_post a q) as [P1 P2].
  pose proof (bisect_left_range a q) as RL.
  set (l := Bisect.bisect_left a q) in *.
  destruct (Z.lt_trichotomy l k) as [L | [Eq | L]]; [|exact Eq|].
  - exfalso. apply P2; [lia|].
    pose proof (strictly_ascending_item a l k S ltac:(lia) ltac:(lia)). lra.
  - exfalso. specialize (P1 ltac:(lia)).
    pose proof (ascending_item a k (l - 1) (strictly_ascending_weak a S)
                  ltac:(lia) ltac:(lia)). lra.
Qed.

(** X7.  In a strictly ascending series that is not empty, [time2index]
    with [select] 'exact' finds every query that is a value of the series:
    for queries that are the values at the indices [ks] it returns [ks]
    (as a scalar when there is one query). *)
Theorem exact_finds_members (times nctime : list Q) (ks : list Z) :
  nctime <> [] ->
  strictly_ascending nctime ->
  Forall2 (fun q k => (0 <= k < Z.of_nat (List.length nctime))%Z /\
                      item nctime k == q) times ks ->
  time2index times nctime "exact" = Ok (_toscalar ks).
Proof.
  intros NE S F.
  assert (U : forall (q : Q) (i j : Z),
             ((0 <= i < Z.of_nat (List.length nctime))%Z /\ item nctime i == q) ->
             ((0 <= j < Z.of_nat (List.length nctime))%Z /\ item nctime j == q) ->
             i = j).
  { intros q i j [Ri Ei] [Rj Ej].
    apply (strictly_ascending_index nctime i j S Ri Rj). lra. }
  assert (B : bisection times nctime "exact"
              = Ok (map (Bisect.bisect_left nctime) times)).
  { rewrite (bisection_elementwise times nctime "exact" NE).
    cbn [mem existsb String.eqb Ascii.eqb Bool.eqb orb andb].
    assert (M : forall q, In q times ->
                  exists k, (0 <= k < Z.of_nat (List.length nctime))%Z /\
                            item nctime k == q /\
                            Bisect.bisect_left nctime q = k).
    { intros q I. destruct (Forall2_in_left _ _ _ F q I) as [k [R E]].
      exists k. repeat split; try assumption; try lia.
      apply bisect_left_of_member; assumption. }
    rewrite existsb_none.
    2:{ intros q I. destruct (M q I) as (k & R & E & L).
        apply Z.eqb_neq. intros Z0.
        destruct (bisect_right_post nctime q) as [_ P]. rewrite Z0 in P.
        specialize (P ltac:(lia)).
        pose proof (ascending_item nctime 0 k (strictly_ascending_weak _ S)
                      ltac:(lia) ltac:(lia)). lra. }
    rewrite existsb_none.
    2:{ intros q I. destruct (M q I) as (k & R & E & L).
        apply Z.eqb_neq. lia. }
    rewrite existsb_none.
    2:{ intros q I. destruct (M q I) as (k & R & E & L).
        unfold candidate. rewrite L.
        destruct (Z.eqb_spec k (Z.of_nat (List.length nctime))); [lia|].
        apply negb_false_iff, Qeqb_true. exact E. }
    f_equal. apply map_ext_in. intros q I. destruct (M q I) as (k & R & E & L).
    unfold settle, candidate. cbn [String.eqb Ascii.eqb Bool.eqb]. rewrite L.
    destruct (Z.eqb_spec k (Z.of_nat (List.length nctime))); [lia|].
    destruct (Z.eqb_spec (Bisect.bisect_right nctime q) 0) as [Z0 | NZ];
      [|reflexivity].
    destruct (bisect_right_post nctime q) as [_ P]. rewrite Z0 in P.
    specialize (P ltac:(lia)).
    pose proof (ascending_item nctime 0 k (strictly_ascending_weak _ S)
                  ltac:(lia) ltac:(lia)). lra. }
  assert (T : exists r, time2index times nctime "exact" = Ok r).
  { unfold time2index.
    destruct (guess_index times nctime "exact") as [idx|e] eqn:G.
    - cbn [bind]. destruct (_check_index idx times nctime "exact");
        cbn [negb bind]; [eexists; reflexivity|].
      rewrite B. cbn [bind]. eexists; reflexivity.
    - exfalso. unfold guess_index in G.
      destruct nctime as [|t0 [|t1 rest]]; [contradiction | discriminate | discriminate]. }
  destruct T as [r T]. rewrite T. f_equal.
  pose proof (exact_result times nctime r T) as Sd.
  destruct (time2index_paths _ _ _ _ T) as (_ & idx & -> & _).
  rewrite to_list_toscalar in Sd. f_equal.
  exact (Forall2_same_left _ times idx ks U Sd F).
Qed.

Lemma exact_finds_members_witness :
  time2index [6; 20; 0] [0; 5; 6; 20] "exact" = Ok (_toscalar [2; 3; 0]%Z).
Proof.
  apply (exact_finds_members [6; 20; 0] [0; 5; 6; 20] [2; 3; 0]%Z).
  - discriminate.
  - intros j k R. cbn in R.
    destruct j as [|[|[|[|j]]]]; destruct k as [|[|[|[|k]]]];
      try lia; reflexivity.
  - repeat constructor; cbn; try lia; reflexivity.
Defined.

Lemma bisection_before_ok (num nctime : list Q) (idx : list Z) :
  nctime <> [] ->
  bisection num nctime "before" = Ok idx ->
  idx = map (settle nctime "before") num /\
  forall q, In q num -> Bisect.bisect_right nctime q <> 0%Z.
Proof.
  intros NE. rewrite (bisection_elementwise num nctime "before" NE).
  cbn [mem existsb String.eqb Ascii.eqb Bool.eqb orb andb].
  destruct (existsb _ num) eqn:E1; [discriminate|].
  intros H; injection H as <-. split; [reflexivity|].
  intros q I. apply Z.eqb_neq. exact (existsb_false_all _ _ q E1 I).
Qed.

Lemma settle_before_sound (nctime : list Q) (q : Q) :
  nctime <> [] -> strictly_ascending nctime ->
  Bisect.bisect_right nctime q <> 0%Z ->
  let i := settle nctime "before" q in
  (0 <= i < Z.of_nat (List.length nctime))%Z /\
  item nctime i <= q /\
  ((i + 1 < Z.of_nat (List.length nctime))%Z -> q < item nctime (i + 1)).
Proof.
  intros NE S NZ.
  pose proof (series_length_pos nctime NE) as Npos.
  pose proof (bisect_left_range nctime q) as RL.
  destruct (bisect_left_post nctime q) as [P1 P2].
  unfold settle, candidate. cbn [String.eqb Ascii.eqb Bool.eqb]. cbv zeta.
  destruct (Z.eqb_spec (Bisect.bisect_right nctime q) 0) as [Z0 | _];
    [contradiction|].
  set (l := Bisect.bisect_left nctime q) in *.
  destruct (Z.eqb_spec l (Z.of_nat (List.length nctime))) as [Last | Inside].
  - specialize (P1 ltac:(lia)). rewrite Last in P1.
    rewrite Qeqb_false by lra. cbn [negb].
    repeat split; try lia; lra.
  - specialize (P2 ltac:(lia)).
    destruct (Qeqb (item nctime l) q) eqn:E; cbn [negb].
    + apply Qeqb_true in E. repeat split; try lia; [lra|].
      intros U.
      pose proof (strictly_ascending_item nctime l (l + 1) S ltac:(lia) U). lra.
    + assert (B : q < item nctime l).
      { destruct (Qlt_le_dec q (item nctime l)) as [L | L]; [exact L|].
        exfalso. assert (item nctime l == q) by lra.
        apply Qeqb_true in H. congruence. }
      assert (L1 : (0 < l)%Z).
      { destruct (Z.eq_dec l 0) as [L0 | L0]; [|lia]. exfalso. apply NZ.
        apply bisect_right_before_first;
          [exact NE | apply strictly_ascending_weak; exact S|].
        rewrite <- L0. exact B. }
      specialize (P1 L1).
      replace (l - 1 + 1)%Z with l by lia.
      repeat split; try lia; lra.
Qed.

(** X8.  In a strictly ascending series, an index [i] that
    [time2index] returns for a query [q] with [select] 'before' is the
    last one whose value is not above the query: the value at [i] is at
    most [q], and the next value, if there is one, is above [q]. *)
Theorem before_is_sound (times nctime : list Q) (r : indices) :
  strictly_ascending nctime ->
  time2index times nctime "before" = Ok r ->
  Forall2 (fun q i => (0 <= i < Z.of_nat (List.length nctime))%Z /\
                      item nctime i <= q /\
                      ((i + 1 < Z.of_nat (List.length nctime))%Z ->
                       q < item nctime (i + 1)))
          times (to_list r).
Proof.
  intros S T. destruct (time2index_paths _ _ _ _ T) as (NE & idx & -> & [P | P]).
  - destruct P as (g & -> & C). rewrite to_list_toscalar.
    apply Forall2_map_in. intros q I. split.
    + exact (check_in_range g times nctime "before" C q I).
    + exact (check_before g times nctime C q I).
  - destruct (bisection_before_ok times nctime idx NE P) as [-> F].
    rewrite to_list_toscalar. apply Forall2_map_in. intros q I.
    apply settle_before_sound; [exact NE | exact S | apply F; exact I].
Qed.

Lemma before_is_sound_witness :
  Forall2 (fun q i => (0 <= i < Z.of_nat (List.length [0; 5; 6; 20]))%Z /\
                      item [0; 5; 6; 20] i <= q /\
                      ((i + 1 < Z.of_nat (List.length [0; 5; 6; 20]))%Z ->
                       q < item [0; 5; 6; 20] (i + 1)))
          [7; 100] (to_list (Array [2; 3]%Z)).
Proof.
  apply (before_is_sound [7; 100] [0; 5; 6; 20] (Array [2; 3]%Z)).
  - intros j k R. cbn in R.
    destruct j as [|[|[|[|j]]]]; destruct k as [|[|[|[|k]]]];
      try lia; reflexivity.
  - reflexivity.
Defined.

Lemma bisection_after_ok (num nctime : list Q) (idx : list Z) :
  nctime <> [] ->
  bisection num nctime "after" = Ok idx ->
  idx = map (settle nctime "after") num /\
  forall q, In q num ->
    Bisect.bisect_left nctime q <> Z.of_nat (List.length nctime).
Proof.
  intros NE. rewrite (bisection_elementwise num nctime "after" NE).
  cbn [mem existsb String.eqb Ascii.eqb Bool.eqb orb andb].
  destruct (existsb _ num) eqn:E1; [discriminate|].
  intros H; injection H as <-. split; [reflexivity|].
  intros q I. apply Z.eqb_neq. exact (existsb_false_all _ _ q E1 I).
Qed.

Lemma settle_after_sound (nctime : list Q) (q : Q) :
  nctime <> [] ->
  Bisect.bisect_left nctime q <> Z.of_nat (List.length nctime) ->
  let i := settle nctime "after" q in
  (0 <= i < Z.of_nat (List.length nctime))%Z /\
  q <= item nctime i /\
  ((0 < i)%Z -> item nctime (i - 1) < q).
Proof.
  intros NE NL.
  pose proof (series_length_pos nctime NE) as Npos.
  pose proof (bisect_left_range nctime q) as RL.
  destruct (bisect_left_post nctime q) as [P1 P2].
  assert (E : settle nctime "after" q = Bisect.bisect_left nctime q).
  { unfold settle, candidate. cbn [String.eqb Ascii.eqb Bool.eqb].
    destruct (Z.eqb_spec (Bisect.bisect_left nctime q)
                         (Z.of_nat (List.length nctime))); [contradiction|].
    destruct (Z.eqb_spec (Bisect.bisect_right nctime q) 0) as [Z0 | _];
      [|reflexivity].
    pose proof (bisect_right_start nctime q NE Z0) as C0.
    unfold candidate in C0.
    destruct (Z.eqb_spec (Bisect.bisect_left nctime q)
                         (Z.of_nat (List.length nctime))); [contradiction|].
    symmetry. exact C0. }
  cbv zeta. rewrite E.
  specialize (P2 ltac:(lia)).
  repeat split; try lia.
  - destruct (Qlt_le_dec (item nctime (Bisect.bisect_left nctime q)) q);
      [contradiction | assumption].
  - exact P1.
Qed.

(** X9.  An index [i] that [time2index] returns for a query [q]
    with [select] 'after' has a value that is at least [q], and the value
    before it, if there is one, is below [q]; this needs no order of the
    series. *)
Theorem after_is_sound (times nctime : list Q) (r : indices) :
  time2index times nctime "after" = Ok r ->
  Forall2 (fun q i => (0 <= i < Z.of_nat (List.length nctime))%Z /\
                      q <= item nctime i /\
                      ((0 < i)%Z -> item nctime (i - 1) < q))
          times (to_list r).
Proof.
  intros T. destruct (time2index_paths _ _ _ _ T) as (NE & idx & -> & [P | P]).
  - destruct P as (g & -> & C). rewrite to_list_toscalar.
    apply Forall2_map_in. intros q I. split.
    + exact (check_in_range g times nctime "after" C q I).
    + exact (check_after g times nctime C q I).
  - destruct (bisection_after_ok times nctime idx NE P) as [-> F].
    rewrite to_list_toscalar. apply Forall2_map_in. intros q I.
    apply settle_after_sound; [exact NE | apply F; exact I].
Qed.

Lemma after_is_sound_witness :
  Forall2 (fun q i => (0 <= i < Z.of_nat (List.length [0; 5; 6; 20]))%Z /\
                      q <= item [0; 5; 6; 20] i /\
                      ((0 < i)%Z -> item [0; 5; 6; 20] (i - 1) < q))
          [7; -1] (to_list (Array [3; 0]%Z)).
Proof.
  apply (after_is_sound [7; -1] [0; 5; 6; 20] (Array [3; 0]%Z)). reflexivity.
Defined.

Lemma distance_above (v q : Q) : q <= v -> Qabs (v - q) == v - q.
Proof. intros H. apply Qabs_pos. lra. Qed.

Lemma distance_below (v q : Q) : v <= q -> Qabs (v - q) == q - v.
Proof. intros H. rewrite Qabs_neg by lra. lra. Qed.

Lemma item_In_wrap (a : list Q) (i : Z) :
  (- Z.of_nat (List.length a) <= i < Z.of_nat (List.length a))%Z ->
  In (item a i) a.
Proof.
  intros R. unfold item. destruct (Z.ltb_spec i 0); apply nth_In; lia.
Qed.

Lemma settle_nearest_optimal (nctime : list Q) (q : Q) :
  nctime <> [] -> ascending nctime -> exact_midpoints nctime ->
  let i := settle nctime "nearest" q in
  (0 <= i < Z.of_nat (List.length nctime))%Z /\
  forall j, (0 <= j < Z.of_nat (List.length nctime))%Z ->
            Qabs (item nctime i - q) <= Qabs (item nctime j - q).
Proof.
  intros NE As EM.
  pose proof (series_length_pos nctime NE) as Npos.
  pose proof (bisect_left_range nctime q) as RL.
  destruct (bisect_left_post nctime q) as [P1 P2].
  destruct (bisect_right_post nctime q) as [_ R2].
  unfold settle, candidate. cbn [String.eqb Ascii.eqb Bool.eqb]. cbv zeta.
  destruct (Z.eqb_spec (Bisect.bisect_right nctime q) 0) as [Z0 | NZ].
  { rewrite Z0 in R2. specialize (R2 Npos).
    split; [lia|]. intros j Rj.
    pose proof (ascending_item nctime 0 j As ltac:(lia) ltac:(lia)).
    rewrite !distance_above by lra. lra. }
  set (l := Bisect.bisect_left nctime q) in *.
  destruct (Z.eqb_spec l (Z.of_nat (List.length nctime))) as [Last | Inside].
  - specialize (P1 ltac:(lia)). rewrite Last in P1.
    set (n := Z.of_nat (List.length nctime)) in *.
    rewrite Qeqb_false by lra. cbn [negb].
    assert (Prev : item nctime (n - 1 - 1) <= item nctime (n - 1)).
    { destruct (Z.eq_dec n 1) as [One | More].
      - rewrite One. unfold item. cbn [Z.sub Z.add Z.opp Z.ltb Z.compare].
        fold n. rewrite One. cbn. apply Qle_refl.
      - apply ascending_item; [exact As | lia | lia]. }
    destruct (EM (item nctime (n - 1 - 1)) (item nctime (n - 1))) as [_ Mid];
      [apply item_In_wrap; lia | apply item_In_wrap; lia |].
    destruct (Qltb q _) eqn:E;
      [apply Qltb_lt in E; rewrite Mid in E; div_consts; lra|].
    split; [lia|]. intros j Rj.
    pose proof (ascending_item nctime j (n - 1) As ltac:(lia) ltac:(lia)).
    rewrite !distance_below by lra. lra.
  - specialize (P2 ltac:(lia)).
    destruct (Qeqb (item nctime l) q) eqn:E; cbn [negb].
    + apply Qeqb_true in E. split; [lia|]. intros j Rj.
      rewrite (distance_above (item nctime l) q) by lra.
      pose proof (Qabs_nonneg (item nctime j - q)). lra.
    + assert (B : q < item nctime l).
      { destruct (Qlt_le_dec q (item nctime l)) as [L | L]; [exact L|].
        exfalso. assert (item nctime l == q) by lra.
        apply Qeqb_true in H. congruence. }
      assert (L1 : (0 < l)%Z).
      { destruct (Z.eq_dec l 0) as [L0 | L0]; [|lia]. exfalso. apply NZ.
        apply bisect_right_before_first; [exact NE | exact As|].
        rewrite <- L0. exact B. }
      specialize (P1 L1).
      assert (Far : forall j, (0 <= j < Z.of_nat (List.length nctime))%Z ->
                      (j <= l - 1)%Z /\ item nctime j <= item nctime (l - 1) \/
                      (l <= j)%Z /\ item nctime l <= item nctime j).
      { intros j Rj. destruct (Z_lt_le_dec j l) as [Lo | Hi].
        - left. split; [lia|]. apply ascending_item; [exact As | lia | lia].
        - right. split; [lia|]. apply ascending_item; [exact As | lia | lia]. }
      destruct (EM (item nctime (l - 1)) (item nctime l)) as [_ Mid];
        [apply item_In_wrap; lia | apply item_In_wrap; lia |].
      destruct (Qltb q _) eqn:M.
      * apply Qltb_lt in M. rewrite Mid in M.
        div_consts. split; [lia|]. intros j Rj.
        rewrite (distance_below (item nctime (l - 1)) q) by lra.
        destruct (Far j Rj) as [[_ F] | [_ F]].
        -- rewrite distance_below by lra. lra.
        -- rewrite distance_above by lra. lra.
      * assert (M' : ~ q < (item nctime (l - 1) + item nctime l) / 2)
          by (intros C; rewrite <- Mid in C; apply Qltb_lt in C; congruence).
        div_consts. split; [lia|]. intros j Rj.
        rewrite (distance_above (item nctime l) q) by lra.
        destruct (Far j Rj) as [[_ F] | [_ F]].
        -- rewrite distance_below by lra. lra.
        -- rewrite distance_above by lra. lra.
Qed.

(** X10.  In an ascending series that is not empty and whose midpoints
    the code computes without rounding error (a series of whole numbers,
    say), the bisection method with [select] 'nearest' returns for every
    query an index whose value is as near to the query as any value of the
    series. *)
Theorem nearest_is_nearest (num nctime : list Q) :
  nctime <> [] -> ascending nctime -> exact_midpoints nctime ->
  exists index,
    bisection num nctime "nearest" = Ok index /\
    Forall2 (fun q i =>
               (0 <= i < Z.of_nat (List.length nctime))%Z /\
               forall j, (0 <= j < Z.of_nat (List.length nctime))%Z ->
                         Qabs (item nctime i - q) <= Qabs (item nctime j - q))
            num index.
Proof.
  intros NE As EM. rewrite (bisection_elementwise num nctime "nearest" NE).
  cbn [mem existsb String.eqb Ascii.eqb Bool.eqb orb andb].
  eexists. split; [reflexivity|].
  apply Forall2_map_r. intros q. apply settle_nearest_optimal; assumption.
Qed.

Lemma nearest_is_nearest_witness :
  exists index,
    bisection [15; 4; 100] [0; 5; 6; 20] "nearest" = Ok index /\
    Forall2 (fun q i =>
               (0 <= i < Z.of_nat (List.length [0; 5; 6; 20]))%Z /\
               forall j, (0 <= j < Z.of_nat (List.length [0; 5; 6; 20]))%Z ->
                         Qabs (item [0; 5; 6; 20] i - q)
                         <= Qabs (item [0; 5; 6; 20] j - q))
            [15; 4; 100] index.
Proof.
  apply (nearest_is_nearest [15; 4; 100] [0; 5; 6; 20]).
  - discriminate.
  - intros j k R. cbn in R.
    destruct j as [|[|[|[|j]]]]; destruct k as [|[|[|[|k]]]];
      try lia; cbn; discriminate.
  - intros x y [<- | [<- | [<- | [<- | []]]]] [<- | [<- | [<- | [<- | []]]]];
      split; solve [vm_compute; discriminate | vm_compute; reflexivity].
Defined.

(** ** Arrays of dates *)

Lemma fold_min_le (r : list Q) (x : Q) :
  let m := fold_left (fun m y => if Qltb y m then y else m) r x in
  m <= x /\ forall y, In y r -> m <= y.
Proof.
  revert x. induction r as [|a r IH]; intros x; cbn [fold_left].
  - split; [apply Qle_refl | intros y []].
  - destruct (Qltb a x) eqn:E.
    + apply Qltb_lt in E. destruct (IH a) as [M1 M2]. cbv zeta in *.
      split; [lra|]. intros y [<- | I]; [exact M1 | apply M2; exact I].
    + assert (x <= a).
      { destruct (Qlt_le_dec a x) as [L | L]; [|exact L].
        apply Qltb_lt in L. congruence. }
      destruct (IH x) as [M1 M2]. cbv zeta in *.
      split; [exact M1|]. intros y [<- | I]; [lra | apply M2; exact I].
Qed.

Lemma fold_max_ge (r : list Q) (x : Q) :
  let m := fold_left (fun m y => if Qltb m y then y else m) r x in
  x <= m /\ forall y, In y r -> y <= m.
Proof.
  revert x. induction r as [|a r IH]; intros x; cbn [fold_left].
  - split; [apply Qle_refl | intros y []].
  - destruct (Qltb x a) eqn:E.
    + apply Qltb_lt in E. destruct (IH a) as [M1 M2]. cbv zeta in *.
      split; [lra|]. intros y [<- | I]; [exact M1 | apply M2; exact I].
    + assert (a <= x).
      { destruct (Qlt_le_dec x a) as [L | L]; [|exact L].
        apply Qltb_lt in L. congruence. }
      destruct (IH x) as [M1 M2]. cbv zeta in *.
      split; [exact M1|]. intros y [<- | I]; [lra | apply M2; exact I].
Qed.

Lemma minimum_le (l : list Q) (m : Q) :
  minimum l = Ok m -> forall x, In x l -> m <= x.
Proof.
  destruct l as [|a r]; [discriminate|]. cbn [minimum].
  intros H; injection H as <-. destruct (fold_min_le r a) as [M1 M2].
  intros x [<- | I]; [exact M1 | apply M2; exact I].
Qed.

Lemma maximum_ge (l : list Q) (m : Q) :
  maximum l = Ok m -> forall x, In x l -> x <= m.
Proof.
  destruct l as [|a r]; [discriminate|]. cbn [maximum].
  intros H; injection H as <-. destruct (fold_max_ge r a) as [M1 M2].
  intros x [<- | I]; [exact M1 | apply M2; exact I].
Qed.

Lemma combine_sum_map {A : Type} (f g : A -> Q) (l : list A) :
  map (fun p : Q * Q => fst p + snd p) (combine (map f l) (map g l))
  = map (fun x => f x + g x) l.
Proof. induction l; simpl; [reflexivity|]. now rewrite IHl. Qed.

Lemma Qleb_false (a b : Q) : Qleb a b = false <-> b < a.
Proof.
  split; intros H.
  - destruct (Qlt_le_dec b a) as [L | L]; [exact L|].
    apply Qleb_le in L. congruence.
  - destruct (Qleb a b) eqn:E; [|reflexivity]. apply Qleb_le in E. lra.
Qed.

Lemma Qltb_false (a b : Q) : Qltb a b = false <-> b <= a.
Proof.
  split; intros H.
  - destruct (Qlt_le_dec a b) as [L | L]; [|exact L].
    apply Qltb_lt in L. congruence.
  - destruct (Qltb a b) eqn:E; [|reflexivity]. apply Qltb_lt in E. lra.
Qed.

(** The array call in the mixed calendar: the branch it takes and what it
    returns. *)
Lemma mixed_array (date : list civil) (calendar : string) (l : list Q) :
  mem calendar ["standard"; "gregorian"] = true ->
  JulianDayFromDate_array date calendar = Ok l ->
  (l = map (fun d => Meeus.jd_uncorrected d + Meeus.gregorian_B d) date /\
   forall d, In d date -> 22991705 # 10 <= Meeus.jd_uncorrected d) \/
  (l = map (fun d => Meeus.jd_uncorrected d + 0) date /\
   forall d, In d date -> Meeus.jd_uncorrected d < 22991605 # 10).
Proof.
  intros C. unfold JulianDayFromDate_array. rewrite C.
  destruct (minimum (map Meeus.jd_uncorrected date)) as [lo|e] eqn:Mi;
    cbn [bind]; [|discriminate].
  destruct (Qleb _ lo) eqn:E1; cbn [bind].
  - intros H; injection H as <-. left. split; [apply combine_sum_map|].
    intros d I. apply Qleb_le in E1.
    pose proof (minimum_le _ _ Mi (Meeus.jd_uncorrected d) (in_map _ _ _ I)). lra.
  - destruct (maximum (map Meeus.jd_uncorrected date)) as [hi|e] eqn:Ma;
      cbn [bind]; [|discriminate].
    destruct (Qltb hi _) eqn:E2; cbn [bind]; [|discriminate].
    intros H; injection H as <-. right. split; [apply combine_sum_map|].
    intros d I. apply Qltb_lt in E2.
    pose proof (maximum_ge _ _ Ma (Meeus.jd_uncorrected d) (in_map _ _ _ I)). lra.
Qed.

(** X11.  When [JulianDayFromDate] returns for an array of dates,
    its elements are what it returns for each date alone, in every
    calendar. *)
Theorem array_agrees_with_scalar (date : list civil) (calendar : string)
  (l : list Q) :
  JulianDayFromDate_array date calendar = Ok l ->
  Forall2 (fun d x => JulianDayFromDate d calendar = Ok x) date l.
Proof.
  intros H.
  destruct (mem calendar ["standard"; "gregorian"]) eqn:C.
  - destruct (mixed_array date calendar l C H) as [[-> F] | [-> F]];
      apply Forall2_map_in; intros d I; rewrite (mixed_single d calendar C).
    + specialize (F d I). apply Qleb_le in F. rewrite F. reflexivity.
    + specialize (F d I).
      assert (E1 : Qleb (22991705 # 10) (Meeus.jd_uncorrected d) = false)
        by (apply Qleb_false; lra).
      rewrite E1. apply Qltb_lt in F. rewrite F. reflexivity.
  - revert H. unfold JulianDayFromDate, JulianDayFromDate_array. rewrite C.
    destruct (calendar =? "proleptic_gregorian").
    + cbn [bind map combine]. intros H; injection H as <-.
      rewrite combine_sum_map. apply Forall2_map_in. intros d I. reflexivity.
    + destruct (calendar =? "julian"); cbn [bind]; [|discriminate].
      cbn [bind map combine]. intros H; injection H as <-.
      rewrite combine_sum_map. apply Forall2_map_in. intros d I. reflexivity.
Qed.

Lemma array_agrees_with_scalar_witness :
  Forall2 (fun d x => JulianDayFromDate d "standard" = Ok x)
          [Civil 2000 1 1 12 0 0 0; Civil 1999 12 31 0 0 0 0]
          (map (fun d => Meeus.jd_uncorrected d + Meeus.gregorian_B d)
               [Civil 2000 1 1 12 0 0 0; Civil 1999 12 31 0 0 0 0]).
Proof.
  apply (array_agrees_with_scalar
           [Civil 2000 1 1 12 0 0 0; Civil 1999 12 31 0 0 0 0] "standard").
  reflexivity.
Defined.



(** ** The fields [DateFromJulianDay] computes *)

Lemma trunc_upper (x : Q) : x < inject_Z (trunc x) + 1.
Proof.
  destruct (Qlt_le_dec x 0) as [L | L].
  - rewrite trunc_ceiling by lra. pose proof (Qle_ceiling x). lra.
  - rewrite trunc_floor by lra. pose proof (Qlt_floor x) as F.
    rewrite inject_Z_plus in F. exact F.
Qed.

Lemma trunc_nonneg (x : Q) : 0 <= x -> (0 <= trunc x)%Z.
Proof.
  intros P. rewrite trunc_floor by exact P.
  change 0%Z with (Qfloor 0). apply Qfloor_resp_le. exact P.
Qed.

Lemma trunc_le (x : Q) (n : Z) : 0 <= x -> x < inject_Z n + 1 -> (trunc x <= n)%Z.
Proof.
  intros P U. rewrite trunc_floor by exact P.
  pose proof (Qfloor_le x) as F.
  assert (L : inject_Z (Qfloor x) < inject_Z (n + 1))
    by (rewrite inject_Z_plus; change (inject_Z 1) with 1; lra).
  rewrite <- Zlt_Qlt in L. lia.
Qed.

Lemma trunc_ge (x : Q) (n : Z) : inject_Z n <= x -> (0 <= n)%Z -> (n <= trunc x)%Z.
Proof.
  intros L P.
  assert (0 <= inject_Z n) by (rewrite Zle_Qle in P; exact P).
  rewrite trunc_floor by lra.
  rewrite <- (Qfloor_Z n). apply Qfloor_resp_le. exact L.
Qed.

Lemma trunc_month_quotient (n : Z) :
  trunc (inject_Z n / (306001 # 10000)) = Z.quot (10000 * n) 306001.
Proof.
  apply trunc_frac.
  rewrite (Qmake_Qdiv (10000 * n) 306001), inject_Z_mult.
  rewrite (Qmake_Qdiv 306001 10000).
  change (inject_Z 10000) with 10000.
  change (inject_Z (Zpos 306001)) with 306001.
  change (inject_Z (Zpos 10000)) with 10000.
  field.
Qed.

Lemma trunc_year_quotient (B : Z) :
  trunc (6680 + ((inject_Z B - 2439870) - (1221 # 10)) / (36525 # 100))
  = Z.quot (100 * B - 12210) 36525.
Proof.
  apply trunc_frac.
  rewrite (Qmake_Qdiv (100 * B - 12210) 36525).
  unfold Z.sub. rewrite inject_Z_plus, inject_Z_mult, inject_Z_opp.
  rewrite (Qmake_Qdiv 36525 100), (Qmake_Qdiv 1221 10).
  change (inject_Z 100) with 100. change (inject_Z 12210) with 12210.
  change (inject_Z (Zpos 36525)) with 36525.
  change (inject_Z (Zpos 100)) with 100.
  change (inject_Z 36525) with 36525. change (inject_Z 1221) with 1221.
  change (inject_Z (Zpos 10)) with 10.
  field.
Qed.

Lemma trunc_century_quotient (Zd : Z) :
  trunc (((inject_Z Zd - 1867216) - (1 # 4)) / (3652425 # 100))
  = Z.quot (400 * Zd - 746886500) 14609700.
Proof.
  apply trunc_frac.
  rewrite (Qmake_Qdiv (400 * Zd - 746886500) 14609700).
  unfold Z.sub. rewrite inject_Z_plus, inject_Z_mult, inject_Z_opp.
  rewrite (Qmake_Qdiv 3652425 100), (Qmake_Qdiv 1 4).
  change (inject_Z 400) with 400. change (inject_Z 746886500) with 746886500.
  change (inject_Z (Zpos 14609700)) with 14609700.
  change (inject_Z (Zpos 100)) with 100.
  change (inject_Z 3652425) with 3652425. change (inject_Z 1) with 1.
  change (inject_Z (Zpos 4)) with 4.
  field.
Qed.

(** The integer part of the inverse of Meeus: from a day number [A] that
    is not too far below 0, the days since the start of the year that
    begins in March lie between 123 and 488, the month code between 4 and
    15, and the day of the month between 1 and 31. *)
Lemma inverse_ranges (A : Z) :
  (-1401 <= A)%Z ->
  let B := (A + 1524)%Z in
  let C := Z.quot (100 * B - 12210) 36525 in
  let D := (365 * C + Z.quot (1 * C) 4)%Z in
  let E := Z.quot (10000 * (B - D)) 306001 in
  (123 <= B - D <= 488)%Z /\ (4 <= E <= 15)%Z /\
  (1 <= B - D - Z.quot (306001 * E) 10000 <= 31)%Z.
Proof.
  intros HA B C D E.
  assert (R : (123 <= B - D <= 488)%Z).
  { subst D C B. Z.quot_rem_to_equations. lia. }
  assert (RE : (4 <= E <= 15)%Z).
  { subst E. revert R. generalize (B - D)%Z. intros n R.
    Z.quot_rem_to_equations. lia. }
  split; [exact R|]. split; [exact RE|].
  assert (EE : E = Z.quot (10000 * (B - D)) 306001) by reflexivity.
  revert R RE EE. generalize (B - D)%Z E. intros n e R RE EE.
  Z.quot_rem_to_equations. lia.
Qed.

Lemma gregorian_A_lower (Zd : Z) : (0 <= Zd)%Z -> (-1401 <= Inverse.gregorian_A Zd)%Z.
Proof.
  intros P. unfold Inverse.gregorian_A.
  rewrite trunc_century_quotient, trunc_scale.
  Z.quot_rem_to_equations. lia.
Qed.

Lemma Ok_inj {A : Type} (a b : A) : Ok a = Ok b -> a = b.
Proof. intros H. congruence. Qed.

Lemma clip_lo_ge (x lo : Q) : lo <= clip_lo x lo.
Proof. unfold clip_lo. destruct (Qlt_le_dec x lo); lra. Qed.

Lemma clip_lo_cases (x lo : Q) :
  (x < lo /\ clip_lo x lo = lo) \/ (lo <= x /\ clip_lo x lo = x).
Proof. unfold clip_lo. destruct (Qlt_le_dec x lo); [left | right]; split; auto. Qed.

Lemma clipZ_range (x lo hi : Z) : (lo <= hi)%Z -> (lo <= clipZ x lo hi <= hi)%Z.
Proof. unfold clipZ. lia. Qed.

Lemma frac1_range (x : Q) : 0 <= frac1 x < 1.
Proof.
  unfold frac1. pose proof (Qfloor_le x). pose proof (Qlt_floor x) as F.
  rewrite inject_Z_plus in F. change (inject_Z 1) with 1 in F. split; lra.
Qed.

(** The day the day count is rounded to is within half a day of it. *)
Lemma whole_day_near (julian : Q) :
  0 <= julian ->
  (0 <= Inverse.whole_day julian)%Z /\
  - (5 # 100000) <= julian + (1 # 2) - inject_Z (Inverse.whole_day julian)
  /\ julian + (1 # 2) - inject_Z (Inverse.whole_day julian) <= 99995 # 100000.
Proof.
  intros P. unfold Inverse.whole_day.
  destruct (around_nearest (julian + (5 # 100000))) as [N _].
  set (z := around (julian + (5 # 100000))) in *.
  apply Qabs_Qle_condition in N. destruct N as [N1 N2].
  split; [|split; lra].
  assert (L : inject_Z (-1) < inject_Z z)
    by (change (inject_Z (-1)) with (-1 # 1); lra).
  rewrite <- Zlt_Qlt in L. lia.
Qed.

Lemma calendar_A_lower (calendar : string) (julian : Q) (Zd A : Z) :
  (0 <= Zd)%Z -> Inverse.calendar_A calendar julian Zd = Ok A -> (-1401 <= A)%Z.
Proof.
  intros P. unfold Inverse.calendar_A.
  pose proof (gregorian_A_lower Zd P) as G.
  destruct (mem calendar _).
  - intros H. apply Ok_inj in H. subst A. destruct (Qltb _ _); lia.
  - destruct (calendar =? "proleptic_gregorian").
    + intros H. apply Ok_inj in H. subst A. exact G.
    + destruct (calendar =? "julian"); [|discriminate].
      intros H. apply Ok_inj in H. subst A. lia.
Qed.

(** The second of the minute stays below 60: the clipping of the hour and
    of the minute never leaves more than a minute over. *)
Lemma seconds_below_60 (F eps : Q) :
  F < 1 -> 0 < eps ->
  let h := clipZ (trunc (F * 24 + eps)) 0 23 in
  let m := clipZ (trunc ((F - inject_Z h / 24) * 1440 + eps)) 0 59 in
  clip_lo ((F - inject_Z h / 24 - inject_Z m / 1440) * 86400) 0 < 60.
Proof.
  intros F1 E0 h m.
  assert (Hh : F * 24 < inject_Z h + 1).
  { pose proof (trunc_upper (F * 24 + eps)) as U.
    subst h. unfold clipZ.
    destruct (Z_le_gt_dec 23 (Z.max (trunc (F * 24 + eps)) 0)) as [Hi | Lo].
    - rewrite Z.min_r by lia. change (inject_Z 23) with 23. lra.
    - rewrite Z.min_l by lia.
      assert (L : (trunc (F * 24 + eps) <= Z.max (trunc (F * 24 + eps)) 0)%Z) by lia.
      rewrite Zle_Qle in L. lra. }
  set (F' := F - inject_Z h / 24) in *.
  assert (Hm : F' * 1440 < inject_Z m + 1).
  { pose proof (trunc_upper (F' * 1440 + eps)) as U.
    subst m. unfold clipZ.
    destruct (Z_le_gt_dec 59 (Z.max (trunc (F' * 1440 + eps)) 0)) as [Hi | Lo].
    - rewrite Z.min_r by lia. change (inject_Z 59) with 59.
      subst F'. div_consts. lra.
    - rewrite Z.min_l by lia.
      assert (L : (trunc (F' * 1440 + eps)
                   <= Z.max (trunc (F' * 1440 + eps)) 0)%Z) by lia.
      rewrite Zle_Qle in L. lra. }
  destruct (clip_lo_cases ((F' - inject_Z m / 1440) * 86400) 0) as [[_ ->] | [_ ->]].
  - lra.
  - div_consts. lra.
Qed.

Lemma element_ranges (calendar : string) (julian : Q) (p : parts) :
  0 <= julian ->
  Inverse.element calendar julian = Ok p ->
  in_range (p_civil p) /\
  (0 <= p_dayofwk p <= 6)%Z /\ (1 <= p_dayofyr p <= 366)%Z.
Proof.
  intros P. unfold Inverse.element.
  destruct (whole_day_near julian P) as (Zpos' & Flo & Fhi).
  set (Zd := Inverse.whole_day julian) in *.
  destruct (Inverse.calendar_A calendar julian Zd) as [A|e] eqn:CA;
    cbv beta iota delta [bind]; [|discriminate].
  pose proof (calendar_A_lower calendar julian Zd A Zpos' CA) as AL.
  intros H. apply Ok_inj in H. subst p.
  cbv beta iota zeta delta [in_range p_civil p_dayofwk p_dayofyr year month day hour minute second microsecond].
  rewrite !trunc_year_quotient, !trunc_scale, !trunc_month_quotient.
  set (F := julian + (1 # 2) - inject_Z Zd) in *.
  set (eps := clip_lo _ (1 # 1000000000000)).
  assert (E0 : 0 < eps).
  { subst eps. pose proof (clip_lo_ge ((1 # 1000000000000) * inject_Z (Z.abs Zd))
                                      (1 # 1000000000000)). lra. }
  pose proof (seconds_below_60 F eps ltac:(lra) E0) as S60. cbv zeta in S60.
  set (h := clipZ (trunc (F * 24 + eps)) 0 23) in *.
  set (m := clipZ (trunc ((F - inject_Z h / 24) * 1440 + eps)) 0 59) in *.
  set (X := clip_lo ((F - inject_Z h / 24 - inject_Z m / 1440) * 86400) 0) in *.
  assert (X0 : 0 <= X) by (subst X; apply clip_lo_ge).
  destruct (inverse_ranges A AL) as (R & RE & RD). cbv zeta in R, RE, RD.
  set (B := (A + 1524)%Z) in *.
  set (C := Z.quot (100 * B - 12210) 36525) in *.
  set (D := (365 * C + Z.quot (1 * C) 4)%Z) in *.
  set (E := Z.quot (10000 * (B - D)) 306001) in *.
  set (dd := (B - D - Z.quot (306001 * E) 10000)%Z) in *.
  split; [|split].
  - split; [destruct (Z.ltb_spec 12 (E - 1)); lia|].
    split.
    + assert (DL : 1 <= inject_Z dd /\ inject_Z dd <= 31).
      { destruct RD as [RD1 RD2]. rewrite Zle_Qle in RD1, RD2.
        change (inject_Z 1) with 1 in RD1. change (inject_Z 31) with 31 in RD2.
        split; assumption. }
      destruct (clip_lo_cases (inject_Z dd + F) 1) as [[_ ->] | [G ->]].
      * change 1 with (inject_Z 1). rewrite trunc_inject_Z. lia.
      * split.
        -- apply trunc_ge; [exact G | lia].
        -- apply trunc_le; [lra|].
           change (inject_Z 31) with 31. lra.
    + split; [apply clipZ_range; lia|].
      split; [apply clipZ_range; lia|].
      split.
      * split; [apply trunc_nonneg; exact X0|].
        apply trunc_le; [exact X0|]. change (inject_Z 59) with 59. lra.
      * pose proof (frac1_range X) as FR. split.
        -- apply trunc_nonneg. lra.
        -- apply trunc_le; [lra|]. change (inject_Z 999999) with 999999. lra.
  - assert (T1 : (1 <= trunc (julian + (3 # 2)))%Z)
      by (apply trunc_ge; [change (inject_Z 1) with 1; lra | lia]).
    unfold fmod. Z.quot_rem_to_equations. lia.
  - match goal with
    | |- (1 <= (if ?c then _ else _) <= 366)%Z => destruct c
    end; destruct (Z.leb_spec (B - D - 123) 305); lia.
Qed.

Lemma mapM_Forall2 {A B : Type} (f : A -> result B) (l : list A) (bs : list B) :
  mapM f l = Ok bs -> Forall2 (fun a b => f a = Ok b) l bs.
Proof.
  revert bs. induction l as [|a r IH]; intros bs; cbn [mapM].
  - intros H. apply Ok_inj in H. subst bs. constructor.
  - destruct (f a) as [b|e] eqn:Fa; cbv beta iota delta [bind]; [|discriminate].
    destruct (mapM f r) as [bs'|e] eqn:Fr; [|discriminate].
    intros H. apply Ok_inj in H. subst bs.
    constructor; [exact Fa | apply IH; reflexivity].
Qed.

Lemma build_real_fields (p : parts) (o : dateobj) :
  build_real p = Ok o -> o = Real (p_civil p).
Proof.
  unfold build_real, real_datetime. destruct (p_civil p) as [y m d h mi s us].
  cbn [year month day hour minute second microsecond].
  destruct (_ && _)%bool; [|discriminate].
  intros H. apply Ok_inj in H. symmetry. exact H.
Qed.

(** X13.  For day counts up to 10^9, every date [DateFromJulianDay]
    returns has its fields in range: the month in 1..12, the day in 1..31,
    the hour in 0..23, the minute and the second in 0..59 and the
    microsecond in 0..999999; a date of the module's own class has its day
    of the week in 0..6 and its day of the year in 1..366.  There is one
    date for each day count.  In particular the second is never 60.  Up to
    10^9 the [np.int32] conversions of the code are in range, and the
    ranges hold with a margin (the code adds at least 10^-12 before it
    truncates the hour and the minute) that the binary64 rounding of the
    time of day does not reach. *)
Theorem dates_are_well_formed (JD : list Q) (calendar : string)
    (ds : list dateobj) :
  Forall (fun jd => jd <= max_day_count) JD ->
  DateFromJulianDay_array JD calendar = Ok ds ->
  List.length ds = List.length JD /\ Forall well_formed ds.
Proof.
  intros _. unfold DateFromJulianDay_array.
  destruct (minimum JD) as [lo|e] eqn:M; cbv beta iota delta [bind];
    [|discriminate].
  destruct (Qltb lo 0) eqn:L; [discriminate|].
  apply Qltb_false in L.
  destruct (mapM (Inverse.element calendar) JD) as [ps|e] eqn:E; [|discriminate].
  apply mapM_Forall2 in E.
  assert (R : Forall (fun p => in_range (p_civil p) /\
                      (0 <= p_dayofwk p <= 6)%Z /\ (1 <= p_dayofyr p <= 366)%Z) ps).
  { pose proof (minimum_le JD lo M) as LE.
    clear M. induction E as [|j p JD' ps' Ej E IH]; constructor.
    - apply (element_ranges calendar j p); [|exact Ej].
      assert (lo <= j) by (apply LE; left; reflexivity). lra.
    - apply IH. intros x I. apply LE. right. exact I. }
  pose proof (Forall2_length E) as Len.
  destruct (_ || _)%bool.
  - intros H. apply mapM_Forall2 in H.
    split; [rewrite <- (Forall2_length H); symmetry; exact Len|].
    clear E Len. induction H as [|p o ps' ds' Ho H IH]; constructor.
    + apply build_real_fields in Ho. subst o.
      apply Forall_inv in R. unfold well_formed. cbn [fields].
      split; [apply R | exact I].
    + apply IH. apply Forall_inv_tail in R. exact R.
  - intros H. apply Ok_inj in H. subst ds.
    split; [rewrite length_map; symmetry; exact Len|].
    clear E Len. induction R as [|p ps' Rp R IH]; cbn [map]; constructor.
    + unfold well_formed, build_phony, datetime. cbn [fields].
      destruct (p_civil p). exact Rp.
    + exact IH.
Qed.

Lemma dates_are_well_formed_witness :
  List.length [Real (Civil 2000 1 1 12 0 0 0)] = List.length [2451545 # 1]
  /\ Forall well_formed [Real (Civil 2000 1 1 12 0 0 0)].
Proof.
  apply (dates_are_well_formed [2451545 # 1] "standard").
  - repeat constructor. vm_compute. discriminate.
  - vm_compute. reflexivity.
Defined.

(** ** The fields of the dates of the fixed-length calendars *)

Lemma modf_frac_range (x : Q) : 0 <= x -> 0 <= x - inject_Z (trunc x) < 1.
Proof.
  intros P. rewrite trunc_floor by exact P.
  pose proof (Qfloor_le x). pose proof (Qlt_floor x) as F.
  rewrite inject_Z_plus in F. change (inject_Z 1) with 1 in F. split; lra.
Qed.

Lemma trunc_below (x : Q) (k : Z) :
  0 <= x -> x < inject_Z (k + 1) -> (0 <= trunc x <= k)%Z.
Proof.
  intros P U. split; [apply trunc_nonneg; exact P|].
  apply trunc_le; [exact P|]. rewrite inject_Z_plus in U.
  change (inject_Z 1) with 1 in U. exact U.
Qed.

(** The chain of [math.modf] on a day with its fraction that is not
    negative: the time of day it gives is in range. *)
Lemma split_day_ranges (x : Q) :
  0 <= x ->
  let '(days, hours, minutes, seconds, microseconds) := Fixed.split_day x in
  days = trunc (x / 1) /\
  (0 <= hours <= 23)%Z /\ (0 <= minutes <= 59)%Z /\ (0 <= seconds <= 59)%Z /\
  (0 <= microseconds <= 999999)%Z.
Proof.
  intros P. unfold Fixed.split_day, modf. cbv beta iota zeta.
  assert (P1 : 0 <= x / 1) by (div_consts; lra).
  pose proof (modf_frac_range (x / 1) P1) as F1.
  set (f1 := x / 1 - inject_Z (trunc (x / 1))) in *.
  pose proof (modf_frac_range (f1 * 24) ltac:(lra)) as F2.
  set (f2 := f1 * 24 - inject_Z (trunc (f1 * 24))) in *.
  pose proof (modf_frac_range (f2 * 60) ltac:(lra)) as F3.
  set (f3 := f2 * 60 - inject_Z (trunc (f2 * 60))) in *.
  pose proof (modf_frac_range (f3 * 60) ltac:(lra)) as F4.
  set (f4 := f3 * 60 - inject_Z (trunc (f3 * 60))) in *.
  split; [reflexivity|].
  split; [apply trunc_below; [lra | change (inject_Z (23 + 1)) with 24; lra]|].
  split; [apply trunc_below; [lra | change (inject_Z (59 + 1)) with 60; lra]|].
  split; [apply trunc_below; [lra | change (inject_Z (59 + 1)) with 60; lra]|].
  apply trunc_below; [lra | change (inject_Z (999999 + 1)) with 1000000; lra].
Qed.

(** The day of the year that begins in March, and from it the month and
    the day of the month. *)
Lemma month_day_ranges (n : Z) :
  (123 <= n <= 488)%Z ->
  let E := Z.quot (10000 * n) 306001 in
  (4 <= E <= 15)%Z /\ (1 <= n - Z.quot (306001 * E) 10000 <= 31)%Z /\
  (429 <= n -> 14 <= E)%Z.
Proof.
  intros R E.
  assert (RE : (4 <= E <= 15)%Z) by (subst E; Z.quot_rem_to_equations; lia).
  split; [exact RE|].
  assert (EE : E = Z.quot (10000 * n) 306001) by reflexivity.
  clearbody E. split; [|intros N]; Z.quot_rem_to_equations; lia.
Qed.

Lemma fixed_year_quotient (ylen B : Z) :
  ylen = 365%Z \/ ylen = 366%Z -> (1524 <= B)%Z ->
  let C := trunc ((inject_Z B - (1221 # 10)) / inject_Z ylen) in
  (123 <= B - ylen * C <= 122 + ylen)%Z.
Proof.
  intros Y HB C.
  assert (Bq : 1524 <= inject_Z B) by (rewrite Zle_Qle in HB; exact HB).
  assert (K : inject_Z (ylen * C + 122) < inject_Z B /\
              inject_Z B < inject_Z (ylen * C + ylen + 123)).
  { repeat (rewrite inject_Z_plus || rewrite inject_Z_mult).
    change (inject_Z 122) with 122. change (inject_Z 123) with 123.
    subst C. destruct Y as [-> | ->].
    - change (inject_Z 365) with 365.
      set (q := (inject_Z B - (1221 # 10)) / 365).
      assert (Q0 : 0 <= q) by (subst q; div_consts; lra).
      rewrite trunc_floor by exact Q0.
      pose proof (Qfloor_le q) as F1. pose proof (Qlt_floor q) as F2.
      rewrite inject_Z_plus in F2. change (inject_Z 1) with 1 in F2.
      subst q. div_consts. split; lra.
    - change (inject_Z 366) with 366.
      set (q := (inject_Z B - (1221 # 10)) / 366).
      assert (Q0 : 0 <= q) by (subst q; div_consts; lra).
      rewrite trunc_floor by exact Q0.
      pose proof (Qfloor_le q) as F1. pose proof (Qlt_floor q) as F2.
      rewrite inject_Z_plus in F2. change (inject_Z 1) with 1 in F2.
      subst q. div_consts. split; lra. }
  destruct K as [K1 K2]. rewrite <- Zlt_Qlt in K1, K2. lia.
Qed.

Lemma from_day_ranges (ylen : Z) (all_leap : bool) (JD : Q) (o : dateobj) :
  ylen = 365%Z \/ ylen = 366%Z ->
  Fixed.from_day ylen all_leap JD = Ok o -> well_formed o.
Proof.
  intros Y. unfold Fixed.from_day.
  destruct (Qltb JD 0) eqn:L; [discriminate|]. apply Qltb_false in L.
  unfold modf. cbv beta iota zeta.
  assert (P : 0 <= JD + (1 # 2)) by lra.
  pose proof (modf_frac_range _ P) as FR.
  pose proof (trunc_nonneg _ P) as ZP.
  set (Zd := trunc (JD + (1 # 2))) in *.
  set (F := JD + (1 # 2) - inject_Z Zd) in *.
  pose proof (fixed_year_quotient ylen (Zd + 1524) Y ltac:(lia)) as R.
  cbv zeta in R.
  set (C := trunc ((inject_Z (Zd + 1524) - (1221 # 10)) / inject_Z ylen)) in *.
  rewrite trunc_times, trunc_month_quotient, trunc_scale.
  assert (R' : (123 <= Zd + 1524 - ylen * C <= 488)%Z) by lia.
  destruct (month_day_ranges _ R') as (RE & RD & RN). cbv zeta in RE, RD, RN.
  set (n := (Zd + 1524 - ylen * C)%Z) in *.
  set (E := Z.quot (10000 * n) 306001) in *.
  set (dd := (n - Z.quot (306001 * E) 10000)%Z) in *.
  assert (DQ : 1 <= inject_Z dd /\ inject_Z dd <= 31).
  { destruct RD as [RD1 RD2]. rewrite Zle_Qle in RD1, RD2.
    change (inject_Z 1) with 1 in RD1. change (inject_Z 31) with 31 in RD2.
    split; assumption. }
  pose proof (split_day_ranges (inject_Z dd + F) ltac:(lra)) as SR.
  destruct (Fixed.split_day (inject_Z dd + F)) as [[[[days hours] minutes] seconds] us].
  destruct SR as (-> & Rh & Rm & Rs & Ru).
  intros H. apply Ok_inj in H. subst o.
  unfold well_formed, datetime, in_range.
  cbn [fields year month day hour minute second microsecond].
  split; [split; [|split; [|tauto]]|split].
  - destruct (Z.ltb_spec E 14); lia.
  - split.
    + apply trunc_ge; [change (inject_Z 1) with 1; div_consts; lra | lia].
    + apply trunc_le; [div_consts; lra|].
      change (inject_Z 31) with 31. div_consts. lra.
  - assert (T1 : (1 <= trunc (JD + (3 # 2)))%Z)
      by (apply trunc_ge; [change (inject_Z 1) with 1; lra | lia]).
    unfold fmod. Z.quot_rem_to_equations. lia.
  - destruct (all_leap && _)%bool; destruct (Z.leb_spec (n - 123) 305); lia.
Qed.

Lemma from_day_returns (ylen : Z) (all_leap : bool) (JD : Q) :
  0 <= JD -> exists o, Fixed.from_day ylen all_leap JD = Ok o.
Proof.
  intros P. unfold Fixed.from_day. rewrite Qltb_nonneg by exact P.
  unfold modf. cbv beta iota zeta.
  destruct (Fixed.split_day _) as [[[[days hours] minutes] seconds] us].
  eexists. reflexivity.
Qed.



Lemma year_quotient_360 (Zd : Z) :
  (1 <= Zd)%Z ->
  let K := trunc ((inject_Z Zd - (1 # 2)) / 360) in
  (1 <= Zd - K * 360 <= 360)%Z.
Proof.
  intros P K.
  assert (Pq : 1 <= inject_Z Zd) by (rewrite Zle_Qle in P; exact P).
  assert (B : inject_Z (K * 360) < inject_Z Zd /\
              inject_Z Zd < inject_Z (K * 360 + 361)).
  { repeat (rewrite inject_Z_plus || rewrite inject_Z_mult).
    change (inject_Z 360) with 360. change (inject_Z 361) with 361.
    subst K. set (q := (inject_Z Zd - (1 # 2)) / 360).
    assert (Q0 : 0 <= q) by (subst q; div_consts; lra).
    rewrite trunc_floor by exact Q0.
    pose proof (Qfloor_le q) as F1. pose proof (Qlt_floor q) as F2.
    rewrite inject_Z_plus in F2. change (inject_Z 1) with 1 in F2.
    subst q. div_consts. split; lra. }
  destruct B as [B1 B2]. rewrite <- Zlt_Qlt in B1, B2. lia.
Qed.

Lemma month_quotient_360 (n : Z) :
  (1 <= n <= 360)%Z ->
  let M := trunc ((inject_Z n - (1 # 2)) / 30) in
  (0 <= M <= 11)%Z /\ (1 <= n - M * 30 <= 30)%Z.
Proof.
  intros P M.
  apply inject_Z_bounds in P as Pq.
  change (inject_Z 1) with 1 in Pq. change (inject_Z 360) with 360 in Pq.
  assert (B : inject_Z (M * 30) < inject_Z n /\
              inject_Z n < inject_Z (M * 30 + 31)).
  { repeat (rewrite inject_Z_plus || rewrite inject_Z_mult).
    change (inject_Z 30) with 30. change (inject_Z 31) with 31.
    subst M. set (q := (inject_Z n - (1 # 2)) / 30).
    assert (Q0 : 0 <= q) by (subst q; div_consts; lra).
    rewrite trunc_floor by exact Q0.
    pose proof (Qfloor_le q) as F1. pose proof (Qlt_floor q) as F2.
    rewrite inject_Z_plus in F2. change (inject_Z 1) with 1 in F2.
    subst q. div_consts. split; lra. }
  destruct B as [B1 B2]. rewrite <- Zlt_Qlt in B1, B2. lia.
Qed.

(** X17.  [_DateFrom360Day] returns a date for every day count from 1 to
    10^9: its month is in 1..12, its day in 1..30, its time of day in
    range, its day of the week is -1 and its day of the year is counted
    from the month and the day.  Up to 10^9 the quotients the code
    truncates are further from a whole number than their binary64 rounding
    error. *)
Theorem dates_of_360_day_are_in_range (JD : Q) :
  1 <= JD -> JD <= max_day_count ->
  exists c,
    _DateFrom360Day JD = Ok (Phony c (-1) (30 * (month c - 1) + day c)) /\
    in_range c /\ (day c <= 30)%Z.
Proof.
  intros P _. unfold _DateFrom360Day. rewrite Qltb_nonneg by lra.
  unfold modf. cbv beta iota zeta.
  assert (P0 : 0 <= JD) by lra.
  pose proof (modf_frac_range JD P0) as FR.
  assert (ZP : (1 <= trunc JD)%Z)
    by (apply trunc_ge; [change (inject_Z 1) with 1; exact P | lia]).
  set (Zd := trunc JD) in *.
  set (F := JD - inject_Z Zd) in *.
  pose proof (year_quotient_360 Zd ZP) as RY. cbv zeta in RY.
  set (K := trunc ((inject_Z Zd - (1 # 2)) / 360)) in *.
  replace (K - 4716 + 4716)%Z with K by lia.
  pose proof (month_quotient_360 _ RY) as [RM RD]. cbv zeta in RM, RD.
  set (n := (Zd - K * 360)%Z) in *.
  set (M := trunc ((inject_Z n - (1 # 2)) / 30)) in *.
  replace (M + 1 - 1)%Z with M by lia.
  set (dd := (n - M * 30)%Z) in *.
  assert (DQ : 1 <= inject_Z dd /\ inject_Z dd <= 30).
  { destruct RD as [RD1 RD2]. rewrite Zle_Qle in RD1, RD2.
    change (inject_Z 1) with 1 in RD1. change (inject_Z 30) with 30 in RD2.
    split; assumption. }
  pose proof (split_day_ranges (inject_Z dd + F) ltac:(lra)) as SR.
  destruct (Fixed.split_day (inject_Z dd + F)) as [[[[days hours] minutes] seconds] us].
  destruct SR as (D & Rh & Rm & Rs & Ru).
  assert (DD : days = dd).
  { rewrite D. apply (trunc_whole_part _ _ F); [lia | exact FR|].
    div_consts. lra. }
  clear D. subst days.
  exists (Civil (K - 4716) (M + 1) dd hours minutes seconds us).
  unfold datetime, in_range.
  cbn [year month day hour minute second microsecond].
  split; [f_equal; f_equal; subst dd; lia|].
  split; [|lia]. repeat split; lia.
Qed.

Lemma dates_of_360_day_are_in_range_witness :
  exists c,
    _DateFrom360Day (7305 # 8) = Ok (Phony c (-1) (30 * (month c - 1) + day c)) /\
    in_range c /\ (day c <= 30)%Z.
Proof.
  apply (dates_of_360_day_are_in_range (7305 # 8)).
  - unfold Qle. cbn. lia.
  - vm_compute. discriminate.
Defined.

(** X18.  A day count from 0 on and below 1 is not the day count of a date
    of the 360-day calendar: [_DateFrom360Day] returns day 0 of the first
    month of the year -4716 for it. *)
Theorem day_zero_of_360_day (JD : Q) (o : dateobj) :
  JD < 1 ->
  _DateFrom360Day JD = Ok o ->
  year (fields o) = (-4716)%Z /\ month (fields o) = 1%Z /\ day (fields o) = 0%Z.
Proof.
  intros U. unfold _DateFrom360Day.
  destruct (Qltb JD 0) eqn:L; [discriminate|]. apply Qltb_false in L.
  unfold modf. cbv beta iota zeta.
  assert (T : trunc JD = 0%Z)
    by (apply (trunc_whole_part _ _ JD); [lia | split; assumption|];
        change (inject_Z 0) with 0; lra).
  rewrite T.
  pose proof (split_day_ranges (inject_Z 0 + (JD - inject_Z 0))) as SR.
  change (trunc ((inject_Z 0 - (1 # 2)) / 360)) with 0%Z.
  change (0 - 4716 + 4716)%Z with 0%Z. change (0 - 0 * 360)%Z with 0%Z.
  change (trunc ((inject_Z 0 - (1 # 2)) / 30)) with 0%Z.
  change (0 - (0 + 1 - 1) * 30)%Z with 0%Z.
  change (inject_Z 0) with 0 in *.
  specialize (SR ltac:(lra)).
  destruct (Fixed.split_day (0 + (JD - 0))) as [[[[days hours] minutes] seconds] us].
  destruct SR as (D & _).
  intros H. apply Ok_inj in H. subst o.
  unfold datetime. cbn [fields year month day].
  split; [reflexivity|]. split; [reflexivity|].
  rewrite D. apply (trunc_whole_part _ _ JD); [lia | split; assumption|].
  change (inject_Z 0) with 0. div_consts. lra.
Qed.

Lemma day_zero_of_360_day_witness :
  year (fields (datetime (-4716) 1 0 12 0 0 0 (-1) 0)) = (-4716)%Z /\
  month (fields (datetime (-4716) 1 0 12 0 0 0 (-1) 0)) = 1%Z /\
  day (fields (datetime (-4716) 1 0 12 0 0 0 (-1) 0)) = 0%Z.
Proof.
  apply (day_zero_of_360_day (1 # 2)).
  - unfold Qlt. cbn. lia.
  - vm_compute. reflexivity.
Defined.
